(** * RivetQ: write-ahead log, ready structure and queue manager

    A shallow embedding of the Go sources of RivetQ
    (internal/wal, internal/queue, internal/util) and the properties of
    its specification that were checked against them.

    Conventions.
    - Go's fixed-width integers are [Z] with the wrap-around written out
      ([uint8], [uint16], [uint32], [uint64], [int64] below).
    - [[]byte] is [list byte]; a Go [string] is a [string] (a sequence of
      8-bit characters); [len] is [length] / [String.length].
    - [map[string]T] is [gmap string T].  A nil map or slice and an empty
      one are identified: the code only reads them through [len],
      [range] and lookups, which do not tell them apart.
    - [time.Time] is the instant in nanoseconds since the Unix epoch, an
      unbounded [Z]; the monotonic reading and the location are left out.
    - Loops whose trip count is not a syntactic bound take fuel from the
      size of their input; running out of fuel is [None] and the
      theorems show that it does not happen. *)

From Stdlib Require Import ZArith Lia Strings.Byte String.
From stdpp Require Import gmap strings list fin_maps sorting.

Local Open Scope Z_scope.

(** ** Fixed-width integers and bytes *)

Definition uint8 (z : Z) : Z := z `mod` 2 ^ 8.
Definition uint16 (z : Z) : Z := z `mod` 2 ^ 16.
Definition uint32 (z : Z) : Z := z `mod` 2 ^ 32.
Definition uint64 (z : Z) : Z := z `mod` 2 ^ 64.
(** [int64(x)] of an unsigned 64-bit [x]: two's complement. *)
Definition int64 (z : Z) : Z := (z + 2 ^ 63) `mod` 2 ^ 64 - 2 ^ 63.

Definition Z_of_byte (b : byte) : Z := Z.of_N (Byte.to_N b).
(** [byte(z)]: the low eight bits. *)
Definition byte_of_Z (z : Z) : byte :=
  default Byte.x00 (Byte.of_N (Z.to_N (uint8 z))).

(** [b[i]] where the caller has checked the bounds. *)
Definition at_ (b : list byte) (i : nat) : Z := Z_of_byte (nth i b Byte.x00).

(** ** encoding/binary, LittleEndian *)

Module LittleEndian.

Definition PutUint16 (v : Z) : list byte :=
  [byte_of_Z v; byte_of_Z (v ≫ 8)].

Definition PutUint32 (v : Z) : list byte :=
  [byte_of_Z v; byte_of_Z (v ≫ 8); byte_of_Z (v ≫ 16); byte_of_Z (v ≫ 24)].

Definition PutUint64 (v : Z) : list byte :=
  [byte_of_Z v; byte_of_Z (v ≫ 8); byte_of_Z (v ≫ 16); byte_of_Z (v ≫ 24);
   byte_of_Z (v ≫ 32); byte_of_Z (v ≫ 40); byte_of_Z (v ≫ 48);
   byte_of_Z (v ≫ 56)].

Definition Uint16 (b : list byte) : Z :=
  Z.lor (at_ b 0) (at_ b 1 ≪ 8).

Definition Uint32 (b : list byte) : Z :=
  Z.lor (Z.lor (Z.lor (at_ b 0) (at_ b 1 ≪ 8)) (at_ b 2 ≪ 16)) (at_ b 3 ≪ 24).

Definition Uint64 (b : list byte) : Z :=
  Z.lor (Z.lor (Z.lor (Z.lor (Z.lor (Z.lor (Z.lor
    (at_ b 0) (at_ b 1 ≪ 8)) (at_ b 2 ≪ 16)) (at_ b 3 ≪ 24))
    (at_ b 4 ≪ 32)) (at_ b 5 ≪ 40)) (at_ b 6 ≪ 48)) (at_ b 7 ≪ 56).

End LittleEndian.

(** ** package time *)

Module time.

(** An instant, in nanoseconds since the Unix epoch. *)
Definition Time := Z.
Definition Duration := Z.

Definition Millisecond : Duration := 1000000.

(** The zero [Time] is January 1, year 1, 00:00:00 UTC. *)
Definition zero : Time := -62135596800 * 1000000000.

Definition IsZero (t : Time) : bool := bool_decide (t = zero).
Definition Equal (t u : Time) : bool := bool_decide (t = u).
Definition Before (t u : Time) : bool := bool_decide (t < u).
Definition Add (t : Time) (d : Duration) : Time := t + d.

(** [t.UnixMilli()]: whole milliseconds since the epoch, rounded down, as
    an [int64]. *)
Definition UnixMilli (t : Time) : Z := int64 (uint64 (t `div` 1000000)).

(** [time.UnixMilli(msec)]. *)
Definition ofUnixMilli (msec : Z) : Time := msec * 1000000.

End time.

(** ** package util: CRC-32C *)

Module util.

(** One bit of the reflected Castagnoli division: shift right and, if the
    bit shifted out was set, fold the polynomial in. *)
Definition crc_bit (c : Z) : Z :=
  if Z.testbit c 0 then Z.lxor (c ≫ 1) 2197175160 else c ≫ 1.

Definition crc_byte (c : Z) (b : byte) : Z :=
  Nat.iter 8 crc_bit (Z.lxor c (Z_of_byte b)).

(** [crc32.Checksum(data, crc32.MakeTable(crc32.Castagnoli))]. *)
Definition Checksum (data : list byte) : Z :=
  Z.lxor (fold_left crc_byte data 4294967295) 4294967295.

Definition VerifyChecksum (data : list byte) (expected : Z) : bool :=
  bool_decide (Checksum data = expected).

(** [AppendChecksum]: a copy of [data] followed by the four bytes of its
    checksum, low byte first. *)
Definition AppendChecksum (data : list byte) : list byte :=
  data ++ LittleEndian.PutUint32 (Checksum data).

End util.

(** ** package store: the bound of a prefix scan *)

Module store.

(** [bytes.Compare], the order of the keys of the store: -1, 0 or 1. *)
Fixpoint Compare (a b : list byte) : Z :=
  match a, b with
  | [], [] => 0
  | [], _ :: _ => -1
  | _ :: _, [] => 1
  | x :: a', y :: b' =>
      if decide (Z_of_byte x < Z_of_byte y) then -1
      else if decide (Z_of_byte y < Z_of_byte x) then 1
      else Compare a' b'
  end.

(** The loop of [prefixUpperBound] with [n = i + 1]: [end[i]++], and
    return [end] unless the byte has wrapped to zero. *)
Fixpoint upperLoop (n : nat) (end_ : list byte) : option (list byte) :=
  match n with
  | O => None
  | S i =>
      let b := byte_of_Z (at_ end_ i + 1) in
      let end_ := <[i := b]> end_ in
      if decide (Z_of_byte b ≠ 0) then Some end_ else upperLoop i end_
  end.

(** [prefixUpperBound]; [None] is the nil slice. *)
Definition prefixUpperBound (prefix : list byte) : option (list byte) :=
  upperLoop (length prefix) prefix.

End store.

(** ** Errors *)

Inductive error : Type :=
| ErrInvalidRecord
| ErrCorruptedData
| io_EOF
| io_ErrUnexpectedEOF
| errors_New (msg : string)
| Errorf (msg : string) (wrapped : error).

Global Instance error_eq_dec : EqDecision error.
Proof. solve_decision. Defined.

(** ** package wal: records and their codec *)

Module wal.

(** [type RecordType uint8] *)
Definition RecordType := Z.

Definition RecordTypeEnqueue : RecordType := 1.
Definition RecordTypeAck : RecordType := 2.
Definition RecordTypeNack : RecordType := 3.
Definition RecordTypeRequeue : RecordType := 4.
Definition RecordTypeTombstone : RecordType := 5.

(** [type Record struct]; [Type_] is the field [Type]. *)
Record Record_ : Type := mkRecord {
  Type_ : RecordType;
  Queue : string;
  JobID : string;
  Payload : list byte;
  Headers : gmap string string;
  Priority : Z;
  Tries : Z;
  MaxRetries : Z;
  ETA : time.Time;
  LeaseID : string;
  Reason : string
}.

(** The zero value [&Record{}], with the fields a literal leaves out. *)
Definition zeroRecord : Record_ :=
  mkRecord 0 "" "" [] ∅ 0 0 0 time.zero "" "".

(** A two-byte length followed by the bytes of the string: the pair
    [PutUint16(buf[offset:], uint16(len(s)))], [copy(buf[offset:], s)]. *)
Definition putString (s : string) : list byte :=
  LittleEndian.PutUint16 (uint16 (Z.of_nat (String.length s)))
    ++ list_byte_of_string s.

Definition putHeader (kv : string * string) : list byte :=
  putString kv.1 ++ putString kv.2.

(** [Record.Marshal].  The buffer is allocated with exactly the size of
    what follows and filled from offset 0 upwards, so the result
    [buf[:offset]] is the concatenation of the pieces; the error result
    is always nil.  [order] is the order in which [range r.Headers]
    yields the entries, which Go leaves unspecified. *)
Definition MarshalIn (order : list (string * string)) (r : Record_) : list byte :=
  [byte_of_Z (Type_ r)]
  ++ putString (Queue r)
  ++ putString (JobID r)
  ++ [byte_of_Z (Priority r)]
  ++ LittleEndian.PutUint32 (Tries r)
  ++ LittleEndian.PutUint32 (MaxRetries r)
  ++ LittleEndian.PutUint64 (uint64 (time.UnixMilli (ETA r)))
  ++ LittleEndian.PutUint32 (uint32 (Z.of_nat (length (Payload r))))
  ++ Payload r
  ++ LittleEndian.PutUint16 (uint16 (Z.of_nat (size (Headers r))))
  ++ flat_map putHeader order
  ++ putString (LeaseID r)
  ++ putString (Reason r).

Definition Marshal (r : Record_) : list byte :=
  MarshalIn (map_to_list (Headers r)) r.

(** [Record.Unmarshal] walks [data] with a running [offset] and returns
    [ErrInvalidRecord] as soon as a read would pass the end. *)
Definition Parser (A : Type) : Type := list byte → nat → error + A * nat.

Definition pret {A} (a : A) : Parser A := λ _ offset, inr (a, offset).

Definition pbind {A B} (p : Parser A) (f : A → Parser B) : Parser B :=
  λ data offset,
    match p data offset with
    | inl e => inl e
    | inr (a, offset') => f a data offset'
    end.

Notation "'let!' x ':=' p 'in' q" := (pbind p (λ x, q))
  (at level 10, x name, p at level 100, q at level 200, only parsing).

(** [if offset+1 > len(data) { return ErrInvalidRecord }; data[offset]; offset++] *)
Definition getByte : Parser Z := λ data offset,
  if decide (length data < offset + 1)%nat then inl ErrInvalidRecord
  else inr (at_ (drop offset data) 0, (offset + 1)%nat).

Definition getUint16 : Parser Z := λ data offset,
  if decide (length data < offset + 2)%nat then inl ErrInvalidRecord
  else inr (LittleEndian.Uint16 (drop offset data), (offset + 2)%nat).

Definition getUint32 : Parser Z := λ data offset,
  if decide (length data < offset + 4)%nat then inl ErrInvalidRecord
  else inr (LittleEndian.Uint32 (drop offset data), (offset + 4)%nat).

Definition getUint64 : Parser Z := λ data offset,
  if decide (length data < offset + 8)%nat then inl ErrInvalidRecord
  else inr (LittleEndian.Uint64 (drop offset data), (offset + 8)%nat).

(** [if offset+n > len(data) { ... }; data[offset : offset+n]; offset += n] *)
Definition getBytes (n : nat) : Parser (list byte) := λ data offset,
  if decide (length data < offset + n)%nat then inl ErrInvalidRecord
  else inr (take n (drop offset data), (offset + n)%nat).

Definition getString : Parser string :=
  let! n := getUint16 in
  let! b := getBytes (Z.to_nat n) in
  pret (string_of_list_byte b).

(** The loop [for i := 0; i < int(headersCount); i++], entries assigned
    into the map one by one. *)
Fixpoint getHeaders (count : nat) (m : gmap string string)
    : Parser (gmap string string) :=
  match count with
  | O => pret m
  | S count' =>
      let! key := getString in
      let! val := getString in
      getHeaders count' (<[key := val]> m)
  end.

Definition parseRecord : Parser Record_ :=
  let! ty := getByte in
  let! queue := getString in
  let! jobID := getString in
  let! priority := getByte in
  let! tries := getUint32 in
  let! maxRetries := getUint32 in
  let! etaMs := getUint64 in
  let! payloadLen := getUint32 in
  let! payload := getBytes (Z.to_nat payloadLen) in
  let! headersCount := getUint16 in
  let! headers := getHeaders (Z.to_nat headersCount) ∅ in
  let! leaseID := getString in
  let! reason := getString in
  pret (mkRecord ty queue jobID payload headers priority tries maxRetries
          (time.ofUnixMilli (int64 etaMs)) leaseID reason).

(** On success every field of the receiver has been assigned, so the
    result does not depend on what the receiver held; on failure the
    callers drop the receiver. *)
Definition Unmarshal (data : list byte) : error + Record_ :=
  match parseRecord data 0%nat with
  | inl e => inl e
  | inr (r, _) => inr r
  end.

(** *** Segments

    A segment is one file; [seg_file] is its content.  The writer's buffer
    is flushed at the end of every [Write], so the content of the file
    after a successful write is the old content followed by the new
    frame. *)
Record Segment : Type := mkSegment {
  seg_id : Z;
  seg_file : list byte;
  seg_size : Z;
  seg_maxSize : Z;
  seg_fsync : bool;
  seg_readOnly : bool
}.

(** [[length:4][crc32:4][data...]] *)
Definition frame (data : list byte) : list byte :=
  LittleEndian.PutUint32 (uint32 (Z.of_nat (length data)))
  ++ LittleEndian.PutUint32 (util.Checksum data)
  ++ data.

(** [Segment.Write].  [disk_ok] tells whether the writes, the flush and
    the sync of this call go through; when they do not, the call returns
    the error and the segment is left as it was. *)
Definition Segment_Write (disk_ok : bool) (s : Segment) (record : Record_)
    : option error * Segment :=
  if seg_readOnly s then (Some (errors_New "segment is read-only"), s)
  else
    let data := Marshal record in
    if disk_ok then
      (None,
       mkSegment (seg_id s) (seg_file s ++ frame data)
         (seg_size s + (8 + Z.of_nat (length data)))
         (seg_maxSize s) (seg_fsync s) (seg_readOnly s))
    else (Some (Errorf "failed to flush" (errors_New "write error")), s).

Definition IsFull (s : Segment) : bool :=
  bool_decide (seg_size s >= seg_maxSize s).

(** [SegmentReader]: the bytes of the file not read yet, and the count of
    bytes consumed by complete records. *)
Record SegmentReader : Type := mkSegmentReader {
  rd_unread : list byte;
  rd_offset : Z
}.

Definition NewSegmentReader (s : Segment) : SegmentReader :=
  mkSegmentReader (seg_file s) 0.

(** [io.ReadFull(r, buf)] with [len(buf) = n]: [io.EOF] when nothing could
    be read, [io.ErrUnexpectedEOF] when the input ends part of the way. *)
Definition ReadFull (n : nat) (unread : list byte)
    : (error + list byte) * list byte :=
  if decide (n = 0%nat) then (inr [], unread)
  else if decide (length unread = 0%nat) then (inl io_EOF, unread)
  else if decide (length unread < n)%nat then (inl io_ErrUnexpectedEOF, [])
  else (inr (take n unread), drop n unread).

(** [SegmentReader.Read] *)
Definition Read (sr : SegmentReader) : (error + Record_) * SegmentReader :=
  match ReadFull 4 (rd_unread sr) with
  | (inl err, u) =>
      if decide (err = io_EOF)
      then (inl io_EOF, mkSegmentReader u (rd_offset sr))
      else (inl (Errorf "failed to read length" err),
            mkSegmentReader u (rd_offset sr))
  | (inr lenBuf, u) =>
      let length := LittleEndian.Uint32 lenBuf in
      match ReadFull 4 u with
      | (inl err, u) =>
          (inl (Errorf "failed to read checksum" err),
           mkSegmentReader u (rd_offset sr))
      | (inr crcBuf, u) =>
          let expectedCRC := LittleEndian.Uint32 crcBuf in
          match ReadFull (Z.to_nat length) u with
          | (inl err, u) =>
              (inl (Errorf "failed to read data" err),
               mkSegmentReader u (rd_offset sr))
          | (inr data, u) =>
              if negb (util.VerifyChecksum data expectedCRC)
              then (inl ErrCorruptedData, mkSegmentReader u (rd_offset sr))
              else
                match Unmarshal data with
                | inl err =>
                    (inl (Errorf "failed to unmarshal record" err),
                     mkSegmentReader u (rd_offset sr))
                | inr record =>
                    (inr record,
                     mkSegmentReader u (rd_offset sr + (8 + length)))
                end
          end
      end
  end.

(** *** The log

    [WAL.segments] always ends with [WAL.activeSegment] (the same pointer):
    [New], [createSegment] and [Compact] all keep it so.  The record keeps
    the active segment apart from the older ones. *)
Record WAL : Type := mkWAL {
  older : list Segment;
  activeSegment : Segment;
  nextSegmentID : Z;
  segmentSize : Z;
  fsync : bool
}.

Definition segments (w : WAL) : list Segment := older w ++ [activeSegment w].

Definition DefaultSegmentSize : Z := 64 * 1024 * 1024.

(** [NewSegment] for an id that has no file yet. *)
Definition NewSegment (id maxSize : Z) (fsync : bool) : Segment :=
  mkSegment id [] 0 maxSize fsync false.

(** [New] on an empty directory. *)
Definition New (cfgSegmentSize : Z) (cfgFsync : bool) : WAL :=
  let segmentSize :=
    if decide (cfgSegmentSize = 0) then DefaultSegmentSize else cfgSegmentSize in
  mkWAL [] (NewSegment 0 segmentSize cfgFsync) 1 segmentSize cfgFsync.

Definition createSegment (disk_ok : bool) (w : WAL) : option error * WAL :=
  if disk_ok then
    (None,
     mkWAL (older w ++ [activeSegment w])
       (NewSegment (nextSegmentID w) (segmentSize w) (fsync w))
       (uint64 (nextSegmentID w + 1)) (segmentSize w) (fsync w))
  else (Some (Errorf "failed to open segment file" (errors_New "open error")), w).

Definition withActive (w : WAL) (s : Segment) : WAL :=
  mkWAL (older w) s (nextSegmentID w) (segmentSize w) (fsync w).

(** [WAL.Write] *)
Definition Write (disk_ok : bool) (w : WAL) (record : Record_)
    : option error * WAL :=
  match
    (if IsFull (activeSegment w) then createSegment disk_ok w else (None, w))
  with
  | (Some err, w) => (Some (Errorf "failed to create new segment" err), w)
  | (None, w) =>
      match Segment_Write disk_ok (activeSegment w) record with
      | (Some err, s) =>
          (Some (Errorf "failed to write to segment" err), withActive w s)
      | (None, s) => (None, withActive w s)
      end
  end.

(** [New] on a directory that holds segment files already: [dir] maps
    the id in the name of a segment file to the content of the file.
    [loadSegments] sorts the ids, opens each file with [NewSegment],
    which takes the size from the file, makes the last segment the
    active one and continues the ids after it. *)
Definition Dir : Type := gmap Z (list byte).

Definition openSegment (id : Z) (file : list byte) (maxSize : Z)
    (fsync : bool) : Segment :=
  mkSegment id file (Z.of_nat (length file)) maxSize fsync false.

Definition sortedIDs (dir : Dir) : list Z :=
  merge_sort Z.le (map_to_list dir).*1.

Definition NewIn (dir : Dir) (cfgSegmentSize : Z) (cfgFsync : bool) : WAL :=
  let segmentSize :=
    if decide (cfgSegmentSize = 0) then DefaultSegmentSize else cfgSegmentSize in
  let segs :=
    omap (λ id, (λ file, openSegment id file segmentSize cfgFsync) <$> dir !! id)
      (sortedIDs dir) in
  match last segs with
  | None => New cfgSegmentSize cfgFsync
  | Some active =>
      mkWAL (removelast segs) active (uint64 (seg_id active + 1)) segmentSize
        cfgFsync
  end.

(** The directory a log leaves behind: the files of its segments. *)
Definition dirOf (w : WAL) : Dir :=
  list_to_map ((λ s, (seg_id s, seg_file s)) <$> segments w).

(** [Segment.Size], [WAL.SegmentCount] and [WAL.TotalSize]; the total
    is an [int64]. *)
Definition Size (s : Segment) : Z := seg_size s.

Definition SegmentCount (w : WAL) : Z := Z.of_nat (length (segments w)).

Definition TotalSize (w : WAL) : Z :=
  foldl (λ total seg, int64 (total + Size seg)) 0 (segments w).

(** [WAL.Compact].  [compactSegment] is the inner [for] loop over the
    reader of one older segment, writing to the temporary segment the
    ENQUEUE records of the jobs that [activeJobIDs] maps to true;
    [compactSegments] is the loop over the older segments.  A read error
    and a write error end the call with that error.  The temporary
    segment is the file of the next segment id, which [NewSegment] finds
    empty; when it has taken records, the same file is opened again as
    the compacted segment, placed before the active one.  Only the log
    in memory is modelled: the files of the older segments are removed,
    and after an error the temporary file stays behind. *)
Fixpoint compactSegment (fuel : nat) (disk_ok : bool)
    (activeJobIDs : gmap string bool) (reader : SegmentReader)
    (temp : Segment) : option (option error * Segment) :=
  match fuel with
  | O => None
  | S fuel =>
      match Read reader with
      | (inl err, _) =>
          if decide (err = io_EOF) then Some (None, temp)
          else if decide (err = ErrCorruptedData) then Some (None, temp)
          else Some (Some err, temp)
      | (inr record, reader) =>
          if decide (Type_ record = RecordTypeEnqueue
                     ∧ activeJobIDs !! JobID record = Some true)
          then
            match Segment_Write disk_ok temp record with
            | (Some err, temp) => Some (Some err, temp)
            | (None, temp) =>
                compactSegment fuel disk_ok activeJobIDs reader temp
            end
          else compactSegment fuel disk_ok activeJobIDs reader temp
      end
  end.

Fixpoint compactSegments (disk_ok : bool) (activeJobIDs : gmap string bool)
    (segs : list Segment) (temp : Segment) : option (option error * Segment) :=
  match segs with
  | [] => Some (None, temp)
  | segment :: segs =>
      match
        compactSegment (S (length (seg_file segment))) disk_ok activeJobIDs
          (NewSegmentReader segment) temp
      with
      | None => None
      | Some (Some err, temp) => Some (Some err, temp)
      | Some (None, temp) => compactSegments disk_ok activeJobIDs segs temp
      end
  end.

Definition Compact (disk_ok : bool) (w : WAL)
    (activeJobIDs : gmap string bool) : option (option error * WAL) :=
  if decide (length (segments w) ≤ 1)%nat then Some (None, w)
  else if negb disk_ok then
    Some (Some (Errorf "failed to create compaction segment"
                  (Errorf "failed to open segment file"
                     (errors_New "open error"))), w)
  else
    let tempSegment := NewSegment (nextSegmentID w) (segmentSize w) (fsync w) in
    match compactSegments disk_ok activeJobIDs (older w) tempSegment with
    | None => None
    | Some (Some err, _) => Some (Some err, w)
    | Some (None, tempSegment) =>
        if decide (Size tempSegment > 0) then
          Some (None,
                mkWAL
                  [openSegment (nextSegmentID w) (seg_file tempSegment)
                     (segmentSize w) (fsync w)]
                  (activeSegment w) (uint64 (nextSegmentID w + 1))
                  (segmentSize w) (fsync w))
        else
          Some (None,
                mkWAL [] (activeSegment w) (nextSegmentID w) (segmentSize w)
                  (fsync w))
    end.

(** [WAL.Replay].  The callback works on a state of type [St]; it may
    return an error, and it may panic ([None]), which ends the replay
    there.  [readSegment] is the inner [for] loop over one reader; a
    successful [Read] takes at least eight bytes, so the length of the
    file bounds the number of rounds. *)
Definition Callback (St : Type) : Type :=
  Record_ → St → option (option error * St).

Fixpoint readSegment {St : Type} (fuel : nat) (callback : Callback St)
    (reader : SegmentReader) (st : St) : option (option error * St) :=
  match fuel with
  | O => None
  | S fuel =>
      match Read reader with
      | (inl err, _) =>
          if decide (err = io_EOF) then Some (None, st)
          else if decide (err = ErrCorruptedData) then Some (None, st)
          else Some (Some (Errorf "failed to read from segment" err), st)
      | (inr record, reader) =>
          match callback record st with
          | None => None
          | Some (Some err, st) =>
              Some (Some (Errorf "callback failed" err), st)
          | Some (None, st) => readSegment fuel callback reader st
          end
      end
  end.

Fixpoint replaySegments {St : Type} (callback : Callback St)
    (segs : list Segment) (st : St) : option (option error * St) :=
  match segs with
  | [] => Some (None, st)
  | segment :: segs =>
      match
        readSegment (S (length (seg_file segment))) callback
          (NewSegmentReader segment) st
      with
      | None => None
      | Some (Some err, st) => Some (Some err, st)
      | Some (None, st) => replaySegments callback segs st
      end
  end.

Definition Replay {St : Type} (callback : Callback St) (w : WAL) (st : St)
    : option (option error * St) :=
  replaySegments callback (segments w) st.

(** Handing a list of records to the callback, stopping at its first
    error: what a replay does with the records it reads. *)
Fixpoint deliver {St : Type} (callback : Callback St)
    (records : list Record_) (st : St) : option (option error * St) :=
  match records with
  | [] => Some (None, st)
  | record :: records =>
      match callback record st with
      | None => None
      | Some (Some err, st) => Some (Some err, st)
      | Some (None, st) => deliver callback records st
      end
  end.

(** A frame as [Segment.Write] lays it out, but with [crc] in the
    checksum field. *)
Definition frameWith (crc : Z) (data : list byte) : list byte :=
  LittleEndian.PutUint32 (uint32 (Z.of_nat (length data)))
  ++ LittleEndian.PutUint32 crc
  ++ data.

(** [decodes data record]: [data] is the body of a frame that reads back
    as [record]. *)
Definition decodes (data : list byte) (record : Record_) : Prop :=
  Z.of_nat (length data) < 4294967296 ∧ Unmarshal data = inr record.

(** *** What the wire format can carry

    The layout has two-byte lengths for strings and for the number of
    headers, a four-byte length for the payload, and the scheduled time
    in whole milliseconds.  [sized] says that the variable-length parts
    of a record fit those prefixes. *)
Definition fits16 (s : string) : Prop := Z.of_nat (String.length s) < 65536.

Definition sized (r : Record_) : Prop :=
  fits16 (Queue r) ∧ fits16 (JobID r) ∧ fits16 (LeaseID r) ∧ fits16 (Reason r)
  ∧ Z.of_nat (length (Payload r)) < 4294967296
  ∧ Z.of_nat (size (Headers r)) < 65536
  ∧ Forall (λ kv, fits16 kv.1 ∧ fits16 kv.2) (map_to_list (Headers r)).

(** The numeric fields hold values of their Go types. *)
Definition typed (r : Record_) : Prop :=
  0 ≤ Type_ r < 256 ∧ 0 ≤ Priority r < 256
  ∧ 0 ≤ Tries r < 4294967296 ∧ 0 ≤ MaxRetries r < 4294967296.

(** An instant that is a whole number of milliseconds, within the range
    of an [int64] count of milliseconds. *)
Definition wholeMillis (t : time.Time) : Prop :=
  t `mod` 1000000 = 0 ∧ - 2 ^ 63 ≤ t `div` 1000000 < 2 ^ 63.

(** What is left of a record once it has been through the wire. *)
Definition wire (r : Record_) : Record_ :=
  mkRecord (uint8 (Type_ r)) (Queue r) (JobID r) (Payload r) (Headers r)
    (uint8 (Priority r)) (uint32 (Tries r)) (uint32 (MaxRetries r))
    (time.ofUnixMilli (time.UnixMilli (ETA r))) (LeaseID r) (Reason r).

Definition withType (ty : RecordType) (r : Record_) : Record_ :=
  mkRecord ty (Queue r) (JobID r) (Payload r) (Headers r) (Priority r)
    (Tries r) (MaxRetries r) (ETA r) (LeaseID r) (Reason r).

(** *** Sample records and logs *)

Definition sampleRecord : Record_ :=
  mkRecord RecordTypeEnqueue "emails" "job-1"
    (list_byte_of_string "{}") {[ "trace" := "abc"; "k" := "v" ]}%string
    7 2 5 1700000000123000000 "lease-456" "test reason".

(** [sampleRecord] scheduled one nanosecond later. *)
Definition subMilliRecord : Record_ :=
  mkRecord RecordTypeEnqueue "emails" "job-1"
    (list_byte_of_string "{}") {[ "trace" := "abc"; "k" := "v" ]}%string
    7 2 5 1700000000123000001 "lease-456" "test reason".

(** [sampleRecord] with a type byte that names no record type. *)
Definition unknownTypeRecord : Record_ := withType 9 sampleRecord.

Definition secondRecord : Record_ :=
  mkRecord RecordTypeEnqueue "emails" "job-2" [] ∅ 3 0 3
    1700000000456000000 "" "".

(** A callback that keeps the records it is given, in order. *)
Definition collect : Callback (list Record_) :=
  λ record st, Some (None, st ++ [record]).

(** A callback that refuses every record. *)
Definition refuse : Callback (list Record_) :=
  λ record st, Some (Some (errors_New "refused"), st).

(** A log of two segments.  The first holds one whole frame and then the
    first three bytes of another, as a crash in the middle of a write
    leaves it; the second holds one frame. *)
Definition tornLog : WAL :=
  mkWAL
    [mkSegment 0
       (frame (Marshal sampleRecord) ++ take 3 (frame (Marshal secondRecord)))
       0 1024 false false]
    (mkSegment 1 (frame (Marshal secondRecord)) 0 1024 false false)
    2 1024 false.

(** The same log, but the second frame of the first segment is whole and
    carries a wrong checksum, and more bytes follow it. *)
Definition corruptLog : WAL :=
  mkWAL
    [mkSegment 0
       (frame (Marshal sampleRecord)
        ++ frameWith 0 (Marshal secondRecord)
        ++ frame (Marshal secondRecord))
       0 1024 false false]
    (mkSegment 1 (frame (Marshal secondRecord)) 0 1024 false false)
    2 1024 false.

(** *** Notions used to reason about the parser *)

(** [parses p enc a]: placed anywhere in a buffer, [enc] makes [p] return
    [a] and advance by the length of [enc]. *)
Definition parses {A} (p : Parser A) (enc : list byte) (a : A) : Prop :=
  ∀ pre post,
    p (pre ++ enc ++ post) (length pre)
    = inr (a, (length pre + length enc)%nat).

(** The map the header loop builds from the entries in wire order. *)
Definition assignAll (m : gmap string string) (l : list (string * string))
    : gmap string string :=
  foldl (λ m kv, <[kv.1 := kv.2]> m) m l.

(** *** Truncation

    A parser is [local] when a successful run has stayed inside the
    buffer and has looked at nothing beyond its final offset. *)
Definition local {A} (p : Parser A) : Prop :=
  ∀ data offset a offset',
    (offset ≤ length data)%nat →
    p data offset = inr (a, offset') →
    (offset ≤ offset' ≤ length data)%nat
    ∧ ∀ data', take offset' data' = take offset' data →
        p data' offset = inr (a, offset').

Definition onlyInvalid {A} (p : Parser A) : Prop :=
  ∀ data offset e, p data offset = inl e → e = ErrInvalidRecord.

(** *** The type byte

    Everything after the first read starts at offset 1 or later and so
    cannot see the first byte of the buffer. *)
Definition blind {A} (p : Parser A) : Prop :=
  ∀ t t' rest offset,
    p (t :: rest) (S offset) = p (t' :: rest) (S offset)
    ∧ ∀ a offset', p (t :: rest) (S offset) = inr (a, offset') →
        ∃ k, offset' = S k.

(** [parseRecord] after its first step, for a type byte already read. *)
Definition parseBody (ty : RecordType) : Parser Record_ :=
  let! queue := getString in
  let! jobID := getString in
  let! priority := getByte in
  let! tries := getUint32 in
  let! maxRetries := getUint32 in
  let! etaMs := getUint64 in
  let! payloadLen := getUint32 in
  let! payload := getBytes (Z.to_nat payloadLen) in
  let! headersCount := getUint16 in
  let! headers := getHeaders (Z.to_nat headersCount) ∅ in
  let! leaseID := getString in
  let! reason := getString in
  pret (mkRecord ty queue jobID payload headers priority tries maxRetries
          (time.ofUnixMilli (int64 etaMs)) leaseID reason).

Definition pmap {A B} (g : A → B) (p : Parser A) : Parser B :=
  λ data offset,
    match p data offset with
    | inl e => inl e
    | inr (a, offset') => inr (g a, offset')
    end.

Definition frames (bodies : list (list byte)) : list byte :=
  flat_map frame bodies.

(** Every successful run of the parser moves the offset forward by at
    least [k]. *)
Definition advances {A} (p : Parser A) (k : nat) : Prop :=
  ∀ data offset a offset',
    p data offset = inr (a, offset') → (offset + k ≤ offset')%nat.

(** Every result of a successful run of the parser has the property
    [P]. *)
Definition yields {A} (p : Parser A) (P : A → Prop) : Prop :=
  ∀ data offset a offset', p data offset = inr (a, offset') → P a.

(** The states of a log that successful calls of [Write] lead to from
    [w0], with the records written, oldest first. *)
Inductive appended (w0 : WAL) : WAL → list Record_ → Prop :=
| appended_nil : appended w0 w0 []
| appended_Write w records record w' :
    appended w0 w records →
    Write true w record = (None, w') →
    appended w0 w' (records ++ [record]).

(** A log all of whose segments are sequences of whole frames that read
    back as [records]. *)
Definition logged (w : WAL) (records : list Record_) : Prop :=
  ∃ bodies,
    Forall2 (λ seg bs, seg_file seg = frames bs) (segments w) bodies
    ∧ Forall2 decodes (concat bodies) records.

(** The records [Compact] keeps. *)
Definition kept (activeJobIDs : gmap string bool) (records : list Record_)
    : list Record_ :=
  filter (λ r, Type_ r = RecordTypeEnqueue
               ∧ activeJobIDs !! JobID r = Some true) records.

(** A record that [Segment.Write] can frame: its fields fit their length
    prefixes and its bytes fit the four-byte length of the frame. *)
Definition framable (r : Record_) : Prop :=
  sized r ∧ Z.of_nat (length (Marshal r)) < 4294967296.

(** A log with segments of 64 bytes after one write and after two: the
    second write finds the first segment full and opens another. *)
Definition smallLog : WAL := New 64 false.
Definition afterOne : WAL := (Write true smallLog subMilliRecord).2.
Definition afterTwo : WAL := (Write true afterOne secondRecord).2.

End wal.

(** ** package queue *)

Module queue.

(** *** Jobs *)

Inductive JobStatus : Type := JobStatusReady | JobStatusInflight | JobStatusDLQ.

Global Instance JobStatus_eq_dec : EqDecision JobStatus.
Proof. solve_decision. Defined.

(** [type Job struct]; [Job_Queue] is the field [Queue]. *)
Record Job : Type := mkJob {
  ID : string;
  Job_Queue : string;
  Payload : list byte;
  Headers : gmap string string;
  Priority : Z;
  Tries : Z;
  MaxRetries : Z;
  ETA : time.Time;
  LeaseID : string;
  LeaseDeadline : time.Time;
  Status : JobStatus;
  EnqueuedAt : time.Time
}.

Record RetryPolicy : Type := mkRetryPolicy {
  rp_MaxRetries : Z;
  rp_BaseDelay : time.Duration;
  rp_MaxDelay : time.Duration
}.

Definition DefaultRetryPolicy : RetryPolicy :=
  mkRetryPolicy 3 (100 * time.Millisecond) (60 * 1000 * time.Millisecond).

Definition IsReady (j : Job) (now : time.Time) : bool :=
  bool_decide (Status j = JobStatusReady)
  && (time.IsZero (ETA j) || time.Before (ETA j) now || time.Equal (ETA j) now).

Definition ShouldRetry (j : Job) : bool :=
  bool_decide (Tries j < MaxRetries j).

(** *** The heap of a queue

    [jobHeap] is a slice of pointers to [jobHeapItem]s, and the map
    [priorityQueue.items] points to the same items.  [cells] is the memory
    that holds the items, [slice] the slice of the heap; a [loc] is a
    pointer.  A function returns [None] where the Go code panics (an
    index out of range) or where a loop is out of fuel. *)
Definition loc := nat.

Record jobHeapItem : Type := mkItem {
  job : Job;
  index : Z
}.

Record jobHeap : Type := mkHeap {
  cells : gmap loc jobHeapItem;
  slice : list loc
}.

(** The body of [jobHeap.Less] on the two jobs it compares. *)
Definition jobLess (a b : Job) : bool :=
  if negb (bool_decide (Priority a = Priority b))
  then bool_decide (Priority a > Priority b)
  else if negb (time.Equal (ETA a) (ETA b))
  then time.Before (ETA a) (ETA b)
  else time.Before (EnqueuedAt a) (EnqueuedAt b).

(** [item.index = i] through the pointer [l]. *)
Definition setIndex (l : loc) (i : Z) (m : gmap loc jobHeapItem)
    : gmap loc jobHeapItem :=
  alter (λ it, mkItem (job it) i) l m.

Module JobHeap.

(** [h[i]], dereferenced. *)
Definition item (h : jobHeap) (i : nat) : option jobHeapItem :=
  l ← slice h !! i; cells h !! l.

Definition Len (h : jobHeap) : nat := length (slice h).

Definition Less (h : jobHeap) (i j : nat) : option bool :=
  a ← item h i; b ← item h j; Some (jobLess (job a) (job b)).

(** [h[i], h[j] = h[j], h[i]; h[i].index = i; h[j].index = j] *)
Definition Swap (h : jobHeap) (i j : nat) : option jobHeap :=
  li ← slice h !! i;
  lj ← slice h !! j;
  Some (mkHeap (setIndex li (Z.of_nat j) (setIndex lj (Z.of_nat i) (cells h)))
          (<[j := li]> (<[i := lj]> (slice h)))).

(** [jobHeap.Push]: the item gets the old length as its index and is
    appended to the slice. *)
Definition Push (h : jobHeap) (x : loc) : jobHeap :=
  mkHeap (setIndex x (Z.of_nat (Len h)) (cells h)) (slice h ++ [x]).

(** [jobHeap.Pop]: [item := old[n-1]; item.index = -1], and the slice
    becomes [old[0 : n-1]]. *)
Definition Pop (h : jobHeap) : option (loc * jobHeap) :=
  match Len h with
  | O => None
  | S n =>
      x ← slice h !! n;
      Some (x, mkHeap (setIndex x (-1) (cells h)) (take n (slice h)))
  end.

End JobHeap.

(** Go's [container/heap] over a [jobHeap].  Positions are natural
    numbers: the parent [(j - 1) / 2] of position 0 is 0 in Go (the
    division truncates towards zero) as it is here. *)
Module Heap.

Fixpoint up_loop (fuel : nat) (h : jobHeap) (j : nat) : option jobHeap :=
  match fuel with
  | O => None
  | S fuel =>
      let i := ((j - 1) / 2)%nat in
      if decide (i = j) then Some h
      else
        less ← JobHeap.Less h j i;
        if negb less then Some h
        else h ← JobHeap.Swap h i j; up_loop fuel h i
  end.

(** [up(h, j)]: the position at least halves in every round. *)
Definition up (h : jobHeap) (j : nat) : option jobHeap := up_loop (S j) h j.

(** The loop of [down]; the result carries the final position [i]. *)
Fixpoint down_loop (fuel : nat) (h : jobHeap) (i n : nat)
    : option (jobHeap * nat) :=
  match fuel with
  | O => None
  | S fuel =>
      let j1 := (2 * i + 1)%nat in
      if decide (n ≤ j1)%nat then Some (h, i)
      else
        right_first ←
          (if decide (j1 + 1 < n)%nat then JobHeap.Less h (j1 + 1) j1
           else Some false);
        let j := if right_first : bool then (j1 + 1)%nat else j1 in
        less ← JobHeap.Less h j i;
        if negb less then Some (h, i)
        else h ← JobHeap.Swap h i j; down_loop fuel h j n
  end.

(** [down(h, i0, n)] returns [i > i0]; the position grows in every
    round and stays below [n]. *)
Definition down (h : jobHeap) (i0 n : nat) : option (jobHeap * bool) :=
  '(h, i) ← down_loop (S (n - i0)) h i0 n;
  Some (h, bool_decide (i0 < i)%nat).

(** [for i := n/2 - 1; i >= 0; i-- { down(h, i, n) }] *)
Definition Init (h : jobHeap) : option jobHeap :=
  let n := JobHeap.Len h in
  foldl (λ acc i, h ← acc; '(h, _) ← down h i n; Some h) (Some h)
    (reverse (seq 0 (n / 2))).

Definition Push (h : jobHeap) (x : loc) : option jobHeap :=
  let h := JobHeap.Push h x in
  up h (JobHeap.Len h - 1).

(** [n := h.Len() - 1; h.Swap(0, n); down(h, 0, n); return h.Pop()].  On
    an empty heap [n] is [-1] and [Swap] panics. *)
Definition Pop (h : jobHeap) : option (loc * jobHeap) :=
  match JobHeap.Len h with
  | O => None
  | S n =>
      h ← JobHeap.Swap h 0 n;
      '(h, _) ← down h 0 n;
      JobHeap.Pop h
  end.

(** [heap.Remove(h, i)] with the [int] index [i] as the caller read it
    from an item. *)
Definition Remove (h : jobHeap) (i : Z) : option (loc * jobHeap) :=
  let n := Z.of_nat (JobHeap.Len h) - 1 in
  h ← (if decide (n ≠ i) then
         if decide (i < 0 ∨ n < 0) then None
         else
           h ← JobHeap.Swap h (Z.to_nat i) (Z.to_nat n);
           '(h, moved) ← down h (Z.to_nat i) (Z.to_nat n);
           if negb moved then up h (Z.to_nat i) else Some h
       else Some h);
  JobHeap.Pop h.

End Heap.

(** *** priorityQueue

    [next] is the address the next [&jobHeapItem{...}] gets. *)
Record priorityQueue : Type := mkPQ {
  heap : jobHeap;
  items : gmap string loc;
  next : loc
}.

(** [heap.Init] on the empty heap has nothing to do. *)
Definition newPriorityQueue : priorityQueue := mkPQ (mkHeap ∅ []) ∅ 0%nat.

Module PQ.

(** [priorityQueue.Push] *)
Definition Push (pq : priorityQueue) (j : Job) : option priorityQueue :=
  match items pq !! ID j with
  | Some _ => Some pq
  | None =>
      let item := next pq in
      let h := mkHeap (<[item := mkItem j 0]> (cells (heap pq)))
                 (slice (heap pq)) in
      let items := <[ID j := item]> (items pq) in
      h ← Heap.Push h item;
      Some (mkPQ h items (S item))
  end.

(** [priorityQueue.Pop]; the inner [option] is the [*Job], nil or not. *)
Definition Pop (pq : priorityQueue) : option (option Job * priorityQueue) :=
  if decide (JobHeap.Len (heap pq) = 0%nat) then Some (None, pq)
  else
    '(item, h) ← Heap.Pop (heap pq);
    it ← cells h !! item;
    Some (Some (job it), mkPQ h (delete (ID (job it)) (items pq)) (next pq)).

Definition Peek (pq : priorityQueue) : option (option Job) :=
  if decide (JobHeap.Len (heap pq) = 0%nat) then Some None
  else it ← JobHeap.item (heap pq) 0; Some (Some (job it)).

Definition Remove (pq : priorityQueue) (jobID : string)
    : option (option Job * priorityQueue) :=
  match items pq !! jobID with
  | None => Some (None, pq)
  | Some item =>
      it ← cells (heap pq) !! item;
      '(_, h) ← Heap.Remove (heap pq) (index it);
      it ← cells h !! item;
      Some (Some (job it), mkPQ h (delete jobID (items pq)) (next pq))
  end.

Definition Len (pq : priorityQueue) : nat := JobHeap.Len (heap pq).

Definition PeekReady (pq : priorityQueue) (now : time.Time)
    : option (option Job) :=
  if decide (JobHeap.Len (heap pq) = 0%nat) then Some None
  else
    it ← JobHeap.item (heap pq) 0;
    if IsReady (job it) now then Some (Some (job it)) else Some None.

Definition PopReady (pq : priorityQueue) (now : time.Time)
    : option (option Job * priorityQueue) :=
  if decide (JobHeap.Len (heap pq) = 0%nat) then Some (None, pq)
  else
    it ← JobHeap.item (heap pq) 0;
    if negb (IsReady (job it) now) then Some (None, pq)
    else Pop pq.

End PQ.

(** *** Queue and Manager

    [Queue.store] and [Queue.wal] are the manager's; [Queue.limiter] is
    never consulted.  [rateLimiter] keeps which queues have a token
    bucket; what a bucket answers depends on the clock and on floating
    point state and is an input ([bucket_ok]). *)
Record Queue : Type := mkQueue {
  name : string;
  ready : priorityQueue;
  inflight : gmap string Job;
  dlq : gmap string Job
}.

Record Manager : Type := mkManager {
  queues : gmap string Queue;
  store : gmap string string;
  m_wal : wal.WAL;
  rateLimiter : gset string
}.

(** What a call takes from outside the program: the clock (successive
    readings within one call are one instant), the identifiers
    [uuid.New().String()] hands out one after the other, the answer of a
    configured token bucket, whether the key-value store and the disk
    work, and [backoff.CalculateDefault] with its random jitter. *)
Record Env : Type := mkEnv {
  now : time.Time;
  uuid : nat → string;
  bucket_ok : bool;
  store_ok : bool;
  disk_ok : bool;
  backoff : Z → time.Duration
}.

Definition NewManager (w : wal.WAL) : Manager := mkManager ∅ ∅ w ∅.

(** The queue under [key] replaced: what an assignment through the
    pointer [m.queues[key]] amounts to. *)
Definition withQueue (m : Manager) (key : string) (q : Queue) : Manager :=
  mkManager (<[key := q]> (queues m)) (store m) (m_wal m) (rateLimiter m).

Definition withWAL (m : Manager) (w : wal.WAL) : Manager :=
  mkManager (queues m) (store m) w (rateLimiter m).

Definition withReady (q : Queue) (pq : priorityQueue) : Queue :=
  mkQueue (name q) pq (inflight q) (dlq q).

Definition withInflight (q : Queue) (i : gmap string Job) : Queue :=
  mkQueue (name q) (ready q) i (dlq q).

Definition withDlq (q : Queue) (d : gmap string Job) : Queue :=
  mkQueue (name q) (ready q) (inflight q) d.

Definition getOrCreateQueue (m : Manager) (queueName : string)
    : Queue * Manager :=
  match queues m !! queueName with
  | Some queue => (queue, m)
  | None =>
      let queue := mkQueue queueName newPriorityQueue ∅ ∅ in
      (queue, withQueue m queueName queue)
  end.

Definition getQueue (m : Manager) (queueName : string) : option Queue :=
  queues m !! queueName.

(** [Limiter.Allow] *)
Definition Allow (env : Env) (m : Manager) (queueName : string) : bool :=
  if decide (queueName ∈ rateLimiter m) then bucket_ok env else true.

Definition idempotencyKeyOf (key : string) : string :=
  ("idempotency:" ++ key)%string.

(** [Store.GetIdempotencyKey]: the empty string for a key that is not
    there. *)
Definition GetIdempotencyKey (m : Manager) (key : string) : string :=
  default ""%string (store m !! idempotencyKeyOf key).

Definition storeError : error := errors_New "pebble: error".

(** [Manager.Enqueue] *)
Definition Enqueue (env : Env) (m : Manager) (queueName : string)
    (payload : list byte) (headers : gmap string string) (priority : Z)
    (delayMs : Z) (retryPolicy : RetryPolicy) (idempotencyKey : string)
    : option ((string * option error) * Manager) :=
  let existing :=
    if decide (idempotencyKey ≠ ""%string) then
      if store_ok env then inr (GetIdempotencyKey m idempotencyKey)
      else inl (Errorf "failed to check idempotency key" storeError)
    else inr ""%string in
  match existing with
  | inl err => Some ((""%string, Some err), m)
  | inr existingJobID =>
      if decide (existingJobID ≠ ""%string)
      then Some ((existingJobID, None), m)
      else if negb (Allow env m queueName)
      then Some ((""%string,
                  Some (errors_New "rate limit exceeded for queue")), m)
      else
        let '(queue, m) := getOrCreateQueue m queueName in
        let jobID := uuid env 0 in
        let eta :=
          if decide (delayMs > 0)
          then time.Add (now env) (int64 (delayMs * time.Millisecond))
          else now env in
        let j :=
          mkJob jobID queueName payload headers priority 0
            (rp_MaxRetries retryPolicy) eta ""%string time.zero
            JobStatusReady (now env) in
        let record :=
          wal.mkRecord wal.RecordTypeEnqueue queueName jobID payload headers
            priority 0 (rp_MaxRetries retryPolicy) eta ""%string ""%string in
        match wal.Write (disk_ok env) (m_wal m) record with
        | (Some err, w) =>
            Some ((""%string, Some (Errorf "failed to write to WAL" err)),
                  withWAL m w)
        | (None, w) =>
            let m := withWAL m w in
            let m :=
              if decide (idempotencyKey ≠ ""%string) then
                if store_ok env then
                  mkManager (queues m)
                    (<[idempotencyKeyOf idempotencyKey := jobID]> (store m))
                    (m_wal m) (rateLimiter m)
                else m
              else m in
            pq ← PQ.Push (ready queue) j;
            Some ((jobID, None), withQueue m queueName (withReady queue pq))
        end
  end.

(** The loop of [Lease]: round [i] of [maxJobs]. *)
Fixpoint leaseLoop (rounds : nat) (i : nat) (env : Env)
    (leaseDeadline : time.Time) (queue : Queue) (leased : list Job)
    : option (list Job * Queue) :=
  match rounds with
  | O => Some (leased, queue)
  | S rounds =>
      '(popped, pq) ← PQ.PopReady (ready queue) (now env);
      match popped with
      | None => Some (leased, queue)
      | Some j =>
          let j :=
            mkJob (ID j) (Job_Queue j) (Payload j) (Headers j) (Priority j)
              (Tries j) (MaxRetries j) (ETA j) (uuid env i) leaseDeadline
              JobStatusInflight (EnqueuedAt j) in
          leaseLoop rounds (S i) env leaseDeadline
            (mkQueue (name queue) pq (<[ID j := j]> (inflight queue))
               (dlq queue))
            (leased ++ [j])
      end
  end.

(** [Manager.Lease] *)
Definition Lease (env : Env) (m : Manager) (queueName : string)
    (maxJobs : Z) (visibilityMs : Z)
    : option ((list Job * option error) * Manager) :=
  match getQueue m queueName with
  | None => Some (([], Some (errors_New "queue not found")), m)
  | Some queue =>
      let maxJobs := if decide (maxJobs ≤ 0) then 1 else maxJobs in
      let visibilityTimeout := int64 (visibilityMs * time.Millisecond) in
      let leaseDeadline := time.Add (now env) visibilityTimeout in
      '(leased, queue) ←
        leaseLoop (Z.to_nat maxJobs) 0 env leaseDeadline queue [];
      Some ((leased, None), withQueue m queueName queue)
  end.

(** The search loop of [Ack] and [Nack]: the first queue, in the order
    [range m.queues] yields them, that has the job in flight.  Go leaves
    that order open; here it is the order of [map_to_list]. *)
Definition findInflight (m : Manager) (jobID : string)
    : option (string * Queue * Job) :=
  head (omap (λ kq, (λ j, (kq.1, kq.2, j)) <$> inflight kq.2 !! jobID)
          (map_to_list (queues m))).

(** [Manager.Ack] *)
Definition Ack (env : Env) (m : Manager) (jobID leaseID : string)
    : option error * Manager :=
  match findInflight m jobID with
  | None => (Some (errors_New "job not found or not inflight"), m)
  | Some (key, queue, j) =>
      if decide (LeaseID j ≠ leaseID)
      then (Some (errors_New "invalid lease ID"), m)
      else
        let record :=
          wal.mkRecord wal.RecordTypeAck (Job_Queue j) jobID [] ∅ 0 0 0
            time.zero leaseID ""%string in
        match wal.Write (disk_ok env) (m_wal m) record with
        | (Some err, w) =>
            (Some (Errorf "failed to write to WAL" err), withWAL m w)
        | (None, w) =>
            (None,
             withQueue (withWAL m w) key
               (withInflight queue (delete jobID (inflight queue))))
        end
  end.

(** The first half of [Nack] and of the reclaimer: [job.Tries++], the new
    [ETA], the lease cleared. *)
Definition retried (env : Env) (j : Job) : Job :=
  let tries := uint32 (Tries j + 1) in
  mkJob (ID j) (Job_Queue j) (Payload j) (Headers j) (Priority j) tries
    (MaxRetries j) (time.Add (now env) (backoff env tries)) ""%string
    time.zero (Status j) (EnqueuedAt j).

Definition withStatus (j : Job) (s : JobStatus) : Job :=
  mkJob (ID j) (Job_Queue j) (Payload j) (Headers j) (Priority j) (Tries j)
    (MaxRetries j) (ETA j) (LeaseID j) (LeaseDeadline j) s (EnqueuedAt j).

(** [Manager.Nack].  [job] points into the in-flight map, so what the
    function assigns to its fields before the write to the log is in the
    map whether or not the write succeeds. *)
Definition Nack (env : Env) (m : Manager) (jobID leaseID reason : string)
    : option (option error * Manager) :=
  match findInflight m jobID with
  | None => Some (Some (errors_New "job not found or not inflight"), m)
  | Some (key, queue, j) =>
      if decide (LeaseID j ≠ leaseID)
      then Some (Some (errors_New "invalid lease ID"), m)
      else
        let j := retried env j in
        if ShouldRetry j then
          let j := withStatus j JobStatusReady in
          let queue := withInflight queue (<[jobID := j]> (inflight queue)) in
          let record :=
            wal.mkRecord wal.RecordTypeNack (Job_Queue j) jobID [] ∅
              (Priority j) (Tries j) (MaxRetries j) (ETA j) leaseID reason in
          match wal.Write (disk_ok env) (m_wal m) record with
          | (Some err, w) =>
              Some (Some (Errorf "failed to write to WAL" err),
                    withQueue (withWAL m w) key queue)
          | (None, w) =>
              pq ← PQ.Push (ready queue) j;
              Some (None,
                    withQueue (withWAL m w) key
                      (mkQueue (name queue) pq (delete jobID (inflight queue))
                         (dlq queue)))
          end
        else
          let j := withStatus j JobStatusDLQ in
          let queue := withInflight queue (<[jobID := j]> (inflight queue)) in
          let record :=
            wal.mkRecord wal.RecordTypeNack (Job_Queue j) jobID [] ∅ 0
              (Tries j) 0 time.zero leaseID reason in
          match wal.Write (disk_ok env) (m_wal m) record with
          | (Some err, w) =>
              Some (Some (Errorf "failed to write to WAL" err),
                    withQueue (withWAL m w) key queue)
          | (None, w) =>
              Some (None,
                    withQueue (withWAL m w) key
                      (mkQueue (name queue) (ready queue)
                         (delete jobID (inflight queue))
                         (<[jobID := j]> (dlq queue))))
          end
  end.

(** One expired job in [checkLeaseTimeouts]: the body of the second
    loop.  The result of [m.wal.Write] is dropped. *)
Definition reclaim (env : Env) (acc : option (Queue * wal.WAL)) (j : Job)
    : option (Queue * wal.WAL) :=
  '(queue, w) ← acc;
  let j := retried env j in
  if ShouldRetry j then
    let j := withStatus j JobStatusReady in
    pq ← PQ.Push (ready queue) j;
    let queue := mkQueue (name queue) pq (delete (ID j) (inflight queue))
                   (dlq queue) in
    let record :=
      wal.mkRecord wal.RecordTypeRequeue (Job_Queue j) (ID j) [] ∅
        (Priority j) (Tries j) (MaxRetries j) (ETA j) ""%string ""%string in
    Some (queue, (wal.Write (disk_ok env) w record).2)
  else
    let j := withStatus j JobStatusDLQ in
    Some (mkQueue (name queue) (ready queue) (delete (ID j) (inflight queue))
            (<[ID j := j]> (dlq queue)),
          w).

Definition expired (env : Env) (j : Job) : bool :=
  negb (time.IsZero (LeaseDeadline j))
  && time.Before (LeaseDeadline j) (now env).

(** [Manager.checkLeaseTimeouts], one tick of the reclaimer; queues and
    jobs are visited in the order of [map_to_list]. *)
Definition checkLeaseTimeouts (env : Env) (m : Manager) : option Manager :=
  foldl
    (λ acc kq,
       m ← acc;
       let expiredJobs :=
         filter (λ j, expired env j = true)
           ((map_to_list (inflight kq.2)).*2) in
       '(queue, w) ← foldl (reclaim env) (Some (kq.2, m_wal m)) expiredJobs;
       Some (withQueue (withWAL m w) kq.1 queue))
    (Some m) (map_to_list (queues m)).

(** The callback of [replayWAL]. *)
Definition applyRecord (env : Env) : wal.Callback Manager := λ record m,
  if decide (wal.Type_ record = wal.RecordTypeEnqueue) then
    let '(queue, m) := getOrCreateQueue m (wal.Queue record) in
    let j :=
      mkJob (wal.JobID record) (wal.Queue record) (wal.Payload record)
        (wal.Headers record) (wal.Priority record) (wal.Tries record)
        (wal.MaxRetries record) (wal.ETA record) ""%string time.zero
        JobStatusReady (now env) in
    pq ← PQ.Push (ready queue) j;
    Some (None, withQueue m (wal.Queue record) (withReady queue pq))
  else if decide (wal.Type_ record = wal.RecordTypeAck) then
    match getQueue m (wal.Queue record) with
    | Some queue =>
        Some (None,
              withQueue m (wal.Queue record)
                (withInflight queue
                   (delete (wal.JobID record) (inflight queue))))
    | None => Some (None, m)
    end
  else if decide (wal.Type_ record = wal.RecordTypeNack
                  ∨ wal.Type_ record = wal.RecordTypeRequeue) then
    match getQueue m (wal.Queue record) with
    | Some queue =>
        match inflight queue !! wal.JobID record with
        | Some j =>
            let j :=
              mkJob (ID j) (Job_Queue j) (Payload j) (Headers j) (Priority j)
                (wal.Tries record) (MaxRetries j) (wal.ETA record) ""%string
                time.zero JobStatusReady (EnqueuedAt j) in
            if ShouldRetry j then
              pq ← PQ.Push (ready queue) j;
              Some (None,
                    withQueue m (wal.Queue record)
                      (mkQueue (name queue) pq
                         (delete (wal.JobID record) (inflight queue))
                         (dlq queue)))
            else
              let j := withStatus j JobStatusDLQ in
              Some (None,
                    withQueue m (wal.Queue record)
                      (mkQueue (name queue) (ready queue)
                         (delete (wal.JobID record) (inflight queue))
                         (<[ID j := j]> (dlq queue))))
        | None => Some (None, m)
        end
    | None => Some (None, m)
    end
  else if decide (wal.Type_ record = wal.RecordTypeTombstone) then
    match getQueue m (wal.Queue record) with
    | Some queue =>
        Some (None,
              withQueue m (wal.Queue record)
                (mkQueue (name queue) (ready queue)
                   (delete (wal.JobID record) (inflight queue))
                   (delete (wal.JobID record) (dlq queue))))
    | None => Some (None, m)
    end
  else Some (None, m).

(** [Manager.replayWAL] *)
Definition replayWAL (env : Env) (m : Manager)
    : option (option error * Manager) :=
  wal.Replay (applyRecord env) (m_wal m) m.

(** [Manager.Stats] *)
Definition Stats (m : Manager) (queueName : string)
    : (nat * nat * nat) * option error :=
  match getQueue m queueName with
  | None => ((0, 0, 0)%nat, Some (errors_New "queue not found"))
  | Some queue =>
      ((PQ.Len (ready queue), size (inflight queue), size (dlq queue)), None)
  end.

(** The jobs of a heap in slice order, and of a queue. *)
Definition heapJobs (h : jobHeap) : list Job :=
  omap (λ l, job <$> cells h !! l) (slice h).

Definition jobs (pq : priorityQueue) : list Job := heapJobs (heap pq).

(** *** Notions used to reason about the heap *)

Definition parent (k : nat) : nat := ((k - 1) / 2)%nat.

(** The three keys [jobHeap.Less] looks at. *)
Definition sameKeys (a b : Job) : Prop :=
  Priority a = Priority b ∧ ETA a = ETA b ∧ EnqueuedAt a = EnqueuedAt b.

(** Every entry of the slice points to an item that knows its position. *)
Definition heap_wf (h : jobHeap) : Prop :=
  ∀ i l, slice h !! i = Some l →
    ∃ it, cells h !! l = Some it ∧ index it = Z.of_nat i.

(** [h'] holds the same items as [h], maybe in another order, and no
    item has changed its job. *)
Definition sameItems (h h' : jobHeap) : Prop :=
  slice h' ≡ₚ slice h
  ∧ ∀ l, job <$> cells h' !! l = job <$> cells h !! l.

(** [js] with the entries at [i] and [j] exchanged. *)
Definition swapJobs (js : list Job) (i j : nat) : list Job :=
  match js !! i, js !! j with
  | Some a, Some b => <[j := a]> (<[i := b]> js)
  | _, _ => js
  end.

(** The job at [k] does not come before the job at [p]. *)
Definition ordAt (js : list Job) (p k : nat) : Prop :=
  ∀ a b, js !! p = Some a → js !! k = Some b → jobLess b a = false.

(** Heap order among the first [n] positions: no job comes before its
    parent. *)
Definition heapOrdered (n : nat) (js : list Job) : Prop :=
  ∀ k, (0 < k < n)%nat → ordAt js (parent k) k.

(** Heap order but for the job at [j], which may come before its
    parent; its children respect its parent. *)
Definition upInv (n : nat) (js : list Job) (j : nat) : Prop :=
  (∀ k, (0 < k < n)%nat → k ≠ j → ordAt js (parent k) k)
  ∧ (∀ k, (0 < k < n)%nat → parent k = j → j ≠ 0%nat →
       ordAt js (parent j) k).

(** Heap order but for the job at [i], which may come after its
    children and before its parent; its children respect its parent. *)
Definition downInv (n : nat) (js : list Job) (i : nat) : Prop :=
  (∀ k, (0 < k < n)%nat → k ≠ i → parent k ≠ i → ordAt js (parent k) k)
  ∧ (∀ k, (0 < k < n)%nat → parent k = i → i ≠ 0%nat →
       ordAt js (parent i) k).

(** [j] is a child of [i], within the first [n] positions, that no
    child of [i] comes before. *)
Definition bestChild (n : nat) (js : list Job) (i j : nat) : Prop :=
  (j < n)%nat ∧ parent j = i ∧ (0 < j)%nat
  ∧ ∀ k, (0 < k < n)%nat → parent k = i → ordAt js j k.

(** The id of the job of the item at [l]. *)
Definition idAt (h : jobHeap) (l : loc) : option string :=
  (λ it, ID (job it)) <$> cells h !! l.

(** The invariant of a [priorityQueue]: [items] maps an id to the item
    of the heap that holds the job with this id, and to nothing else. *)
Definition items_ok (pq : priorityQueue) : Prop :=
  ∀ id l, items pq !! id = Some l ↔
    l ∈ slice (heap pq) ∧ idAt (heap pq) l = Some id.

Definition alloc_ok (pq : priorityQueue) : Prop :=
  ∀ l, l ∈ slice (heap pq) → (l < next pq)%nat.

Definition pq_inv (pq : priorityQueue) : Prop :=
  heap_wf (heap pq)
  ∧ heapOrdered (length (slice (heap pq))) (heapJobs (heap pq))
  ∧ items_ok pq
  ∧ alloc_ok pq.

(** The states of a ready structure that the operations of
    [priorityQueue] lead to. *)
Inductive reachable : priorityQueue → Prop :=
| reach_new : reachable newPriorityQueue
| reach_Push pq j pq' :
    reachable pq → PQ.Push pq j = Some pq' → reachable pq'
| reach_Pop pq r pq' :
    reachable pq → PQ.Pop pq = Some (r, pq') → reachable pq'
| reach_PopReady pq now r pq' :
    reachable pq → PQ.PopReady pq now = Some (r, pq') → reachable pq'
| reach_Remove pq id r pq' :
    reachable pq → PQ.Remove pq id = Some (r, pq') → reachable pq'.

(** The jobs in the ready structure of a queue of the manager. *)
Definition readyJobs (m : Manager) (queueName : string) : list Job :=
  match queues m !! queueName with
  | Some queue => jobs (ready queue)
  | None => []
  end.

(** Every ready structure of the manager meets the invariant of the
    priority queue. *)
Definition readyOK (m : Manager) : Prop :=
  ∀ key queue, queues m !! key = Some queue → pq_inv (ready queue).

(** What [Lease] makes of a job it hands out: [job.LeaseID],
    [job.LeaseDeadline] and [job.Status] assigned. *)
Definition withLease (leaseID : string) (leaseDeadline : time.Time) (j : Job)
    : Job :=
  mkJob (ID j) (Job_Queue j) (Payload j) (Headers j) (Priority j) (Tries j)
    (MaxRetries j) (ETA j) leaseID leaseDeadline JobStatusInflight
    (EnqueuedAt j).

(** The jobs [origs] leased one after the other, the first with the
    [i]-th identifier of the call. *)
Fixpoint leaseAll (env : Env) (leaseDeadline : time.Time) (i : nat)
    (origs : list Job) : list Job :=
  match origs with
  | [] => []
  | j :: origs =>
      withLease (uuid env i) leaseDeadline j
      :: leaseAll env leaseDeadline (S i) origs
  end.

(** [origs] is in the order in which a heap over [origs ++ rest] gives
    its jobs away: none of the jobs that come later in [origs], and none
    of [rest], comes before a job of [origs]. *)
Fixpoint popOrder (origs rest : list Job) : Prop :=
  match origs with
  | [] => True
  | a :: origs' =>
      (∀ b, b ∈ origs' ++ rest → jobLess b a = false) ∧ popOrder origs' rest
  end.

(** A manager as a replay leaves it: nothing in flight, nothing
    dead-lettered, and every job in a ready structure READY and without
    a lease. *)
Definition unleased (j : Job) : Prop :=
  Status j = JobStatusReady ∧ LeaseID j = ""%string
  ∧ LeaseDeadline j = time.zero.

Definition allReady (m : Manager) : Prop :=
  ∀ key queue, queues m !! key = Some queue →
    inflight queue = ∅ ∧ dlq queue = ∅
    ∧ ∀ j, j ∈ jobs (ready queue) → unleased j.


(** The record [Enqueue] writes for a new job. *)
Definition enqueueRecord (env : Env) (queueName : string)
    (payload : list byte) (headers : gmap string string) (priority : Z)
    (delayMs : Z) (retryPolicy : RetryPolicy) : wal.Record_ :=
  wal.mkRecord wal.RecordTypeEnqueue queueName (uuid env 0) payload headers
    priority 0 (rp_MaxRetries retryPolicy)
    (if decide (delayMs > 0)
     then time.Add (now env) (int64 (delayMs * time.Millisecond))
     else now env)
    "" "".

(** The managers that successful calls of [Enqueue] lead to from a new
    manager on an empty log, each call with a record that fits a
    frame. *)
Inductive enqueuedOnly : Manager → Prop :=
| enqueuedOnly_new cfgSegmentSize cfgFsync :
    enqueuedOnly (NewManager (wal.New cfgSegmentSize cfgFsync))
| enqueuedOnly_Enqueue m env queueName payload headers priority delayMs
    retryPolicy idempotencyKey id m' :
    enqueuedOnly m →
    Enqueue env m queueName payload headers priority delayMs retryPolicy
      idempotencyKey = Some ((id, None), m') →
    wal.framable
      (enqueueRecord env queueName payload headers priority delayMs
         retryPolicy) →
    enqueuedOnly m'.

(** [id] is the job id of an ENQUEUE record for [queueName] among
    [records]. *)
Definition enqueuedIn (records : list wal.Record_) (queueName id : string)
    : Prop :=
  ∃ r, r ∈ records ∧ wal.Type_ r = wal.RecordTypeEnqueue
       ∧ wal.Queue r = queueName ∧ wal.JobID r = id.

(** The same world with the disk up or down. *)
Definition withDisk (env : Env) (disk : bool) : Env :=
  mkEnv (now env) (uuid env) (bucket_ok env) (store_ok env) disk
    (backoff env).

(** *** Sample jobs and queues *)

Definition sampleJob (id : string) (priority : Z) (eta enqueuedAt : time.Time)
    : Job :=
  mkJob id "Q" [] ∅ priority 0 3 eta "" time.zero JobStatusReady enqueuedAt.

(** Two jobs that differ in their ids only. *)
Definition twinA : Job := sampleJob "a" 5 1000 2000.
Definition twinB : Job := sampleJob "b" 5 1000 2000.

(** An urgent job scheduled for later and a minor job that is due. *)
Definition urgentLater : Job := sampleJob "urgent" 9 100 1.
Definition minorDue : Job := sampleJob "minor" 1 5 2.

Definition pushAll (js : list Job) : option priorityQueue :=
  foldl (λ acc j, pq ← acc; PQ.Push pq j) (Some newPriorityQueue) js.

Definition twins : priorityQueue :=
  default newPriorityQueue (pushAll [twinA; twinB]).

Definition urgentOnly : priorityQueue :=
  default newPriorityQueue (pushAll [urgentLater]).

Definition blockedQueue : priorityQueue :=
  default newPriorityQueue (pushAll [urgentLater; minorDue]).

(** A manager whose queue "Q" holds the two jobs of [blockedQueue]. *)
Definition blockedQ : Queue := mkQueue "Q" blockedQueue ∅ ∅.

(** *** Sample runs of the manager

    A fresh manager over an empty log, and the world at three moments:
    at [t0], one second later and ten minutes later.  In [diskDown] the
    disk refuses writes. *)
Definition freshManager : Manager := NewManager (wal.New 1024 false).

Definition t0 : time.Time := 1700000000000000000.

Definition world (at_ : time.Time) (id : string) (disk : bool) : Env :=
  mkEnv at_ (λ _, id) true true disk (λ _, 100 * time.Millisecond).

Definition after {A} (r : option (A * Manager)) : Manager :=
  match r with
  | Some (_, m) => m
  | None => freshManager
  end.

Definition blockedManager : Manager := withQueue freshManager "Q" blockedQ.

(** The records of the log of a manager, by type and job id, and a
    dead-lettered job by attempts, maximum and status. *)
Definition logOf (m : Manager) : option (list (wal.RecordType * string)) :=
  match wal.Replay wal.collect (m_wal m) [] with
  | Some (None, records) =>
      Some (map (λ r, (wal.Type_ r, wal.JobID r)) records)
  | _ => None
  end.

Definition deadJob (m : Manager) (queueName jobID : string)
    : option (Z * Z * JobStatus) :=
  match queues m !! queueName with
  | Some queue =>
      match dlq queue !! jobID with
      | Some j => Some (Tries j, MaxRetries j, Status j)
      | None => None
      end
  | None => None
  end.

(** Enqueue with priority 10. *)
Definition enqueued10 : option (string * option error * Manager) :=
  Enqueue (world t0 "job-1" true) freshManager "Q" (list_byte_of_string "A")
    ∅ 10 0 DefaultRetryPolicy "".

(** Enqueue with an idempotency key, and enqueue with the disk down. *)
Definition enqueuedKeyed : option (string * option error * Manager) :=
  Enqueue (world t0 "job-1" true) freshManager "Q" (list_byte_of_string "A")
    ∅ 5 0 DefaultRetryPolicy "order-42".

Definition enqueueDiskDown : option (string * option error * Manager) :=
  Enqueue (world t0 "job-1" false) freshManager "Q" (list_byte_of_string "A")
    ∅ 5 0 DefaultRetryPolicy "".

(** Enqueue, lease, ack; then a restart on the same log. *)
Definition enqueued : Manager :=
  after (Enqueue (world t0 "job-1" true) freshManager "Q"
           (list_byte_of_string "A") ∅ 5 0 DefaultRetryPolicy "").

Definition leased : Manager :=
  after (Lease (world (t0 + 1) "lease-1" true) enqueued "Q" 1 30000).



(** The queue and the job in flight after the lease. *)
Definition leasedQueue : Queue :=
  default (mkQueue "" newPriorityQueue ∅ ∅) (queues leased !! "Q"%string).

Definition leasedJob : Job :=
  default (sampleJob "" 0 0 0) (inflight leasedQueue !! "job-1"%string).

Definition acked : Manager :=
  (Ack (world (t0 + 2) "" true) leased "job-1" "lease-1").2.

(** The two records in the log after the ack. *)
Definition ackedRecords : list wal.Record_ :=
  [enqueueRecord (world t0 "job-1" true) "Q" (list_byte_of_string "A") ∅ 5 0
     DefaultRetryPolicy;
   wal.mkRecord wal.RecordTypeAck "Q" "job-1" [] ∅ 0 0 0 time.zero
     "lease-1" ""].

Definition restarted : option (option error * Manager) :=
  replayWAL (world (t0 + 1000000000) "" true) (NewManager (m_wal acked)).

(** Enqueue with [MaxRetries = 2], then lease and nack twice. *)
Definition twoRetries : RetryPolicy :=
  mkRetryPolicy 2 (10 * time.Millisecond) (1000 * time.Millisecond).

Definition enqueued2 : Manager :=
  after (Enqueue (world t0 "job-1" true) freshManager "test"
           (list_byte_of_string "retry-test") ∅ 5 0 twoRetries "").

Definition leasedOnce : Manager :=
  after (Lease (world (t0 + 1) "lease-1" true) enqueued2 "test" 1 30000).

Definition nackedOnce : Manager :=
  after (Nack (world (t0 + 2) "" true) leasedOnce "job-1" "lease-1"
           "test failure").

Definition leasedTwice : Manager :=
  after (Lease (world (t0 + 1000000000) "lease-2" true) nackedOnce "test" 1
           30000).

Definition nackedTwice : option (option error * Manager) :=
  Nack (world (t0 + 1000000001) "" true) leasedTwice "job-1" "lease-2"
    "test failure".

(** One tick of the reclaimer, ten minutes after a lease of thirty
    seconds: with the disk down, and on a job that has one attempt
    left. *)
Definition reclaimedDiskDown : option Manager :=
  checkLeaseTimeouts (world (t0 + 600000000000) "" false) leased.

Definition oneRetry : RetryPolicy :=
  mkRetryPolicy 1 (10 * time.Millisecond) (1000 * time.Millisecond).

Definition leasedLast : Manager :=
  after (Lease (world (t0 + 1) "lease-1" true)
           (after (Enqueue (world t0 "job-1" true) freshManager "Q"
                     (list_byte_of_string "A") ∅ 5 0 oneRetry ""))
           "Q" 1 30000).

Definition reclaimedLast : option Manager :=
  checkLeaseTimeouts (world (t0 + 600000000000) "" true) leasedLast.

End queue.

(** * Properties *)

(** ** Bytes and little-endian words *)

Section Bytes.

Lemma Z_of_byte_range (b : byte) : 0 ≤ Z_of_byte b < 256.
Proof.
  unfold Z_of_byte. pose proof (Byte.to_N_bounded b). lia.
Qed.

Lemma Z_of_byte_of_Z (z : Z) : Z_of_byte (byte_of_Z z) = uint8 z.
Proof.
  unfold byte_of_Z, Z_of_byte, uint8.
  assert (Hr : 0 ≤ z `mod` 2 ^ 8 < 256) by (apply Z.mod_pos_bound; lia).
  destruct (Byte.of_N (Z.to_N (z `mod` 2 ^ 8))) as [b|] eqn:Hb; simpl.
  - apply Byte.to_of_N in Hb. rewrite Hb. lia.
  - apply Byte.of_N_None_iff in Hb. lia.
Qed.

Lemma byte_of_Z_of_byte (b : byte) : byte_of_Z (Z_of_byte b) = b.
Proof.
  unfold byte_of_Z, uint8. pose proof (Z_of_byte_range b) as Hr.
  rewrite Z.mod_small by (change (2 ^ 8) with 256; lia).
  unfold Z_of_byte. rewrite N2Z.id, Byte.of_to_N. reflexivity.
Qed.

Lemma uint8_small (z : Z) : 0 ≤ z < 256 → uint8 z = z.
Proof. intros. unfold uint8. apply Z.mod_small. change (2 ^ 8) with 256. lia. Qed.

(** Gluing eight more bits on top of the low [k] bits. *)
Lemma lor_shiftl_byte (v k k' : Z) :
  0 ≤ k → k' = k + 8 →
  Z.lor (v `mod` 2 ^ k) (uint8 (v ≫ k) ≪ k) = v `mod` 2 ^ k'.
Proof.
  intros Hk ->. unfold uint8. apply Z.bits_inj'. intros n Hn.
  rewrite Z.lor_spec, !Z.testbit_mod_pow2 by lia.
  destruct (decide (n < k)) as [Hlt|Hge].
  - rewrite Z.shiftl_spec by lia.
    rewrite (Z.testbit_neg_r _ (n - k)) by lia.
    rewrite orb_false_r.
    rewrite !(proj2 (Z.ltb_lt _ _)) by lia. reflexivity.
  - rewrite Z.shiftl_spec, Z.testbit_mod_pow2, Z.shiftr_spec by lia.
    replace (n - k + k) with n by lia.
    rewrite (proj2 (Z.ltb_ge n k)) by lia. simpl.
    destruct (decide (n < k + 8)).
    + rewrite !(proj2 (Z.ltb_lt _ _)) by lia. reflexivity.
    + rewrite !(proj2 (Z.ltb_ge _ _)) by lia. reflexivity.
Qed.

End Bytes.

Section LittleEndianFacts.

Import LittleEndian.

Lemma at_cons_0 (b : byte) (l : list byte) : at_ (b :: l) 0 = Z_of_byte b.
Proof. reflexivity. Qed.

Lemma at_cons_S (b : byte) (l : list byte) (i : nat) : at_ (b :: l) (S i) = at_ l i.
Proof. reflexivity. Qed.

Lemma Uint16_PutUint16 (v : Z) (rest : list byte) :
  Uint16 (PutUint16 v ++ rest) = uint16 v.
Proof.
  unfold Uint16, PutUint16. simpl app.
  rewrite !at_cons_S, !at_cons_0, !Z_of_byte_of_Z.
  unfold uint16. unfold uint8 at 1.
  rewrite (lor_shiftl_byte v 8 16) by lia. reflexivity.
Qed.

Lemma Uint32_PutUint32 (v : Z) (rest : list byte) :
  Uint32 (PutUint32 v ++ rest) = uint32 v.
Proof.
  unfold Uint32, PutUint32. simpl app.
  rewrite !at_cons_S, !at_cons_0, !Z_of_byte_of_Z.
  unfold uint32. unfold uint8 at 1.
  rewrite (lor_shiftl_byte v 8 16), (lor_shiftl_byte v 16 24),
    (lor_shiftl_byte v 24 32) by lia.
  reflexivity.
Qed.

Lemma Uint64_PutUint64 (v : Z) (rest : list byte) :
  Uint64 (PutUint64 v ++ rest) = uint64 v.
Proof.
  unfold Uint64, PutUint64. simpl app.
  rewrite !at_cons_S, !at_cons_0, !Z_of_byte_of_Z.
  unfold uint64. unfold uint8 at 1.
  rewrite (lor_shiftl_byte v 8 16), (lor_shiftl_byte v 16 24),
    (lor_shiftl_byte v 24 32), (lor_shiftl_byte v 32 40), (lor_shiftl_byte v 40 48),
    (lor_shiftl_byte v 48 56), (lor_shiftl_byte v 56 64) by lia.
  reflexivity.
Qed.

Lemma uint16_small (z : Z) : 0 ≤ z < 65536 → uint16 z = z.
Proof. intros. unfold uint16. apply Z.mod_small. change (2 ^ 16) with 65536. lia. Qed.

Lemma uint32_small (z : Z) : 0 ≤ z < 4294967296 → uint32 z = z.
Proof.
  intros. unfold uint32. apply Z.mod_small.
  change (2 ^ 32) with 4294967296. lia.
Qed.

Lemma uint16_idemp (z : Z) : uint16 (uint16 z) = uint16 z.
Proof. unfold uint16. apply Z.mod_mod. lia. Qed.

Lemma uint32_idemp (z : Z) : uint32 (uint32 z) = uint32 z.
Proof. unfold uint32. apply Z.mod_mod. lia. Qed.

Lemma uint64_idemp (z : Z) : uint64 (uint64 z) = uint64 z.
Proof. unfold uint64. apply Z.mod_mod. lia. Qed.

Lemma int64_range (z : Z) : - 2 ^ 63 ≤ int64 z < 2 ^ 63.
Proof.
  unfold int64. pose proof (Z.mod_pos_bound (z + 2 ^ 63) (2 ^ 64)). lia.
Qed.

Lemma int64_small (z : Z) : - 2 ^ 63 ≤ z < 2 ^ 63 → int64 z = z.
Proof. intros. unfold int64. rewrite Z.mod_small; lia. Qed.

(** Going through the unsigned view and back keeps a signed value. *)
Lemma int64_uint64 (z : Z) : int64 (uint64 z) = int64 z.
Proof.
  unfold int64, uint64. f_equal.
  rewrite Zplus_mod_idemp_l. reflexivity.
Qed.

End LittleEndianFacts.

(** ** The record codec *)

Section Codec.

Import wal.

Lemma parses_ret {A} (a : A) : parses (pret a) [] a.
Proof. intros pre post. unfold pret. f_equal. f_equal. simpl. lia. Qed.

Lemma parses_bind {A B} (p : Parser A) (f : A → Parser B) e1 e2 a b :
  parses p e1 a → parses (f a) e2 b → parses (pbind p f) (e1 ++ e2) b.
Proof.
  intros Hp Hf pre post. unfold pbind.
  rewrite <- (app_assoc e1 e2 post), Hp.
  specialize (Hf (pre ++ e1) post).
  rewrite <- app_assoc, length_app in Hf. rewrite Hf.
  rewrite length_app. f_equal. f_equal. lia.
Qed.

Lemma parses_bind_ret {A B} (p : Parser A) (g : A → B) e a :
  parses p e a → parses (pbind p (λ x, pret (g x))) e (g a).
Proof.
  intros Hp. rewrite <- (app_nil_r e).
  eapply parses_bind; [exact Hp | apply parses_ret].
Qed.

Lemma drop_at_app (pre l : list byte) : drop (length pre) (pre ++ l) = l.
Proof. apply drop_app_length. Qed.

Lemma parses_getByte (b : byte) : parses getByte [b] (Z_of_byte b).
Proof.
  intros pre post. unfold getByte.
  rewrite drop_at_app. rewrite !length_app. simpl.
  destruct (decide _) as [Hlt|_]; [lia|]. reflexivity.
Qed.

Lemma parses_getUint16 (v : Z) :
  parses getUint16 (LittleEndian.PutUint16 v) (uint16 v).
Proof.
  intros pre post. unfold getUint16.
  rewrite drop_at_app, Uint16_PutUint16. rewrite !length_app. simpl.
  destruct (decide _) as [Hlt|_]; [lia|]. reflexivity.
Qed.

Lemma parses_getUint32 (v : Z) :
  parses getUint32 (LittleEndian.PutUint32 v) (uint32 v).
Proof.
  intros pre post. unfold getUint32.
  rewrite drop_at_app, Uint32_PutUint32. rewrite !length_app. simpl.
  destruct (decide _) as [Hlt|_]; [lia|]. reflexivity.
Qed.

Lemma parses_getUint64 (v : Z) :
  parses getUint64 (LittleEndian.PutUint64 v) (uint64 v).
Proof.
  intros pre post. unfold getUint64.
  rewrite drop_at_app, Uint64_PutUint64. rewrite !length_app. simpl.
  destruct (decide _) as [Hlt|_]; [lia|]. reflexivity.
Qed.

Lemma parses_getBytes (l : list byte) : parses (getBytes (length l)) l l.
Proof.
  intros pre post. unfold getBytes.
  rewrite drop_at_app, take_app_length. rewrite !length_app.
  destruct (decide _) as [Hlt|_]; [lia|]. reflexivity.
Qed.

Lemma length_list_byte_of_string (s : string) :
  length (list_byte_of_string s) = String.length s.
Proof.
  unfold list_byte_of_string.
  rewrite length_map. induction s as [|c s IH]; simpl; congruence.
Qed.

Lemma parses_getString (s : string) :
  fits16 s → parses getString (putString s) s.
Proof.
  intros Hs. unfold getString, putString.
  eapply parses_bind; [apply parses_getUint16|].
  rewrite uint16_idemp, uint16_small by (unfold fits16 in Hs; lia).
  rewrite Nat2Z.id, <- length_list_byte_of_string.
  rewrite <- (string_of_list_byte_of_string s) at 3.
  apply (parses_bind_ret _ string_of_list_byte), parses_getBytes.
Qed.

Lemma parses_getHeaders (l : list (string * string)) (m : gmap string string) :
  Forall (λ kv, fits16 kv.1 ∧ fits16 kv.2) l →
  parses (getHeaders (length l) m) (flat_map putHeader l) (assignAll m l).
Proof.
  intros Hl. revert m. induction Hl as [|[k v] l [Hk Hv] _ IH]; intros m.
  - apply parses_ret.
  - change (flat_map putHeader ((k, v) :: l))
      with ((putString k ++ putString v) ++ flat_map putHeader l).
    change (getHeaders (length ((k, v) :: l)) m)
      with (pbind getString (λ key, pbind getString
              (λ val, getHeaders (length l) (<[key := val]> m)))).
    change (assignAll m ((k, v) :: l)) with (assignAll (<[k := v]> m) l).
    rewrite <- app_assoc.
    eapply parses_bind; [apply parses_getString, Hk|].
    eapply parses_bind; [apply parses_getString, Hv|].
    apply IH.
Qed.

Lemma assignAll_list_to_map (l : list (string * string)) :
  NoDup l.*1 → assignAll ∅ l = list_to_map l.
Proof.
  intros Hnd.
  assert (Hgen : ∀ m, (∀ k, k ∈ l.*1 → m !! k = None) →
    assignAll m l = list_to_map l ∪ m).
  { induction l as [|[k v] l IH]; intros m Hm; simpl.
    - by rewrite (left_id_L ∅ (∪)).
    - apply NoDup_cons in Hnd as [Hk Hnd].
      rewrite IH; [|done|].
      + rewrite insert_union_singleton_l.
        rewrite (insert_union_singleton_l (list_to_map l)).
        rewrite (assoc_L (∪)). f_equal.
        apply map_union_comm. apply map_disjoint_singleton_r_2.
        by apply not_elem_of_list_to_map_1.
      + intros k' Hk'. rewrite lookup_insert_ne.
        * apply Hm. simpl. by right.
        * intros ->. done. }
  rewrite Hgen; [by rewrite (right_id_L ∅ (∪))|].
  intros k _. apply lookup_empty.
Qed.

Lemma assignAll_order (m : gmap string string) (order : list (string * string)) :
  order ≡ₚ map_to_list m → assignAll ∅ order = m.
Proof.
  intros Hperm.
  assert (Hnd : NoDup order.*1).
  { rewrite Hperm. apply NoDup_fst_map_to_list. }
  rewrite assignAll_list_to_map by done.
  rewrite (list_to_map_proper order (map_to_list m)) by done.
  apply list_to_map_to_list.
Qed.

Lemma UnixMilli_idemp (t : time.Time) :
  int64 (uint64 (uint64 (time.UnixMilli t))) = time.UnixMilli t.
Proof.
  rewrite uint64_idemp, int64_uint64. unfold time.UnixMilli.
  apply int64_small, int64_range.
Qed.

(** Parsing the encoding of a record yields the record as the wire
    carries it, and consumes the encoding exactly. *)
Lemma parseRecord_MarshalIn (order : list (string * string)) (r : Record_) :
  sized r → order ≡ₚ map_to_list (Headers r) →
  parses parseRecord (MarshalIn order r) (wire r).
Proof.
  intros (Hq & Hj & Hl & Hr & Hp & Hc & Hh) Hperm.
  assert (Hlen : length order = size (Headers r)).
  { rewrite Hperm. apply length_map_to_list. }
  unfold parseRecord, MarshalIn.
  eapply parses_bind; [apply parses_getByte|].
  eapply parses_bind; [apply parses_getString, Hq|].
  eapply parses_bind; [apply parses_getString, Hj|].
  eapply parses_bind; [apply parses_getByte|].
  eapply parses_bind; [apply parses_getUint32|].
  eapply parses_bind; [apply parses_getUint32|].
  eapply parses_bind; [apply parses_getUint64|].
  eapply parses_bind; [apply parses_getUint32|].
  rewrite uint32_idemp, uint32_small, Nat2Z.id by lia.
  eapply parses_bind; [apply parses_getBytes|].
  eapply parses_bind; [apply parses_getUint16|].
  rewrite uint16_idemp, uint16_small, Nat2Z.id, <- Hlen by lia.
  eapply parses_bind.
  { apply parses_getHeaders. by rewrite Hperm. }
  rewrite (assignAll_order _ _ Hperm).
  eapply parses_bind; [apply parses_getString, Hl|].
  rewrite !Z_of_byte_of_Z, UnixMilli_idemp.
  apply (parses_bind_ret getString
    (λ reason, mkRecord (uint8 (Type_ r)) (Queue r) (JobID r) (Payload r)
       (Headers r) (uint8 (Priority r)) (uint32 (Tries r))
       (uint32 (MaxRetries r))
       (time.ofUnixMilli (time.UnixMilli (ETA r))) (LeaseID r) reason)).
  apply parses_getString, Hr.
Qed.

Lemma Unmarshal_MarshalIn (order : list (string * string)) (r : Record_) :
  sized r → order ≡ₚ map_to_list (Headers r) →
  Unmarshal (MarshalIn order r) = inr (wire r).
Proof.
  intros Hs Hperm. unfold Unmarshal.
  pose proof (parseRecord_MarshalIn order r Hs Hperm [] []) as H.
  rewrite app_nil_l, app_nil_r in H. change (length []) with 0%nat in H.
  rewrite H. reflexivity.
Qed.

Lemma ofUnixMilli_UnixMilli (t : time.Time) :
  wholeMillis t → time.ofUnixMilli (time.UnixMilli t) = t.
Proof.
  intros [Hm Hr]. unfold time.ofUnixMilli, time.UnixMilli.
  rewrite int64_uint64, int64_small by done.
  pose proof (Z.div_mod t 1000000). lia.
Qed.

Lemma wire_id (r : Record_) : typed r → wholeMillis (ETA r) → wire r = r.
Proof.
  intros (Ht & Hp & Htr & Hmr) Hms. destruct r; simpl in *. unfold wire; simpl.
  rewrite !uint8_small, !uint32_small, ofUnixMilli_UnixMilli by done.
  reflexivity.
Qed.

Lemma take_eq_length (k : nat) (data data' : list byte) :
  (k ≤ length data)%nat → take k data' = take k data → (k ≤ length data')%nat.
Proof.
  intros Hk Heq. apply (f_equal length) in Heq.
  rewrite !length_take in Heq. lia.
Qed.

Lemma take_eq_le (j k : nat) (data data' : list byte) :
  (j ≤ k)%nat → take k data' = take k data → take j data' = take j data.
Proof.
  intros Hjk Heq. apply (f_equal (take j)) in Heq.
  rewrite !take_take in Heq. by rewrite !Nat.min_l in Heq by lia.
Qed.

Lemma at_drop_take_eq (k offset i : nat) (data data' : list byte) :
  (offset + i < k)%nat → take k data' = take k data →
  at_ (drop offset data') i = at_ (drop offset data) i.
Proof.
  intros Hi Heq. unfold at_. rewrite !nth_lookup, !lookup_drop.
  rewrite <- (lookup_take_lt data' k), <- (lookup_take_lt data k) by lia.
  by rewrite Heq.
Qed.

Lemma local_ret {A} (a : A) : local (pret a).
Proof.
  intros data offset a' offset' Hle [= <- <-]. split; [lia|]. reflexivity.
Qed.

Lemma local_bind {A B} (p : Parser A) (f : A → Parser B) :
  local p → (∀ a, local (f a)) → local (pbind p f).
Proof.
  intros Hp Hf data offset b offset2 Hle. unfold pbind.
  destruct (p data offset) as [e|[a offset1]] eqn:Hrun; [done|].
  intros Hrun2.
  destruct (Hp _ _ _ _ Hle Hrun) as [Hb1 Hl1].
  destruct (Hf a _ _ _ _ (proj2 Hb1) Hrun2) as [Hb2 Hl2].
  split; [lia|]. intros data' Heq.
  rewrite (Hl1 data') by (eapply take_eq_le; [|exact Heq]; lia).
  by apply Hl2.
Qed.

Lemma onlyInvalid_ret {A} (a : A) : onlyInvalid (pret a).
Proof. intros data offset e. discriminate. Qed.

Lemma onlyInvalid_bind {A B} (p : Parser A) (f : A → Parser B) :
  onlyInvalid p → (∀ a, onlyInvalid (f a)) → onlyInvalid (pbind p f).
Proof.
  intros Hp Hf data offset e. unfold pbind.
  destruct (p data offset) as [e'|[a offset1]] eqn:Hrun.
  - intros [= <-]. by eapply Hp.
  - apply Hf.
Qed.

Ltac local_word :=
  let Hlt := fresh in let Hle := fresh in let Heq := fresh in
  let Hlen := fresh in
  intros ? ? ? ? Hle; destruct (decide _) as [Hlt|Hlt]; [done|];
  intros [= <- <-]; split; [lia|]; intros ? Heq;
  pose proof Heq as Hlen; apply take_eq_length in Hlen; [|lia];
  destruct (decide _); [lia|]; f_equal; f_equal.

Lemma local_getByte : local getByte.
Proof.
  unfold getByte. local_word.
  eapply at_drop_take_eq; [|eassumption]. lia.
Qed.

Lemma local_getUint16 : local getUint16.
Proof.
  unfold getUint16. local_word. unfold LittleEndian.Uint16.
  match goal with
  | Heq : take ?k ?d' = take ?k ?d |- _ =>
      rewrite !(at_drop_take_eq k _ _ d d') by first [lia | exact Heq]
  end.
  reflexivity.
Qed.

Lemma local_getUint32 : local getUint32.
Proof.
  unfold getUint32. local_word. unfold LittleEndian.Uint32.
  match goal with
  | Heq : take ?k ?d' = take ?k ?d |- _ =>
      rewrite !(at_drop_take_eq k _ _ d d') by first [lia | exact Heq]
  end.
  reflexivity.
Qed.

Lemma local_getUint64 : local getUint64.
Proof.
  unfold getUint64. local_word. unfold LittleEndian.Uint64.
  match goal with
  | Heq : take ?k ?d' = take ?k ?d |- _ =>
      rewrite !(at_drop_take_eq k _ _ d d') by first [lia | exact Heq]
  end.
  reflexivity.
Qed.

Lemma local_getBytes (n : nat) : local (getBytes n).
Proof.
  unfold getBytes. local_word.
  rewrite !take_drop_commute. congruence.
Qed.

Ltac invalid_word :=
  intros ? ? ?; destruct (decide _); [by intros [= <-] | discriminate].

Lemma onlyInvalid_getByte : onlyInvalid getByte.
Proof. unfold getByte. invalid_word. Qed.
Lemma onlyInvalid_getUint16 : onlyInvalid getUint16.
Proof. unfold getUint16. invalid_word. Qed.
Lemma onlyInvalid_getUint32 : onlyInvalid getUint32.
Proof. unfold getUint32. invalid_word. Qed.
Lemma onlyInvalid_getUint64 : onlyInvalid getUint64.
Proof. unfold getUint64. invalid_word. Qed.
Lemma onlyInvalid_getBytes (n : nat) : onlyInvalid (getBytes n).
Proof. unfold getBytes. invalid_word. Qed.

Create HintDb parser discriminated.
#[local] Hint Resolve local_ret local_getByte local_getUint16 local_getUint32
  local_getUint64 local_getBytes onlyInvalid_ret onlyInvalid_getByte
  onlyInvalid_getUint16 onlyInvalid_getUint32 onlyInvalid_getUint64
  onlyInvalid_getBytes : parser.

Ltac parser_steps :=
  repeat first
    [ apply local_bind; [|intros ?]
    | apply onlyInvalid_bind; [|intros ?]
    | solve [auto with parser] ].

Lemma local_getString : local getString.
Proof. unfold getString. parser_steps. Qed.

Lemma onlyInvalid_getString : onlyInvalid getString.
Proof. unfold getString. parser_steps. Qed.

#[local] Hint Resolve local_getString onlyInvalid_getString : parser.

Lemma local_getHeaders (count : nat) (m : gmap string string) :
  local (getHeaders count m).
Proof.
  revert m. induction count as [|count IH]; intros m; simpl; parser_steps.
Qed.

Lemma onlyInvalid_getHeaders (count : nat) (m : gmap string string) :
  onlyInvalid (getHeaders count m).
Proof.
  revert m. induction count as [|count IH]; intros m; simpl; parser_steps.
Qed.

#[local] Hint Resolve local_getHeaders onlyInvalid_getHeaders : parser.

Lemma local_parseRecord : local parseRecord.
Proof. unfold parseRecord. parser_steps. Qed.

Lemma onlyInvalid_parseRecord : onlyInvalid parseRecord.
Proof. unfold parseRecord. parser_steps. Qed.

(** The only error [Unmarshal] returns is [ErrInvalidRecord]. *)
Lemma Unmarshal_error (data : list byte) (e : error) :
  Unmarshal data = inl e → e = ErrInvalidRecord.
Proof.
  unfold Unmarshal.
  destruct (parseRecord data 0%nat) as [e'|[r k]] eqn:Hrun; [|done].
  intros [= <-]. by eapply onlyInvalid_parseRecord.
Qed.

(** A parse that consumes a whole buffer fails on each of its strict
    prefixes. *)
Lemma parseRecord_truncated (data data' : list byte) (r : Record_) :
  parseRecord data 0%nat = inr (r, length data) →
  data' `prefix_of` data → data' ≠ data →
  Unmarshal data' = inl ErrInvalidRecord.
Proof.
  intros Hfull [rest ->] Hne.
  assert (Hlen : (length data' < length (data' ++ rest))%nat).
  { rewrite length_app. destruct rest; [|simpl; lia].
    by rewrite app_nil_r in Hne. }
  destruct (Unmarshal data') as [e|r'] eqn:Hun.
  { f_equal. by eapply Unmarshal_error. }
  exfalso. unfold Unmarshal in Hun.
  destruct (parseRecord data' 0%nat) as [e|[r'' k]] eqn:Hrun; [done|].
  destruct (local_parseRecord _ _ _ _ (Nat.le_0_l _) Hrun) as [Hb Hl].
  rewrite (Hl (data' ++ rest)) in Hfull.
  - injection Hfull as _ Hk. lia.
  - rewrite take_app_le by lia. reflexivity.
Qed.

Lemma blind_ret {A} (a : A) : blind (pret a).
Proof.
  intros t t' rest offset. split; [reflexivity|].
  intros a' offset' [= <- <-]. eauto.
Qed.

Lemma blind_bind {A B} (p : Parser A) (f : A → Parser B) :
  blind p → (∀ a, blind (f a)) → blind (pbind p f).
Proof.
  intros Hp Hf t t' rest offset. unfold pbind.
  destruct (Hp t t' rest offset) as [Heq Hoff]. rewrite <- Heq.
  destruct (p (t :: rest) (S offset)) as [e|[a offset1]] eqn:Hrun.
  - split; [reflexivity | discriminate].
  - destruct (Hoff a offset1 eq_refl) as [k ->]. apply Hf.
Qed.

Ltac blind_word :=
  intros t t' rest offset; cbn [drop length];
  split; [reflexivity|];
  intros ? ?; destruct (decide _); [discriminate|];
  intros [= <- <-]; eexists; cbn [Nat.add]; reflexivity.

Lemma blind_getByte : blind getByte.
Proof. unfold getByte. blind_word. Qed.
Lemma blind_getUint16 : blind getUint16.
Proof. unfold getUint16. blind_word. Qed.
Lemma blind_getUint32 : blind getUint32.
Proof. unfold getUint32. blind_word. Qed.
Lemma blind_getUint64 : blind getUint64.
Proof. unfold getUint64. blind_word. Qed.
Lemma blind_getBytes (n : nat) : blind (getBytes n).
Proof. unfold getBytes. blind_word. Qed.

#[local] Hint Resolve blind_ret blind_getByte blind_getUint16 blind_getUint32
  blind_getUint64 blind_getBytes : parser.

Ltac blind_steps :=
  repeat first [ apply blind_bind; [|intros ?] | solve [auto with parser] ].

Lemma blind_getString : blind getString.
Proof. unfold getString. blind_steps. Qed.

#[local] Hint Resolve blind_getString : parser.

Lemma blind_getHeaders (count : nat) (m : gmap string string) :
  blind (getHeaders count m).
Proof.
  revert m. induction count as [|count IH]; intros m; simpl; blind_steps.
Qed.

#[local] Hint Resolve blind_getHeaders : parser.

Lemma parseRecord_parseBody : parseRecord = pbind getByte parseBody.
Proof. reflexivity. Qed.

Lemma blind_parseBody (ty : RecordType) : blind (parseBody ty).
Proof. unfold parseBody. blind_steps. Qed.

Lemma pbind_pmap {A B C} (g : B → C) (p : Parser A)
    (q : A → Parser B) (h : A → Parser C) :
  (∀ a data offset, h a data offset = pmap g (q a) data offset) →
  ∀ data offset, pbind p h data offset = pmap g (pbind p q) data offset.
Proof.
  intros Hh data offset. unfold pbind, pmap.
  destruct (p data offset) as [e|[a offset1]]; [reflexivity|].
  rewrite Hh. reflexivity.
Qed.

Lemma parseBody_withType (ty ty' : RecordType) (data : list byte) (offset : nat) :
  parseBody ty' data offset = pmap (withType ty') (parseBody ty) data offset.
Proof.
  revert data offset. unfold parseBody.
  repeat (apply (pbind_pmap (withType ty')); intros ?).
  reflexivity.
Qed.

(** The type byte is read and stored, never examined. *)
Lemma parseRecord_type_byte (t t' : byte) (rest : list byte) (r : Record_)
    (k : nat) :
  parseRecord (t :: rest) 0%nat = inr (r, k) →
  Type_ r = Z_of_byte t
  ∧ parseRecord (t' :: rest) 0%nat = inr (withType (Z_of_byte t') r, k).
Proof.
  rewrite parseRecord_parseBody. unfold pbind, getByte. cbn [length drop].
  destruct (decide _) as [Hlt|_]; [lia|].
  change (0 + 1)%nat with 1%nat. rewrite !at_cons_0.
  destruct (blind_parseBody (Z_of_byte t) t t' rest 0%nat) as [Heq _].
  rewrite (parseBody_withType (Z_of_byte t) (Z_of_byte t')).
  unfold pmap at 1. rewrite <- Heq.
  assert (Hty : ∀ data offset r k,
    parseBody (Z_of_byte t) data offset = inr (r, k) → Type_ r = Z_of_byte t).
  { intros data offset r0 k0.
    rewrite (parseBody_withType 0 (Z_of_byte t)). unfold pmap.
    destruct (parseBody 0 data offset) as [e|[r1 k1]]; [done|].
    by intros [= <- <-]. }
  intros Hrun. split; [by eapply Hty|].
  rewrite Hrun. reflexivity.
Qed.

End Codec.

(** ** CRC-32C stays within 32 bits *)

Section Checksum.

Lemma lxor_bound (a b n : Z) :
  0 ≤ n → 0 ≤ a < 2 ^ n → 0 ≤ b < 2 ^ n → 0 ≤ Z.lxor a b < 2 ^ n.
Proof.
  intros Hn Ha Hb.
  assert (Hmod : Z.lxor a b = Z.lxor a b `mod` 2 ^ n).
  { apply Z.bits_inj'. intros m Hm.
    rewrite Z.testbit_mod_pow2, Z.lxor_spec by lia.
    destruct (decide (m < n)).
    - rewrite (proj2 (Z.ltb_lt m n)) by lia. reflexivity.
    - rewrite (proj2 (Z.ltb_ge m n)) by lia. simpl.
      rewrite <- (Z.mod_small a (2 ^ n)), <- (Z.mod_small b (2 ^ n)) by lia.
      rewrite !Z.testbit_mod_pow2 by lia.
      rewrite (proj2 (Z.ltb_ge m n)) by lia. reflexivity. }
  rewrite Hmod. apply Z.mod_pos_bound. lia.
Qed.

Lemma crc_bit_bound (c : Z) : 0 ≤ c < 2 ^ 32 → 0 ≤ util.crc_bit c < 2 ^ 32.
Proof.
  intros Hc. unfold util.crc_bit.
  assert (Hs : 0 ≤ c ≫ 1 < 2 ^ 32).
  { rewrite Z.shiftr_div_pow2 by lia. change (2 ^ 1) with 2.
    pose proof (Z.div_pos c 2). 
    assert (c `div` 2 ≤ c) by (apply Z.div_le_upper_bound; lia). lia. }
  destruct (Z.testbit c 0); [|exact Hs].
  apply lxor_bound; [lia | exact Hs | lia].
Qed.

Lemma crc_byte_bound (c : Z) (b : byte) :
  0 ≤ c < 2 ^ 32 → 0 ≤ util.crc_byte c b < 2 ^ 32.
Proof.
  intros Hc. unfold util.crc_byte.
  assert (Hx : 0 ≤ Z.lxor c (Z_of_byte b) < 2 ^ 32).
  { apply lxor_bound; [lia | exact Hc |]. pose proof (Z_of_byte_range b). lia. }
  generalize dependent (Z.lxor c (Z_of_byte b)). intros x Hx.
  do 8 (apply crc_bit_bound in Hx). exact Hx.
Qed.

Lemma Checksum_bound (data : list byte) : 0 ≤ util.Checksum data < 2 ^ 32.
Proof.
  unfold util.Checksum. apply lxor_bound; [lia | | lia].
  assert (Hgen : ∀ c, 0 ≤ c < 2 ^ 32 →
    0 ≤ fold_left util.crc_byte data c < 2 ^ 32).
  { induction data as [|b data IH]; intros c Hc; simpl; [done|].
    apply IH, crc_byte_bound, Hc. }
  apply Hgen. lia.
Qed.

Lemma uint32_Checksum (data : list byte) :
  uint32 (util.Checksum data) = util.Checksum data.
Proof.
  apply uint32_small. pose proof (Checksum_bound data).
  change (2 ^ 32) with 4294967296 in *. lia.
Qed.

End Checksum.

(** ** Reading a segment back *)

Section Reading.

Import wal.

Lemma ReadFull_app (l rest : list byte) :
  ReadFull (length l) (l ++ rest) = (inr l, rest).
Proof.
  unfold ReadFull. destruct (decide (length l = 0%nat)) as [H0|Hn0].
  - apply length_zero_iff_nil in H0. by subst.
  - rewrite length_app.
    destruct (decide _) as [H|_]; [lia|].
    destruct (decide _) as [H|_]; [lia|].
    by rewrite take_app_length, drop_app_length.
Qed.

Lemma ReadFull_short (n : nat) (l : list byte) :
  (length l < n)%nat →
  ∃ err, ReadFull n l = (inl err, if decide (l = []) then l else [])
         ∧ (err = io_EOF ∨ err = io_ErrUnexpectedEOF)
         ∧ (err = io_EOF ↔ l = []).
Proof.
  intros Hlt. unfold ReadFull.
  destruct (decide (n = 0%nat)) as [->|_]; [lia|].
  destruct (decide (length l = 0%nat)) as [H0|Hn0].
  - apply length_zero_iff_nil in H0. subst. exists io_EOF.
    rewrite decide_True by done. naive_solver.
  - destruct (decide _) as [_|H]; [|lia].
    exists io_ErrUnexpectedEOF.
    rewrite decide_False by (by intros ->).
    split; [done|]. split; [by right|]. split; [done|].
    by intros ->.
Qed.

Lemma length_PutUint32 (v : Z) : length (LittleEndian.PutUint32 v) = 4%nat.
Proof. reflexivity. Qed.

Lemma Uint32_PutUint32_nil (v : Z) :
  LittleEndian.Uint32 (LittleEndian.PutUint32 v) = uint32 v.
Proof.
  rewrite <- (app_nil_r (LittleEndian.PutUint32 v)). apply Uint32_PutUint32.
Qed.

Lemma ReadFull_word (v : Z) (rest : list byte) :
  ReadFull 4 (LittleEndian.PutUint32 v ++ rest)
  = (inr (LittleEndian.PutUint32 v), rest).
Proof. apply (ReadFull_app (LittleEndian.PutUint32 v)). Qed.

(** The three reads of [Read] on a frame with an arbitrary checksum
    field. *)
Lemma Read_frameWith (crc : Z) (data rest : list byte) (offset : Z) :
  Z.of_nat (length data) < 4294967296 →
  Read (mkSegmentReader (frameWith crc data ++ rest) offset)
  = if negb (util.VerifyChecksum data (uint32 crc))
    then (inl ErrCorruptedData, mkSegmentReader rest offset)
    else
      match Unmarshal data with
      | inl err =>
          (inl (Errorf "failed to unmarshal record" err),
           mkSegmentReader rest offset)
      | inr record =>
          (inr record,
           mkSegmentReader rest (offset + (8 + Z.of_nat (length data))))
      end.
Proof.
  intros Hlen. unfold Read, frameWith. cbn [rd_unread rd_offset].
  rewrite <- !app_assoc, ReadFull_word, ReadFull_word.
  rewrite !Uint32_PutUint32_nil, uint32_idemp, uint32_small by lia.
  rewrite Nat2Z.id, ReadFull_app. reflexivity.
Qed.

Lemma frame_frameWith (data : list byte) :
  frame data = frameWith (util.Checksum data) data.
Proof. reflexivity. Qed.

(** A frame written by [Segment.Write] reads back as its record. *)
Lemma Read_frame (data rest : list byte) (record : Record_) (offset : Z) :
  decodes data record →
  Read (mkSegmentReader (frame data ++ rest) offset)
  = (inr record,
     mkSegmentReader rest (offset + (8 + Z.of_nat (length data)))).
Proof.
  intros [Hlen Hun]. rewrite frame_frameWith, Read_frameWith by done.
  rewrite uint32_Checksum. unfold util.VerifyChecksum.
  rewrite bool_decide_true by done. simpl. by rewrite Hun.
Qed.

(** A complete frame whose checksum does not match. *)
Lemma Read_corrupt (crc : Z) (data rest : list byte) (offset : Z) :
  Z.of_nat (length data) < 4294967296 →
  uint32 crc ≠ util.Checksum data →
  Read (mkSegmentReader (frameWith crc data ++ rest) offset)
  = (inl ErrCorruptedData, mkSegmentReader rest offset).
Proof.
  intros Hlen Hcrc. rewrite Read_frameWith by done.
  unfold util.VerifyChecksum. rewrite bool_decide_false by done.
  reflexivity.
Qed.

(** A whole frame with the right checksum whose data does not parse. *)
Lemma Read_unparsable (data rest : list byte) (offset : Z) (e : error) :
  Z.of_nat (length data) < 4294967296 →
  Unmarshal data = inl e →
  Read (mkSegmentReader (frame data ++ rest) offset)
  = (inl (Errorf "failed to unmarshal record" e),
     mkSegmentReader rest offset).
Proof.
  intros Hlen Hbad. rewrite frame_frameWith, Read_frameWith by done.
  unfold util.VerifyChecksum. rewrite uint32_Checksum.
  rewrite bool_decide_true by done. simpl. by rewrite Hbad.
Qed.

Lemma Read_eof (offset : Z) :
  Read (mkSegmentReader [] offset) = (inl io_EOF, mkSegmentReader [] offset).
Proof. reflexivity. Qed.

(** A frame cut short: [Read] fails with a read error, which is neither
    [io.EOF] nor [ErrCorruptedData]. *)
Lemma Read_torn (crc : Z) (data torn : list byte) (offset : Z) :
  Z.of_nat (length data) < 4294967296 →
  torn `prefix_of` frameWith crc data → torn ≠ frameWith crc data →
  torn ≠ [] →
  ∃ msg err u,
    Read (mkSegmentReader torn offset)
    = (inl (Errorf msg err), mkSegmentReader u offset).
Proof.
  intros Hlen [rest Hrest] Hne Hnil.
  assert (Hrest0 : rest ≠ []).
  { intros ->. rewrite app_nil_r in Hrest. by subst. }
  assert (Hlt : (length torn < length (frameWith crc data))%nat).
  { rewrite Hrest, length_app. destruct rest; [done|simpl; lia]. }
  destruct (decide (length torn < 4)%nat) as [H4|H4].
  { destruct (ReadFull_short 4 torn H4) as (err & Hrf & _ & Heof).
    exists "failed to read length"%string, err. eexists.
    unfold Read. cbn [rd_unread rd_offset]. rewrite Hrf.
    destruct (decide (err = io_EOF)) as [He|He]; [by apply Heof in He|].
    reflexivity. }
  (* the length field is complete *)
  assert (H1 : ReadFull 4 torn
    = (inr (LittleEndian.PutUint32 (uint32 (Z.of_nat (length data)))),
       drop 4 torn)).
  { rewrite <- (take_drop 4 torn) at 1. rewrite <- ReadFull_word. f_equal.
    f_equal. apply (f_equal (take 4)) in Hrest.
    rewrite take_app_le in Hrest by lia. rewrite <- Hrest. reflexivity. }
  destruct (decide (length (drop 4 torn) < 4)%nat) as [H8|H8].
  { destruct (ReadFull_short 4 _ H8) as (err & Hrf & _ & _).
    exists "failed to read checksum"%string, err. eexists.
    unfold Read. cbn [rd_unread rd_offset]. rewrite H1, Hrf. reflexivity. }
  assert (H2 : ReadFull 4 (drop 4 torn)
    = (inr (LittleEndian.PutUint32 crc), drop 4 (drop 4 torn))).
  { rewrite <- (take_drop 4 (drop 4 torn)) at 1. rewrite <- ReadFull_word.
    f_equal. f_equal. apply (f_equal (λ l, take 4 (drop 4 l))) in Hrest.
    rewrite length_drop in H8.
    rewrite drop_app_le, take_app_le in Hrest
      by (rewrite ?length_drop; lia).
    rewrite <- Hrest. reflexivity. }
  assert (Hshort : (length (drop 4 (drop 4 torn)) < length data)%nat).
  { rewrite length_drop in H8. rewrite !length_drop. unfold frameWith in Hlt.
    rewrite !length_app, !length_PutUint32 in Hlt. lia. }
  destruct (ReadFull_short _ _ Hshort) as (err & Hrf & _ & _).
  exists "failed to read data"%string, err. eexists.
  unfold Read. cbn [rd_unread rd_offset]. rewrite H1.
  rewrite Uint32_PutUint32_nil, uint32_idemp, uint32_small, Nat2Z.id by lia.
  rewrite H2, Hrf. reflexivity.
Qed.

(** A successful [Read] uses up at least the eight bytes of a header. *)
Lemma Read_consumes (reader reader' : SegmentReader) (record : Record_) :
  Read reader = (inr record, reader') →
  (length (rd_unread reader') + 8 ≤ length (rd_unread reader))%nat.
Proof.
  unfold Read.
  assert (Hrf : ∀ n l x u, ReadFull n l = (inr x, u) →
    (length u + n = length l)%nat).
  { intros n l x u. unfold ReadFull.
    repeat (destruct (decide _)); intros [= <- <-];
      rewrite ?length_drop; lia. }
  destruct (ReadFull 4 (rd_unread reader)) as [[e1|b1] u1] eqn:H1.
  { destruct (decide _); discriminate. }
  destruct (ReadFull 4 u1) as [[e2|b2] u2] eqn:H2; [discriminate|].
  destruct (ReadFull _ u2) as [[e3|b3] u3] eqn:H3; [discriminate|].
  apply Hrf in H1, H2, H3.
  destruct (negb _); [discriminate|].
  destruct (Unmarshal b3); [discriminate|].
  intros [= _ <-]. simpl. lia.
Qed.

Section Loop.

Context {St : Type} (callback : Callback St).

(** The loop over one segment comes to an end within the fuel [Replay]
    gives it, whenever the callback returns. *)
Lemma readSegment_total (fuel : nat) (reader : SegmentReader) (st : St) :
  (∀ record st, is_Some (callback record st)) →
  (length (rd_unread reader) < fuel)%nat →
  is_Some (readSegment fuel callback reader st).
Proof.
  intros Hcb. revert reader st.
  induction fuel as [|fuel IH]; intros reader st Hlt; [lia|].
  simpl. destruct (Read reader) as [[err|record] reader'] eqn:Hread.
  - repeat (destruct (decide _)); eauto.
  - destruct (Hcb record st) as [[[err|] st'] ->]; [eauto|].
    apply IH. apply Read_consumes in Hread. lia.
Qed.

Lemma replaySegments_total (segs : list Segment) (st : St) :
  (∀ record st, is_Some (callback record st)) →
  is_Some (replaySegments callback segs st).
Proof.
  intros Hcb. revert st. induction segs as [|s segs IH]; intros st;
    cbn [replaySegments]; [eauto|].
  destruct (readSegment_total (S (length (seg_file s)))
    (NewSegmentReader s) st Hcb) as [[[err|] st'] ->]; [simpl; lia|eauto|].
  apply IH.
Qed.

Lemma length_frames (bodies : list (list byte)) :
  (8 * length bodies ≤ length (frames bodies))%nat.
Proof.
  induction bodies as [|d bodies IH]; [simpl; lia|].
  change (frames (d :: bodies)) with (frame d ++ frames bodies).
  unfold frame. rewrite !length_app, !length_PutUint32.
  cbn [length] in *. lia.
Qed.

(** Reading through a run of good frames whose records the callback
    accepts. *)
Lemma readSegment_frames (bodies : list (list byte)) (records : list Record_)
    (rest : list byte) (fuel : nat) (offset : Z) (st st' : St) :
  Forall2 decodes bodies records →
  deliver callback records st = Some (None, st') →
  ∃ offset',
    readSegment (length bodies + fuel) callback
      (mkSegmentReader (frames bodies ++ rest) offset) st
    = readSegment fuel callback (mkSegmentReader rest offset') st'.
Proof.
  intros Hdec. revert offset st.
  induction Hdec as [|d r bodies records Hd _ IH]; intros offset st Hdel.
  - injection Hdel as <-. eauto.
  - simpl in Hdel.
    destruct (callback r st) as [[[err|] st1]|] eqn:Hcb; [done| |done].
    destruct (IH (offset + (8 + Z.of_nat (length d))) st1 Hdel)
      as [offset' Hrun].
    exists offset'. rewrite <- Hrun.
    change (frames (d :: bodies)) with (frame d ++ frames bodies).
    cbn [length Nat.add readSegment].
    rewrite <- app_assoc, (Read_frame d _ r) by done.
    rewrite Hcb. reflexivity.
Qed.

(** Reading up to the frame whose record the callback refuses. *)
Lemma readSegment_callback_error (bodies : list (list byte))
    (records : list Record_) (rest : list byte) (fuel : nat) (offset : Z)
    (st st' : St) (err : error) :
  Forall2 decodes bodies records →
  deliver callback records st = Some (Some err, st') →
  (length bodies ≤ fuel)%nat →
  readSegment fuel callback
    (mkSegmentReader (frames bodies ++ rest) offset) st
  = Some (Some (Errorf "callback failed" err), st').
Proof.
  intros Hdec. revert offset st fuel.
  induction Hdec as [|d r bodies records Hd _ IH];
    intros offset st fuel Hdel Hfuel; [done|].
  destruct fuel as [|fuel]; [simpl in Hfuel; lia|].
  change (frames (d :: bodies)) with (frame d ++ frames bodies).
  cbn [readSegment]. rewrite <- app_assoc, (Read_frame d _ r) by done.
  simpl in Hdel.
  destruct (callback r st) as [[[err1|] st1]|] eqn:Hcb; [|
    |done].
  - by injection Hdel as <- <-.
  - apply IH; [done|]. simpl in Hfuel. lia.
Qed.

End Loop.

End Reading.

(** ** The order of the ready structure *)

Section Order.

Import queue.

Lemma jobLess_spec (a b : Job) :
  jobLess a b = true ↔
  Priority a > Priority b
  ∨ (Priority a = Priority b
     ∧ (ETA a < ETA b ∨ (ETA a = ETA b ∧ EnqueuedAt a < EnqueuedAt b))).
Proof.
  unfold jobLess, time.Equal, time.Before.
  repeat case_bool_decide; simpl; split; intros; try done; lia.
Qed.

Lemma jobLess_false (a b : Job) :
  jobLess a b = false ↔
  Priority a < Priority b
  ∨ (Priority a = Priority b
     ∧ (ETA a > ETA b ∨ (ETA a = ETA b ∧ EnqueuedAt a >= EnqueuedAt b))).
Proof.
  rewrite <- not_true_iff_false, jobLess_spec. lia.
Qed.

Lemma jobLess_irrefl (a : Job) : jobLess a a = false.
Proof. apply jobLess_false. lia. Qed.

Lemma jobLess_asym (a b : Job) : jobLess a b = true → jobLess b a = false.
Proof. rewrite jobLess_spec, jobLess_false. lia. Qed.

Lemma jobLess_trans (a b c : Job) :
  jobLess a b = true → jobLess b c = true → jobLess a c = true.
Proof. rewrite !jobLess_spec. lia. Qed.

(** "Does not come before" is transitive as well. *)
Lemma jobLess_false_trans (a b c : Job) :
  jobLess b a = false → jobLess c b = false → jobLess c a = false.
Proof. rewrite !jobLess_false. lia. Qed.

Lemma jobLess_true_false_trans (a b c : Job) :
  jobLess a b = true → jobLess c b = false → jobLess c a = false.
Proof. rewrite jobLess_spec, !jobLess_false. lia. Qed.

(** Two jobs are left unordered exactly when the three keys agree. *)
Lemma jobLess_undecided (a b : Job) :
  jobLess a b = false ∧ jobLess b a = false ↔ sameKeys a b.
Proof. unfold sameKeys. rewrite !jobLess_false. lia. Qed.

End Order.

(** ** Heap order on lists of jobs *)

Section HeapOrder.

Import queue.

Lemma parent_lt (k : nat) : (0 < k)%nat → (parent k < k)%nat.
Proof.
  unfold parent. intros Hk.
  pose proof (Nat.div_mod_eq (k - 1) 2).
  pose proof (Nat.mod_upper_bound (k - 1) 2). lia.
Qed.

Lemma parent_child (i k : nat) :
  (0 < k)%nat → parent k = i ↔ (k = 2 * i + 1 ∨ k = 2 * i + 2)%nat.
Proof.
  unfold parent. intros Hk.
  pose proof (Nat.div_mod_eq (k - 1) 2).
  pose proof (Nat.mod_upper_bound (k - 1) 2). lia.
Qed.

Lemma parent_0 : parent 0 = 0%nat.
Proof. reflexivity. Qed.

Lemma swapJobs_lookup (js : list Job) (i j k : nat) (a b : Job) :
  js !! i = Some a → js !! j = Some b →
  swapJobs js i j !! k
  = if decide (k = j) then Some a
    else if decide (k = i) then Some b else js !! k.
Proof.
  intros Hi Hj. unfold swapJobs. rewrite Hi, Hj.
  apply lookup_lt_Some in Hi as Hli. apply lookup_lt_Some in Hj as Hlj.
  destruct (decide (k = j)) as [->|Hkj].
  - rewrite list_lookup_insert_eq by (rewrite length_insert; lia). done.
  - rewrite list_lookup_insert_ne by done.
    destruct (decide (k = i)) as [->|Hki].
    + by rewrite list_lookup_insert_eq by lia.
    + by rewrite list_lookup_insert_ne by done.
Qed.

Lemma swapJobs_length (js : list Job) (i j : nat) :
  length (swapJobs js i j) = length js.
Proof.
  unfold swapJobs. destruct (js !! i), (js !! j); try done.
  by rewrite !length_insert.
Qed.

Lemma upInv_root (n : nat) (js : list Job) : upInv n js 0 → heapOrdered n js.
Proof. intros [Ha _] k Hk. apply Ha; lia. Qed.

Lemma upInv_done (n : nat) (js : list Job) (j : nat) :
  upInv n js j → ordAt js (parent j) j → heapOrdered n js.
Proof.
  intros [Ha _] Hj k Hk. destruct (decide (k = j)) as [->|Hne]; [done|].
  by apply Ha.
Qed.

(** One round of [up]: the job at [j] comes before its parent and the
    two change places. *)
Lemma upInv_step (n : nat) (js : list Job) (j : nat) (a b : Job) :
  upInv n js j → (0 < j < n)%nat →
  js !! j = Some a → js !! parent j = Some b → jobLess a b = true →
  upInv n (swapJobs js (parent j) j) (parent j).
Proof.
  intros [Ha Hb] Hj Hja Hjb Hless.
  pose proof (parent_lt j (proj1 Hj)) as Hpj.
  assert (Hlook := λ k, swapJobs_lookup js (parent j) j k b a Hjb Hja).
  split.
  - intros k Hk Hki x y. rewrite !Hlook.
    pose proof (parent_lt k (proj1 Hk)) as Hpk.
    destruct (decide (k = j)) as [->|Hkj].
    + rewrite decide_False, decide_True by lia.
      intros [= <-] [= <-]. by apply jobLess_asym.
    + rewrite (decide_False (P := k = parent j)) by done.
      destruct (decide (parent k = j)) as [Hpkj|Hpkj].
      * intros [= <-] Hy. apply (Hb k Hk Hpkj ltac:(lia) b y); done.
      * destruct (decide (parent k = parent j)) as [Hpp|Hpp].
        -- intros [= <-] Hy.
           eapply jobLess_true_false_trans; [exact Hless|].
           apply (Ha k Hk Hkj b y); [by rewrite Hpp | done].
        -- intros Hx Hy. by apply (Ha k Hk Hkj x y).
  - intros k Hk Hpk Hi0 x y. rewrite !Hlook.
    assert (0 < parent j)%nat as Hpj0 by lia.
    pose proof (parent_lt (parent j) Hpj0) as Hppj.
    rewrite (decide_False (P := parent (parent j) = j)) by lia.
    rewrite (decide_False (P := parent (parent j) = parent j)) by lia.
    intros Hx.
    assert (Hbx : jobLess b x = false).
    { apply (Ha (parent j) ltac:(lia) ltac:(lia) x b); done. }
    destruct (decide (k = j)) as [->|Hkj]; [by intros [= <-]|].
    rewrite decide_False by (pose proof (parent_lt k (proj1 Hk)); lia).
    intros Hy. eapply jobLess_false_trans; [exact Hbx|].
    apply (Ha k Hk Hkj b y); [by rewrite Hpk | done].
Qed.

(** Appending at the end of a heap leaves one job to move up. *)
Lemma upInv_append (js : list Job) (x : Job) :
  heapOrdered (length js) js →
  upInv (S (length js)) (js ++ [x]) (length js).
Proof.
  intros Hord. split.
  - intros k Hk Hne a b Ha Hb.
    pose proof (parent_lt k (proj1 Hk)).
    rewrite lookup_app_l in Ha, Hb by lia.
    apply (Hord k ltac:(lia) a b); done.
  - intros k Hk Hpk _. apply parent_child in Hpk; lia.
Qed.

Lemma downInv_no_child (n : nat) (js : list Job) (i : nat) :
  downInv n js i → (n ≤ 2 * i + 1)%nat → upInv n js i.
Proof.
  intros [Ha Hb] Hn. split; [|done].
  intros k Hk Hki. apply Ha; [done..|].
  intros Hpk. apply parent_child in Hpk; lia.
Qed.

Lemma downInv_done (n : nat) (js : list Job) (i j : nat) :
  (n ≤ length js)%nat →
  downInv n js i → bestChild n js i j → ordAt js i j → upInv n js i.
Proof.
  intros Hlen [Ha Hb] (Hjn & Hpj & Hj0 & Hbest) Hij. split; [|done].
  intros k Hk Hki. destruct (decide (parent k = i)) as [Hpk|Hpk].
  - rewrite Hpk. intros a c Hia Hkc.
    destruct (js !! j) as [b|] eqn:Hjb.
    + eapply jobLess_false_trans; [by apply (Hij a b)|].
      by apply (Hbest k Hk Hpk b c).
    + apply lookup_ge_None in Hjb. lia.
  - by apply Ha.
Qed.

(** One round of [down]: the best child comes before the job at [i] and
    the two change places. *)
Lemma downInv_step (n : nat) (js : list Job) (i j : nat) (a b : Job) :
  downInv n js i → bestChild n js i j →
  js !! i = Some a → js !! j = Some b → jobLess b a = true →
  downInv n (swapJobs js i j) j ∧ ordAt (swapJobs js i j) (parent j) j.
Proof.
  intros [Ha Hb] (Hjn & Hpj & Hj0 & Hbest) Hia Hjb Hless.
  pose proof (parent_lt j Hj0) as Hij. rewrite Hpj in Hij.
  assert (Hlook := λ k, swapJobs_lookup js i j k a b Hia Hjb).
  split; [split|].
  - intros k Hk Hkj Hpkj x y. rewrite !Hlook.
    pose proof (parent_lt k (proj1 Hk)) as Hpk.
    rewrite (decide_False (P := parent k = j)) by done.
    rewrite (decide_False (P := k = j)) by done.
    destruct (decide (k = i)) as [->|Hki].
    + rewrite decide_False by lia. intros Hx [= <-].
      apply (Hb j ltac:(lia) Hpj ltac:(lia) x b); done.
    + destruct (decide (parent k = i)) as [Hpki|Hpki].
      * intros [= <-] Hy. by apply (Hbest k Hk Hpki b y).
      * intros Hx Hy. by apply (Ha k Hk Hki Hpki x y).
  - intros k Hk Hpk _ x y. rewrite !Hlook. rewrite Hpj.
    pose proof (parent_lt k (proj1 Hk)) as Hpk'.
    rewrite decide_False, decide_True by lia.
    rewrite (decide_False (P := k = j)), (decide_False (P := k = i)) by lia.
    intros [= <-] Hy.
    apply (Ha k Hk ltac:(lia) ltac:(lia) b y); [by rewrite Hpk | done].
  - intros x y. rewrite !Hlook, Hpj.
    rewrite decide_False, !decide_True by lia.
    intros [= <-] [= <-]. by apply jobLess_asym.
Qed.

(** Heap order only concerns the positions it is about. *)
Lemma heapOrdered_take (n : nat) (js : list Job) :
  heapOrdered n js → heapOrdered n (take n js).
Proof.
  intros Hord k Hk a b Ha Hb.
  pose proof (parent_lt k (proj1 Hk)).
  rewrite lookup_take_lt in Ha, Hb by lia. by apply (Hord k Hk).
Qed.

Lemma heapOrdered_le (n n' : nat) (js : list Job) :
  (n' ≤ n)%nat → heapOrdered n js → heapOrdered n' js.
Proof. intros Hle Hord k Hk. apply Hord. lia. Qed.

(** The root of a heap is not beaten by any job in it. *)
Lemma heapOrdered_root (n : nat) (js : list Job) (top x : Job) (k : nat) :
  heapOrdered n js → (n ≤ length js)%nat → (k < n)%nat →
  js !! 0%nat = Some top → js !! k = Some x → jobLess x top = false.
Proof.
  intros Hord Hn. revert x.
  induction k as [k IH] using lt_wf_ind. intros x Hk Htop Hx.
  destruct (decide (k = 0%nat)) as [->|Hk0].
  - rewrite Htop in Hx. injection Hx as <-. apply jobLess_irrefl.
  - pose proof (parent_lt k ltac:(lia)) as Hpk.
    destruct (js !! parent k) as [p|] eqn:Hp.
    + eapply jobLess_false_trans; [apply (IH (parent k)); [lia..|done|done]|].
      apply (Hord k ltac:(lia) p x); done.
    + apply lookup_ge_None in Hp. lia.
Qed.

End HeapOrder.

(** ** The heap in memory *)

Section HeapCells.

Import queue.

Lemma omap_lookup_total {A B} (f : A → option B) (l : list A) (k : nat) :
  Forall (λ x, is_Some (f x)) l → omap f l !! k = l !! k ≫= f.
Proof.
  intros Hall. revert k. induction Hall as [|x l [y Hy] _ IH]; intros k.
  - done.
  - simpl. rewrite Hy. destruct k as [|k]; simpl; [done|]. apply IH.
Qed.

Lemma omap_length_total {A B} (f : A → option B) (l : list A) :
  Forall (λ x, is_Some (f x)) l → length (omap f l) = length l.
Proof.
  induction 1 as [|x l [y Hy] _ IH]; simpl; [done|]. rewrite Hy. simpl.
  f_equal. exact IH.
Qed.

Lemma heap_wf_cells (h : jobHeap) :
  heap_wf h → Forall (λ l, is_Some (job <$> cells h !! l)) (slice h).
Proof.
  intros Hwf. apply Forall_lookup. intros i l Hl.
  destruct (Hwf i l Hl) as (it & -> & _). by eexists.
Qed.

Lemma heapJobs_lookup (h : jobHeap) (k : nat) :
  heap_wf h → heapJobs h !! k = job <$> JobHeap.item h k.
Proof.
  intros Hwf. unfold heapJobs, JobHeap.item.
  rewrite omap_lookup_total by by apply heap_wf_cells.
  by destruct (slice h !! k).
Qed.

Lemma heapJobs_length (h : jobHeap) :
  heap_wf h → length (heapJobs h) = length (slice h).
Proof. intros Hwf. by apply omap_length_total, heap_wf_cells. Qed.

Lemma heap_wf_NoDup (h : jobHeap) : heap_wf h → NoDup (slice h).
Proof.
  intros Hwf. apply NoDup_alt. intros i j l Hi Hj.
  destruct (Hwf i l Hi) as (it & Hit & Hidx).
  destruct (Hwf j l Hj) as (it' & Hit' & Hidx').
  rewrite Hit in Hit'. injection Hit' as <-. lia.
Qed.

Lemma sameItems_refl (h : jobHeap) : sameItems h h.
Proof. by split. Qed.

Lemma sameItems_trans (h1 h2 h3 : jobHeap) :
  sameItems h1 h2 → sameItems h2 h3 → sameItems h1 h3.
Proof.
  intros [Hp1 Hc1] [Hp2 Hc2]. split.
  - by rewrite Hp2.
  - intros l. by rewrite Hc2.
Qed.

Lemma heapJobs_ext (cs cs' : gmap loc jobHeapItem) (sl : list loc) :
  (∀ l, job <$> cs' !! l = job <$> cs !! l) →
  heapJobs (mkHeap cs' sl) = heapJobs (mkHeap cs sl).
Proof.
  intros Hc. unfold heapJobs. simpl.
  induction sl as [|l sl IH]; simpl; [done|]. rewrite Hc.
  destruct (job <$> cs !! l); simpl; [f_equal|]; exact IH.
Qed.

Lemma sameItems_heapJobs (h h' : jobHeap) :
  sameItems h h' → heapJobs h' ≡ₚ heapJobs h.
Proof.
  intros [Hp Hc]. destruct h as [cs sl], h' as [cs' sl']. simpl in *.
  rewrite (heapJobs_ext cs cs' sl') by done.
  unfold heapJobs. simpl. by rewrite Hp.
Qed.

Lemma Less_spec (h : jobHeap) (i j : nat) (a b : Job) :
  heap_wf h → heapJobs h !! i = Some a → heapJobs h !! j = Some b →
  JobHeap.Less h i j = Some (jobLess a b).
Proof.
  intros Hwf. rewrite !heapJobs_lookup by done. unfold JobHeap.Less.
  destruct (JobHeap.item h i) as [x|]; [|done].
  destruct (JobHeap.item h j) as [y|]; [|done].
  by intros [= <-] [= <-].
Qed.

Lemma lookup_setIndex (l l' : loc) (i : Z) (m : gmap loc jobHeapItem) :
  setIndex l i m !! l'
  = if decide (l = l') then (λ it, mkItem (job it) i) <$> m !! l
    else m !! l'.
Proof. unfold setIndex. apply lookup_alter. Qed.

Lemma job_setIndex (l l' : loc) (i : Z) (m : gmap loc jobHeapItem) :
  job <$> setIndex l i m !! l' = job <$> m !! l'.
Proof.
  rewrite lookup_setIndex. destruct (decide (l = l')) as [->|]; [|done].
  by destruct (m !! l').
Qed.

(** [Swap] on two positions of the heap. *)
Lemma Swap_spec (h : jobHeap) (i j : nat) :
  heap_wf h → (i < JobHeap.Len h)%nat → (j < JobHeap.Len h)%nat →
  ∃ h', JobHeap.Swap h i j = Some h'
    ∧ heap_wf h' ∧ sameItems h h'
    ∧ heapJobs h' = swapJobs (heapJobs h) i j
    ∧ slice h' !! i = slice h !! j
    ∧ slice h' !! j = slice h !! i
    ∧ ∀ k, k ≠ i → k ≠ j → slice h' !! k = slice h !! k.
Proof.
  intros Hwf Hi Hj. unfold JobHeap.Len in *.
  destruct (lookup_lt_is_Some_2 _ _ Hi) as [li Hli].
  destruct (lookup_lt_is_Some_2 _ _ Hj) as [lj Hlj].
  unfold JobHeap.Swap. rewrite Hli, Hlj. simpl.
  eexists. split; [reflexivity|].
  set (cs' := setIndex li (Z.of_nat j) (setIndex lj (Z.of_nat i) (cells h))).
  set (sl' := <[j := li]> (<[i := lj]> (slice h))).
  assert (Hsl : ∀ k, sl' !! k
    = if decide (k = j) then Some li
      else if decide (k = i) then Some lj else slice h !! k).
  { intros k. unfold sl'. destruct (decide (k = j)) as [->|Hkj].
    - by rewrite list_lookup_insert_eq by (rewrite length_insert; lia).
    - rewrite list_lookup_insert_ne by done.
      destruct (decide (k = i)) as [->|Hki].
      + by rewrite list_lookup_insert_eq by lia.
      + by rewrite list_lookup_insert_ne by done. }
  assert (Hinj : ∀ k k' l, slice h !! k = Some l → slice h !! k' = Some l →
    k = k').
  { apply NoDup_alt, heap_wf_NoDup, Hwf. }
  assert (Hwf' : heap_wf (mkHeap cs' sl')).
  { intros k l. simpl. rewrite Hsl. unfold cs'.
    destruct (decide (k = j)) as [->|Hkj].
    - intros [= <-]. rewrite lookup_setIndex, decide_True by done.
      rewrite lookup_setIndex.
      destruct (Hwf _ _ Hli) as (it & Hit & _).
      destruct (decide (lj = li)) as [Heq|Hne]; [rewrite Heq|];
        rewrite Hit; simpl; eauto.
    - destruct (decide (k = i)) as [->|Hki].
      + intros [= <-]. rewrite lookup_setIndex.
        rewrite decide_False by (intros ->; eauto).
        rewrite lookup_setIndex, decide_True by done.
        destruct (Hwf _ _ Hlj) as (it & -> & _). simpl. eauto.
      + intros Hk. rewrite !lookup_setIndex.
        rewrite !decide_False by (intros ->; eauto).
        by apply Hwf. }
  assert (Hsame : sameItems h (mkHeap cs' sl')).
  { split; simpl.
    - apply NoDup_Permutation.
      + by apply (heap_wf_NoDup (mkHeap cs' sl')).
      + by apply heap_wf_NoDup.
      + intros l. rewrite !list_elem_of_lookup. split.
        * intros [k Hk]. rewrite Hsl in Hk.
          repeat case_decide; simplify_eq; eauto.
        * intros [k Hk].
          destruct (decide (k = i)) as [->|Hki].
          { exists j. rewrite Hsl, decide_True by done. congruence. }
          destruct (decide (k = j)) as [->|Hkj].
          { exists i. rewrite Hsl. rewrite Hlj in Hk.
            case_decide; [congruence|]. rewrite decide_True by done. done. }
          exists k. rewrite Hsl. by rewrite !decide_False by done.
    - intros l. unfold cs'. by rewrite !job_setIndex. }
  split; [done|]. split; [done|].
  split.
  { apply list_eq. intros k.
    assert (Hja : heapJobs h !! i = job <$> cells h !! li).
    { rewrite heapJobs_lookup by done. unfold JobHeap.item. by rewrite Hli. }
    assert (Hjb : heapJobs h !! j = job <$> cells h !! lj).
    { rewrite heapJobs_lookup by done. unfold JobHeap.item. by rewrite Hlj. }
    destruct (Hwf _ _ Hli) as (iti & Hiti & _).
    destruct (Hwf _ _ Hlj) as (itj & Hitj & _).
    rewrite Hiti in Hja. rewrite Hitj in Hjb.
    rewrite (swapJobs_lookup _ _ _ _ _ _ Hja Hjb).
    rewrite heapJobs_lookup by done. unfold JobHeap.item. simpl.
    rewrite Hsl. unfold cs'.
    destruct (decide (k = j)) as [->|Hkj]; simpl.
    - by rewrite !job_setIndex, Hiti.
    - destruct (decide (k = i)) as [->|Hki]; simpl.
      + by rewrite !job_setIndex, Hitj.
      + rewrite heapJobs_lookup by done. unfold JobHeap.item.
        destruct (slice h !! k) as [l|]; simpl; [|done].
        by rewrite !job_setIndex. }
  simpl. rewrite !Hsl.
  split; [|split].
  - destruct (decide (i = j)) as [->|]; [congruence|].
    by rewrite decide_True by done.
  - by rewrite decide_True by done.
  - intros k Hki Hkj. rewrite Hsl. by rewrite !decide_False by done.
Qed.

End HeapCells.

(** ** [up] and [down] *)

Section Sifting.

Import queue.

Lemma heapJobs_lookup_lt (h : jobHeap) (k : nat) :
  heap_wf h → (k < JobHeap.Len h)%nat → ∃ a, heapJobs h !! k = Some a.
Proof.
  intros Hwf Hk. apply lookup_lt_is_Some_2.
  by rewrite heapJobs_length.
Qed.

Lemma sameItems_Len (h h' : jobHeap) :
  sameItems h h' → JobHeap.Len h' = JobHeap.Len h.
Proof. intros [Hp _]. unfold JobHeap.Len. by rewrite Hp. Qed.

(** [up] ends, stays within the heap and restores the order. *)
Lemma up_loop_spec (fuel : nat) (h : jobHeap) (j n : nat) :
  heap_wf h → (j < fuel)%nat → (j < n ≤ JobHeap.Len h)%nat →
  upInv n (heapJobs h) j →
  ∃ h', Heap.up_loop fuel h j = Some h'
    ∧ heap_wf h' ∧ sameItems h h'
    ∧ heapOrdered n (heapJobs h')
    ∧ ∀ k, (j < k)%nat → slice h' !! k = slice h !! k.
Proof.
  revert h j. induction fuel as [|fuel IH]; intros h j Hwf Hfuel Hj Hinv;
    [lia|].
  cbn [Heap.up_loop]. change ((j - 1) / 2)%nat with (parent j).
  destruct (decide (parent j = j)) as [Hroot|Hnroot].
  { exists h. split; [done|]. split; [done|]. split; [apply sameItems_refl|].
    split; [|done].
    assert (j = 0)%nat as ->.
    { destruct (decide (j = 0)%nat); [done|].
      pose proof (parent_lt j ltac:(lia)). lia. }
    by apply upInv_root. }
  assert (0 < j)%nat as Hj0 by (destruct j; [done|lia]).
  pose proof (parent_lt j Hj0) as Hpj.
  destruct (heapJobs_lookup_lt h j Hwf ltac:(lia)) as [a Ha].
  destruct (heapJobs_lookup_lt h (parent j) Hwf ltac:(lia)) as [b Hb].
  rewrite (Less_spec h j (parent j) a b) by done. simpl.
  destruct (jobLess a b) eqn:Hless; simpl.
  - destruct (Swap_spec h (parent j) j Hwf ltac:(lia) ltac:(lia))
      as (h1 & -> & Hwf1 & Hsame1 & Hjobs1 & _ & _ & Hrest1).
    simpl.
    destruct (IH h1 (parent j) Hwf1 ltac:(lia))
      as (h' & -> & Hwf' & Hsame' & Hord' & Hrest').
    + rewrite (sameItems_Len h h1) by done. lia.
    + rewrite Hjobs1. apply (upInv_step n _ j a b); [done|lia|done..].
    + exists h'. split; [done|]. split; [done|].
      split; [by eapply sameItems_trans|]. split; [done|].
      intros k Hk. rewrite Hrest' by lia. apply Hrest1; lia.
  - exists h. split; [done|]. split; [done|]. split; [apply sameItems_refl|].
    split; [|done].
    eapply upInv_done; [done|]. intros x y Hx Hy.
    rewrite Hb in Hx. rewrite Ha in Hy. by simplify_eq.
Qed.

(** [down] ends and stays within the first [n] positions; afterwards the
    order holds but for the final position and its parent, and for these
    too if the job has moved. *)
Lemma down_loop_spec (fuel : nat) (h : jobHeap) (i n : nat) (moved : Prop) :
  heap_wf h → (n - i < fuel)%nat → (n ≤ JobHeap.Len h)%nat →
  downInv n (heapJobs h) i →
  (moved → ordAt (heapJobs h) (parent i) i) →
  ∃ h' i', Heap.down_loop fuel h i n = Some (h', i')
    ∧ heap_wf h' ∧ sameItems h h' ∧ (i ≤ i')%nat
    ∧ upInv n (heapJobs h') i'
    ∧ (moved ∨ (i < i')%nat → ordAt (heapJobs h') (parent i') i')
    ∧ ∀ k, (n ≤ k ∨ k < i)%nat → slice h' !! k = slice h !! k.
Proof.
  revert h i moved.
  induction fuel as [|fuel IH]; intros h i moved Hwf Hfuel Hn Hinv Hmoved;
    [lia|].
  cbn [Heap.down_loop].
  pose proof (heapJobs_length h Hwf) as Hlen. unfold JobHeap.Len in Hn.
  destruct (decide (n ≤ 2 * i + 1)%nat) as [Hleaf|Hchild].
  { exists h, i. split; [done|]. split; [done|]. split; [apply sameItems_refl|].
    split; [lia|]. split; [by apply downInv_no_child|].
    split; [|done]. intros [Hm|Hlt]; [by apply Hmoved | lia]. }
  set (j1 := (2 * i + 1)%nat) in *.
  assert (Hj1 : j1 = (2 * i + 1)%nat) by done. clearbody j1.
  destruct (heapJobs_lookup_lt h i Hwf ltac:(unfold JobHeap.Len; lia))
    as [a Ha].
  destruct (heapJobs_lookup_lt h j1 Hwf ltac:(unfold JobHeap.Len; lia))
    as [c1 Hc1].
  (* the child the loop picks *)
  assert (Hpick : ∃ j b,
    (if decide (j1 + 1 < n)%nat then JobHeap.Less h (j1 + 1) j1
     else Some false) = Some (bool_decide (j = j1 + 1)%nat)
    ∧ (j = j1 ∨ j = j1 + 1)%nat
    ∧ heapJobs h !! j = Some b ∧ bestChild n (heapJobs h) i j).
  { assert (Hp1 : parent j1 = i) by (apply parent_child; lia).
    assert (Hkids : ∀ k, (0 < k < n)%nat → parent k = i →
      k = j1 ∨ (k = j1 + 1 ∧ j1 + 1 < n)%nat).
    { intros k Hk Hpk. apply parent_child in Hpk; lia. }
    destruct (decide (j1 + 1 < n)%nat) as [Hright|Hnoright].
    - destruct (heapJobs_lookup_lt h (j1 + 1) Hwf
        ltac:(unfold JobHeap.Len; lia)) as [c2 Hc2].
      rewrite (Less_spec h (j1 + 1) j1 c2 c1) by done.
      destruct (jobLess c2 c1) eqn:Hless.
      + exists (j1 + 1)%nat, c2. rewrite bool_decide_true by done.
        split; [done|]. split; [lia|]. split; [done|].
        split; [lia|]. split; [apply parent_child; lia|]. split; [lia|].
        intros k Hk Hpk x y Hx Hy. rewrite Hc2 in Hx. injection Hx as <-.
        destruct (Hkids k Hk Hpk) as [->|[-> _]].
        * rewrite Hc1 in Hy. injection Hy as <-. by apply jobLess_asym.
        * rewrite Hc2 in Hy. injection Hy as <-. apply jobLess_irrefl.
      + exists j1, c1. rewrite bool_decide_false by lia.
        split; [done|]. split; [lia|]. split; [done|].
        split; [lia|]. split; [done|]. split; [lia|].
        intros k Hk Hpk x y Hx Hy. rewrite Hc1 in Hx. injection Hx as <-.
        destruct (Hkids k Hk Hpk) as [->|[-> _]].
        * rewrite Hc1 in Hy. injection Hy as <-. apply jobLess_irrefl.
        * rewrite Hc2 in Hy. by injection Hy as <-.
    - exists j1, c1. rewrite bool_decide_false by lia.
      split; [done|]. split; [lia|]. split; [done|].
      split; [lia|]. split; [done|]. split; [lia|].
      intros k Hk Hpk x y Hx Hy. rewrite Hc1 in Hx. injection Hx as <-.
      destruct (Hkids k Hk Hpk) as [->|[-> ?]]; [|lia].
      rewrite Hc1 in Hy. injection Hy as <-. apply jobLess_irrefl. }
  destruct Hpick as (j & b & -> & Hj & Hb & Hbest). simpl.
  pose proof (proj1 Hbest) as Hjn.
  assert ((if bool_decide (j = (j1 + 1)%nat) then (j1 + 1)%nat else j1) = j)
    as ->.
  { case_bool_decide; lia. }
  rewrite (Less_spec h j i b a) by done. simpl.
  destruct (jobLess b a) eqn:Hless; simpl.
  - destruct (Swap_spec h i j Hwf ltac:(unfold JobHeap.Len; lia)
      ltac:(unfold JobHeap.Len; lia))
      as (h1 & -> & Hwf1 & Hsame1 & Hjobs1 & _ & _ & Hrest1).
    simpl.
    destruct (downInv_step n (heapJobs h) i j a b Hinv Hbest Ha Hb Hless)
      as [Hinv1 Hord1].
    rewrite <- Hjobs1 in Hinv1, Hord1.
    destruct (IH h1 j True Hwf1 ltac:(lia))
      as (h' & i' & -> & Hwf' & Hsame' & Hle' & Hup' & Hmoved' & Hrest');
      [|done|done|].
    { rewrite (sameItems_Len h h1) by done. done. }
    exists h', i'. split; [done|]. split; [done|].
    split; [by eapply sameItems_trans|]. split; [lia|]. split; [done|].
    split.
    + intros _. apply Hmoved'. by left.
    + intros k Hk. rewrite Hrest' by lia. apply Hrest1; lia.
  - exists h, i. split; [done|]. split; [done|]. split; [apply sameItems_refl|].
    split; [lia|]. split.
    + eapply downInv_done; [lia|done|done|].
      intros x y Hx Hy. rewrite Ha in Hx. rewrite Hb in Hy. by simplify_eq.
    + split; [|done]. intros [Hm|Hlt]; [by apply Hmoved | lia].
Qed.

End Sifting.

(** ** The invariant of the ready structure *)

Section PriorityQueue.

Import queue.

Lemma idAt_job (h : jobHeap) (l : loc) :
  idAt h l = ID <$> (job <$> cells h !! l).
Proof. unfold idAt. by destruct (cells h !! l). Qed.

Lemma sameItems_idAt (h h' : jobHeap) (l : loc) :
  sameItems h h' → idAt h' l = idAt h l.
Proof. intros [_ Hc]. by rewrite !idAt_job, Hc. Qed.

Lemma sameItems_elem (h h' : jobHeap) (l : loc) :
  sameItems h h' → l ∈ slice h' ↔ l ∈ slice h.
Proof. intros [Hp _]. by rewrite Hp. Qed.

Lemma pq_inv_new : pq_inv newPriorityQueue.
Proof.
  split; [|split; [|split]].
  - intros i l Hl. done.
  - intros k Hk. simpl in Hk. lia.
  - intros id l. simpl. rewrite lookup_empty. split; [done|].
    intros [Hl _]. by apply elem_of_nil in Hl.
  - intros l Hl. by apply elem_of_nil in Hl.
Qed.

(** The ids in the heap are the keys of [items]. *)
Lemma elem_of_jobs (pq : priorityQueue) (j : Job) :
  heap_wf (heap pq) →
  j ∈ jobs pq ↔
  ∃ l, l ∈ slice (heap pq) ∧ job <$> cells (heap pq) !! l = Some j.
Proof.
  intros Hwf. unfold jobs. rewrite list_elem_of_lookup. split.
  - intros [k Hk]. rewrite heapJobs_lookup in Hk by done.
    unfold JobHeap.item in Hk.
    destruct (slice (heap pq) !! k) as [l|] eqn:Hl; [|done].
    exists l. split; [|done]. apply list_elem_of_lookup. eauto.
  - intros (l & Hl & Hj). apply list_elem_of_lookup in Hl as [k Hk].
    exists k. rewrite heapJobs_lookup by done. unfold JobHeap.item.
    by rewrite Hk.
Qed.

Lemma elem_of_ids (pq : priorityQueue) (id : string) :
  pq_inv pq → id ∈ ID <$> jobs pq ↔ is_Some (items pq !! id).
Proof.
  intros (Hwf & _ & Hitems & _). rewrite list_elem_of_fmap. split.
  - intros (j & -> & Hj). apply elem_of_jobs in Hj as (l & Hl & Hjob); [|done].
    exists l. apply Hitems. split; [done|]. by rewrite idAt_job, Hjob.
  - intros [l Hl]. apply Hitems in Hl as [Hl Hid].
    rewrite idAt_job in Hid.
    destruct (job <$> cells (heap pq) !! l) as [j|] eqn:Hj; [|done].
    exists j. split; [by injection Hid|].
    apply elem_of_jobs; [done|]. eauto.
Qed.

(** No two jobs of the structure have the same id. *)
Lemma pq_inv_NoDup (pq : priorityQueue) : pq_inv pq → NoDup (ID <$> jobs pq).
Proof.
  intros (Hwf & _ & Hitems & _). apply NoDup_alt. intros i k id Hi Hk.
  rewrite list_lookup_fmap in Hi, Hk. unfold jobs in *.
  rewrite heapJobs_lookup in Hi, Hk by done. unfold JobHeap.item in *.
  destruct (slice (heap pq) !! i) as [li|] eqn:Hli; [|done].
  destruct (slice (heap pq) !! k) as [lk|] eqn:Hlk; [|done].
  simpl in Hi, Hk.
  assert (items pq !! id = Some li) as Hili.
  { apply Hitems. split; [apply list_elem_of_lookup; eauto|].
    by rewrite idAt_job. }
  assert (items pq !! id = Some lk) as Hilk.
  { apply Hitems. split; [apply list_elem_of_lookup; eauto|].
    by rewrite idAt_job. }
  assert (li = lk) as -> by congruence.
  eapply NoDup_alt; [by apply heap_wf_NoDup|done..].
Qed.

(** [Push] of a job whose id is not in the structure. *)
Lemma Push_fresh (pq : priorityQueue) (j : Job) :
  pq_inv pq → items pq !! ID j = None →
  ∃ pq', PQ.Push pq j = Some pq' ∧ pq_inv pq' ∧ jobs pq' ≡ₚ j :: jobs pq.
Proof.
  intros (Hwf & Hord & Hitems & Halloc) Hnone.
  unfold PQ.Push. rewrite Hnone.
  destruct pq as [[cs sl] its nx]. unfold alloc_ok, items_ok in *.
  simpl in *.
  unfold Heap.Push, JobHeap.Push, JobHeap.Len. cbn [cells slice].
  set (cs1 := setIndex nx (Z.of_nat (length sl)) (<[nx := mkItem j 0]> cs)).
  set (h1 := mkHeap cs1 (sl ++ [nx])).
  assert (Hfresh : nx ∉ sl).
  { intros Hin. apply Halloc in Hin. lia. }
  assert (Hcs1 : ∀ l, l ≠ nx → cs1 !! l = cs !! l).
  { intros l Hl. unfold cs1.
    rewrite lookup_setIndex, decide_False by done.
    by rewrite lookup_insert_ne. }
  assert (Hcs1nx : cs1 !! nx = Some (mkItem j (Z.of_nat (length sl)))).
  { unfold cs1. rewrite lookup_setIndex, decide_True by done.
    by rewrite lookup_insert_eq. }
  assert (Hwf1 : heap_wf h1).
  { intros k l. simpl. intros Hk.
    apply lookup_app_Some in Hk as [Hk|[Hge Hk]].
    - rewrite Hcs1; [by apply Hwf|].
      intros ->. apply Hfresh, list_elem_of_lookup. eauto.
    - apply list_lookup_singleton_Some in Hk as [Hk0 <-].
      rewrite Hcs1nx. eexists. split; [done|]. simpl. lia. }
  assert (Hjobs1 : heapJobs h1 = heapJobs (mkHeap cs sl) ++ [j]).
  { apply list_eq. intros k. rewrite heapJobs_lookup by done.
    unfold JobHeap.item. simpl.
    pose proof (heapJobs_length (mkHeap cs sl) Hwf) as Hlen. simpl in Hlen.
    destruct (decide (k < length sl)%nat) as [Hlt|Hge].
    - rewrite !lookup_app_l by lia.
      rewrite heapJobs_lookup by done. unfold JobHeap.item. simpl.
      destruct (sl !! k) as [l|] eqn:Hl; [|done]. simpl.
      rewrite Hcs1; [done|].
      intros ->. apply Hfresh, list_elem_of_lookup. eauto.
    - rewrite !lookup_app_r by lia. rewrite Hlen.
      destruct (k - length sl)%nat as [|d]; simpl; [|done].
      by rewrite Hcs1nx. }
  assert (Hlen1 : length (sl ++ [nx]) = S (length sl)).
  { rewrite length_app. simpl. lia. }
  rewrite Hlen1. replace (S (length sl) - 1)%nat with (length sl) by lia.
  destruct (up_loop_spec (S (length sl)) h1 (length sl) (S (length sl)))
    as (h' & Hup & Hwf' & Hsame' & Hord' & _).
  { done. }
  { lia. }
  { unfold JobHeap.Len. simpl. lia. }
  { rewrite Hjobs1.
    pose proof (heapJobs_length (mkHeap cs sl) Hwf) as Hlen. simpl in Hlen.
    rewrite <- Hlen. apply upInv_append. by rewrite Hlen. }
  unfold Heap.up. fold h1. rewrite Hup. simpl.
  eexists. split; [done|].
  pose proof (sameItems_Len h1 h' Hsame') as HLen'.
  unfold JobHeap.Len in HLen'. simpl in HLen'. rewrite Hlen1 in HLen'.
  split; [split; [|split; [|split]]|]; simpl.
  - done.
  - by rewrite HLen'.
  - intros id l. simpl.
    rewrite (sameItems_elem h1 h') by done.
    rewrite (sameItems_idAt h1 h') by done.
    simpl. rewrite elem_of_app, list_elem_of_singleton.
    destruct (decide (id = ID j)) as [->|Hid].
    + rewrite lookup_insert_eq. split.
      * intros [= <-]. split; [by right|]. unfold idAt. simpl.
        by rewrite Hcs1nx.
      * intros [[Hl| ->] Hidl]; [|done]. exfalso.
        assert (l ≠ nx) by (by intros ->).
        unfold idAt in Hidl. simpl in Hidl. rewrite Hcs1 in Hidl by done.
        assert (its !! ID j = Some l) as Hits; [|congruence].
        apply Hitems. by split.
    + rewrite lookup_insert_ne by done. rewrite Hitems. simpl. split.
      * intros [Hl Hidl]. split; [by left|].
        assert (l ≠ nx) by (by intros ->).
        unfold idAt in *. simpl in *. by rewrite Hcs1.
      * intros [[Hl| ->] Hidl].
        -- split; [done|]. assert (l ≠ nx) by (by intros ->).
           unfold idAt in *. simpl in *. by rewrite Hcs1 in Hidl.
        -- unfold idAt in Hidl. simpl in Hidl. rewrite Hcs1nx in Hidl.
           simpl in Hidl. congruence.
  - intros l. rewrite (sameItems_elem h1 h') by done. simpl.
    rewrite elem_of_app, list_elem_of_singleton.
    intros [Hl| ->]; [|lia]. apply Halloc in Hl. lia.
  - unfold jobs. simpl. rewrite (sameItems_heapJobs h1 h') by done.
    rewrite Hjobs1. by rewrite Permutation_app_comm.
Qed.

(** [Push] of a job whose id is in the structure already changes
    nothing. *)
Lemma Push_present (pq : priorityQueue) (j : Job) :
  is_Some (items pq !! ID j) → PQ.Push pq j = Some pq.
Proof. intros [l Hl]. unfold PQ.Push. by rewrite Hl. Qed.

(** Taking the last item off the heap: the end of [heap.Pop] and
    [heap.Remove], with the deletion from [items] that follows it. *)
Lemma drop_last (pq : priorityQueue) (h2 : jobHeap) (n : nat) (l0 : loc)
    (jx : Job) :
  pq_inv pq → heap_wf h2 → sameItems (heap pq) h2 →
  JobHeap.Len h2 = S n → heapOrdered n (heapJobs h2) →
  slice h2 !! n = Some l0 → job <$> cells h2 !! l0 = Some jx →
  ∃ h3, JobHeap.Pop h2 = Some (l0, h3)
    ∧ job <$> cells h3 !! l0 = Some jx
    ∧ pq_inv (mkPQ h3 (delete (ID jx) (items pq)) (next pq))
    ∧ jobs pq ≡ₚ jx :: heapJobs h3.
Proof.
  intros (Hwf & Hord & Hitems & Halloc) Hwf2 Hsame HLen Hord2 Hl0 Hjx.
  unfold JobHeap.Pop. rewrite HLen, Hl0. simpl.
  eexists. split; [done|].
  set (h3 := mkHeap (setIndex l0 (-1) (cells h2)) (take n (slice h2))).
  unfold JobHeap.Len in HLen.
  assert (Hsl2 : slice h2 = take n (slice h2) ++ [l0]).
  { rewrite <- (take_S_r _ _ _ Hl0). by rewrite take_ge by lia. }
  pose proof (heap_wf_NoDup h2 Hwf2) as Hnd. rewrite Hsl2 in Hnd.
  apply NoDup_app in Hnd as (_ & Hnotin & _).
  assert (Hne : ∀ l, l ∈ take n (slice h2) → l ≠ l0).
  { intros l Hl ->. apply (Hnotin l0 Hl). by apply list_elem_of_singleton. }
  assert (Hwf3 : heap_wf h3).
  { intros k l. simpl. intros Hk.
    assert (l ≠ l0) by (apply Hne, list_elem_of_lookup; eauto).
    apply lookup_take_Some in Hk as [Hk Hkn].
    rewrite lookup_setIndex, decide_False by done. by apply Hwf2. }
  assert (Hjobs : heapJobs h2 = heapJobs h3 ++ [jx]).
  { unfold h3.
    rewrite (heapJobs_ext (cells h2)) by (intros l; apply job_setIndex).
    unfold heapJobs at 1. rewrite Hsl2 at 1. rewrite omap_app. simpl.
    by rewrite Hjx. }
  assert (Hlen3 : length (heapJobs h3) = n).
  { rewrite heapJobs_length by done. simpl. rewrite length_take. lia. }
  split; [|split].
  - simpl. by rewrite job_setIndex.
  - split; [done|]. split; [|split]; simpl.
    + rewrite length_take, Nat.min_l by lia.
      intros k Hk a b Ha Hb. pose proof (parent_lt k (proj1 Hk)).
      apply (Hord2 k Hk a b); rewrite Hjobs, lookup_app_l by lia; done.
    + intros id l. simpl.
      assert (Hid3 : ∀ l', idAt h3 l' = idAt (heap pq) l').
      { intros l'. rewrite <- (sameItems_idAt (heap pq) h2) by done.
        rewrite !idAt_job. simpl. by rewrite job_setIndex. }
      rewrite Hid3.
      assert (Hin : ∀ l', l' ∈ slice (heap pq) ↔
        l' ∈ take n (slice h2) ∨ l' = l0).
      { intros l'. rewrite <- (sameItems_elem (heap pq) h2) by done.
        rewrite Hsl2 at 1. by rewrite elem_of_app, list_elem_of_singleton. }
      assert (Hidx : idAt (heap pq) l0 = Some (ID jx)).
      { rewrite <- (sameItems_idAt (heap pq) h2) by done.
        by rewrite idAt_job, Hjx. }
      assert (Htop : items pq !! ID jx = Some l0).
      { apply Hitems. split; [apply Hin; by right | done]. }
      destruct (decide (id = ID jx)) as [->|Hid].
      * rewrite lookup_delete_eq. split; [done|]. intros [Hl Hidl].
        exfalso. apply (Hne l Hl).
        assert (items pq !! ID jx = Some l) as Hl'; [|congruence].
        apply Hitems. split; [apply Hin; by left | done].
      * rewrite lookup_delete_ne by done. rewrite (Hitems id l), Hin. split.
        -- intros [[Hl| ->] Hidl]; [done|]. congruence.
        -- intros [Hl Hidl]. split; [by left | done].
    + intros l Hl. simpl in *. apply Halloc.
      rewrite <- (sameItems_elem (heap pq) h2) by done. rewrite Hsl2.
      apply elem_of_app. by left.
  - unfold jobs. rewrite <- (sameItems_heapJobs (heap pq) h2) by done.
    rewrite Hjobs. by rewrite Permutation_app_comm.
Qed.

(** The order of a heap does not look at the two ends that [Pop] and
    [Remove] exchange. *)
Lemma downInv_swap_last (js : list Job) (i n : nat) :
  heapOrdered (S n) js → length js = S n → (i < n)%nat →
  downInv n (swapJobs js i n) i.
Proof.
  intros Hord Hlen Hi.
  destruct (lookup_lt_is_Some_2 js i ltac:(lia)) as [a Ha].
  destruct (lookup_lt_is_Some_2 js n ltac:(lia)) as [b Hb].
  assert (Hlook := λ k, swapJobs_lookup js i n k a b Ha Hb).
  split.
  - intros k Hk Hki Hpk x y. rewrite !Hlook.
    pose proof (parent_lt k (proj1 Hk)).
    rewrite !(decide_False (P := _ = n)) by lia.
    rewrite !(decide_False (P := _ = i)) by done.
    apply (Hord k); lia.
  - intros k Hk Hpk Hi0 x y. rewrite !Hlook.
    pose proof (parent_lt k (proj1 Hk)).
    pose proof (parent_lt i ltac:(lia)).
    rewrite !(decide_False (P := _ = n)) by lia.
    rewrite !(decide_False (P := _ = i)) by lia.
    intros Hx Hy. eapply jobLess_false_trans.
    + apply (Hord i ltac:(lia) x a); done.
    + apply (Hord k ltac:(lia) a y); [by rewrite Hpk | done].
Qed.

Lemma Pop_spec (pq : priorityQueue) :
  pq_inv pq →
  ∃ r pq', PQ.Pop pq = Some (r, pq') ∧ pq_inv pq'
    ∧ match jobs pq with
      | [] => r = None ∧ pq' = pq
      | top :: _ => r = Some top ∧ jobs pq ≡ₚ top :: jobs pq'
      end.
Proof.
  intros Hinv. pose proof Hinv as (Hwf & Hord & Hitems & Halloc).
  pose proof (heapJobs_length (heap pq) Hwf) as Hlen.
  unfold PQ.Pop, JobHeap.Len.
  destruct (decide (length (slice (heap pq)) = 0%nat)) as [H0|Hn0].
  { exists None, pq. split; [done|]. split; [done|].
    unfold jobs. rewrite H0 in Hlen.
    apply length_zero_iff_nil in Hlen. by rewrite Hlen. }
  destruct (length (slice (heap pq))) as [|n] eqn:HLen; [done|].
  unfold Heap.Pop, JobHeap.Len. rewrite HLen.
  destruct (jobs pq) as [|top rest] eqn:Hjobs.
  { unfold jobs in Hjobs. by rewrite Hjobs in Hlen. }
  unfold jobs in Hjobs.
  destruct (Swap_spec (heap pq) 0 n Hwf) as
    (h1 & -> & Hwf1 & Hsame1 & Hjobs1 & _ & Hn1 & _);
    [unfold JobHeap.Len; lia..|]. simpl.
  pose proof (sameItems_Len _ _ Hsame1) as HLen1. unfold JobHeap.Len in HLen1.
  destruct (down_loop_spec (S (n - 0)) h1 0 n False Hwf1)
    as (h2 & i' & Hdown & Hwf2 & Hsame2 & _ & Hup2 & Hmoved2 & Hrest2);
    [lia|unfold JobHeap.Len; lia| |done|].
  { rewrite Hjobs1. destruct (decide (n = 0)%nat) as [->|Hn].
    - split; intros k Hk; lia.
    - apply downInv_swap_last; [done|done|lia]. }
  unfold Heap.down. rewrite Hdown. simpl.
  assert (Hord2 : heapOrdered n (heapJobs h2)).
  { destruct (decide (i' = 0)%nat) as [->|Hi'].
    - by apply upInv_root.
    - eapply upInv_done; [done|]. apply Hmoved2. right. lia. }
  destruct (slice (heap pq) !! 0%nat) as [l0|] eqn:Hl0;
    [|apply lookup_ge_None in Hl0; lia].
  assert (Htop : job <$> cells (heap pq) !! l0 = Some top).
  { pose proof (heapJobs_lookup (heap pq) 0 Hwf) as H0.
    rewrite Hjobs in H0. unfold JobHeap.item in H0. rewrite Hl0 in H0.
    simpl in H0. done. }
  pose proof (sameItems_trans _ _ _ Hsame1 Hsame2) as Hsame.
  destruct (drop_last pq h2 n l0 top Hinv Hwf2 Hsame)
    as (h3 & -> & Hjob3 & Hinv3 & Hperm).
  { rewrite (sameItems_Len h1 h2) by done. unfold JobHeap.Len. lia. }
  { done. }
  { rewrite Hrest2 by lia. done. }
  { destruct Hsame as [_ Hc]. by rewrite Hc. }
  simpl. destruct (cells h3 !! l0) as [it|] eqn:Hit; [|done].
  simpl in Hjob3. injection Hjob3 as Hjob3. simpl. rewrite Hjob3.
  eexists _, _. split; [done|]. split; [done|]. split; [done|].
  unfold jobs in *. by rewrite Hjobs in Hperm.
Qed.

Lemma PopReady_spec (pq : priorityQueue) (now : time.Time) :
  pq_inv pq →
  ∃ r pq', PQ.PopReady pq now = Some (r, pq') ∧ pq_inv pq'
    ∧ match jobs pq with
      | [] => r = None ∧ pq' = pq
      | top :: _ =>
          if IsReady top now
          then r = Some top ∧ jobs pq ≡ₚ top :: jobs pq'
          else r = None ∧ pq' = pq
      end.
Proof.
  intros Hinv. pose proof Hinv as (Hwf & _).
  pose proof (heapJobs_length (heap pq) Hwf) as Hlen.
  unfold PQ.PopReady, JobHeap.Len.
  destruct (decide (length (slice (heap pq)) = 0%nat)) as [H0|Hn0].
  { exists None, pq. split; [done|]. split; [done|].
    unfold jobs. rewrite H0 in Hlen.
    apply length_zero_iff_nil in Hlen. by rewrite Hlen. }
  destruct (jobs pq) as [|top rest] eqn:Hjobs.
  { unfold jobs in Hjobs. rewrite Hjobs in Hlen. simpl in Hlen. lia. }
  pose proof (heapJobs_lookup (heap pq) 0 Hwf) as Htop.
  unfold jobs in Hjobs. rewrite Hjobs in Htop. simpl in Htop.
  destruct (JobHeap.item (heap pq) 0) as [it|]; [|done].
  injection Htop as ->. simpl.
  destruct (IsReady (job it) now); simpl.
  - destruct (Pop_spec pq Hinv) as (r & pq' & -> & Hinv' & Hres).
    unfold jobs in Hres. rewrite Hjobs in Hres.
    exists r, pq'. by split.
  - exists None, pq. by split.
Qed.

Lemma Remove_spec (pq : priorityQueue) (id : string) :
  pq_inv pq →
  ∃ r pq', PQ.Remove pq id = Some (r, pq') ∧ pq_inv pq'
    ∧ match r with
      | None => (¬ id ∈ (ID <$> jobs pq)) ∧ pq' = pq
      | Some j => ID j = id ∧ jobs pq ≡ₚ j :: jobs pq'
      end.
Proof.
  intros Hinv. pose proof Hinv as (Hwf & Hord & Hitems & Halloc).
  unfold PQ.Remove.
  destruct (items pq !! id) as [item|] eqn:Hitem.
  2:{ exists None, pq. split; [done|]. split; [done|]. split; [|done].
      rewrite elem_of_ids by done. rewrite Hitem. by intros [? ?]. }
  apply Hitems in Hitem as [Hin Hid].
  apply list_elem_of_lookup in Hin as [i Hi].
  destruct (Hwf i item Hi) as (it & Hit & Hidx).
  rewrite Hit. simpl. unfold idAt in Hid. rewrite Hit in Hid.
  injection Hid as Hid.
  pose proof (lookup_lt_Some _ _ _ Hi) as Hilt.
  pose proof (heapJobs_length (heap pq) Hwf) as Hlen.
  unfold Heap.Remove, JobHeap.Len. rewrite Hidx.
  destruct (length (slice (heap pq))) as [|n] eqn:HLen; [lia|].
  assert (Hfinal : ∀ h2,
    heap_wf h2 → sameItems (heap pq) h2 → heapOrdered n (heapJobs h2) →
    slice h2 !! n = Some item →
    ∃ pq', ('(_, h) ← JobHeap.Pop h2;
            it ← cells h !! item;
            Some (Some (job it),
                  mkPQ h (delete id (items pq)) (next pq)))
           = Some (Some (job it), pq')
      ∧ pq_inv pq' ∧ jobs pq ≡ₚ job it :: jobs pq').
  { intros h2 Hwf2 Hsame2 Hord2 Hn2.
    destruct (drop_last pq h2 n item (job it) Hinv Hwf2 Hsame2)
      as (h3 & -> & Hjob3 & Hinv3 & Hperm); [|done|done| |].
    { rewrite (sameItems_Len (heap pq) h2) by done. done. }
    { destruct Hsame2 as [_ Hc]. rewrite Hc, Hit. done. }
    simpl. destruct (cells h3 !! item) as [it3|] eqn:Hit3; [|done].
    simpl in Hjob3. injection Hjob3 as Hjob3. simpl. rewrite Hjob3.
    rewrite Hid in Hinv3. eexists. split; [done|]. by split. }
  destruct (decide (Z.of_nat (S n) - 1 ≠ Z.of_nat i)) as [Hne|Heq].
  - rewrite decide_False by lia.
    rewrite Nat2Z.id. replace (Z.to_nat (Z.of_nat (S n) - 1)) with n by lia.
    assert (i < n)%nat as Hin by lia.
    destruct (Swap_spec (heap pq) i n Hwf) as
      (h1 & -> & Hwf1 & Hsame1 & Hjobs1 & _ & Hn1 & _);
      [unfold JobHeap.Len; lia..|]. simpl.
    pose proof (sameItems_Len _ _ Hsame1) as HLen1.
    unfold JobHeap.Len in HLen1.
    destruct (down_loop_spec (S (n - i)) h1 i n False Hwf1)
      as (h2 & i' & Hdown & Hwf2 & Hsame2 & Hle2 & Hup2 & Hmoved2 & Hrest2);
      [lia|unfold JobHeap.Len; lia| |done|].
    { rewrite Hjobs1. apply downInv_swap_last; [done|lia|done]. }
    unfold Heap.down. rewrite Hdown. simpl.
    pose proof (sameItems_trans _ _ _ Hsame1 Hsame2) as Hsame12.
    assert (Hn2 : slice h2 !! n = Some item).
    { rewrite Hrest2 by lia. congruence. }
    case_bool_decide as Hmv; simpl.
    + destruct (Hfinal h2) as (pq' & Hrun & Hinv' & Hperm); [done..| |done|].
      { eapply upInv_done; [done|]. apply Hmoved2. by right. }
      rewrite Hrun. exists (Some (job it)), pq'. by split.
    + assert (i' = i) as -> by lia.
      destruct (up_loop_spec (S i) h2 i n Hwf2)
        as (h3 & Hup & Hwf3 & Hsame3 & Hord3 & Hrest3); [lia| |done|].
      { rewrite (sameItems_Len h1 h2), (sameItems_Len (heap pq) h1) by done.
        unfold JobHeap.Len. lia. }
      unfold Heap.up. rewrite Hup. simpl.
      destruct (Hfinal h3) as (pq' & Hrun & Hinv' & Hperm); [done| |done| |].
      { by eapply sameItems_trans. }
      { rewrite Hrest3 by lia. done. }
      rewrite Hrun. exists (Some (job it)), pq'. by split.
  - assert (i = n) as -> by lia. simpl.
    destruct (Hfinal (heap pq)) as (pq' & Hrun & Hinv' & Hperm);
      [done|apply sameItems_refl| |done|].
    { eapply heapOrdered_le; [|done]. lia. }
    rewrite Hrun. exists (Some (job it)), pq'. by split.
Qed.

End PriorityQueue.

(** ** Replay over the segments *)

Section ReplaySegments.

Import wal.

Context {St : Type} (callback : Callback St).

Lemma replaySegments_app (segs1 segs2 : list Segment) (st : St) :
  replaySegments callback (segs1 ++ segs2) st
  = match replaySegments callback segs1 st with
    | Some (None, st') => replaySegments callback segs2 st'
    | other => other
    end.
Proof.
  revert st. induction segs1 as [|s segs1 IH]; intros st; [done|].
  rewrite <- app_comm_cons. cbn [replaySegments].
  destruct (readSegment _ callback (NewSegmentReader s) st)
    as [[[err|] st1]|]; [done| |done].
  apply IH.
Qed.

Lemma fuel_split (bodies : list (list byte)) (rest : list byte) :
  ∃ fuel, S (length (frames bodies ++ rest)) = (length bodies + S fuel)%nat.
Proof.
  pose proof (length_frames bodies). rewrite length_app.
  exists (length (frames bodies) + length rest - length bodies)%nat. lia.
Qed.

(** A segment whose good frames are followed by a whole frame with a
    wrong checksum: the records before it are delivered, the rest of the
    segment is dropped and the next segment is read. *)
Lemma replaySegments_corrupt (seg : Segment) (segs : list Segment)
    (bodies : list (list byte)) (records : list Record_)
    (crc : Z) (bad tail : list byte) (st st' : St) :
  Forall2 decodes bodies records →
  deliver callback records st = Some (None, st') →
  Z.of_nat (length bad) < 4294967296 → uint32 crc ≠ util.Checksum bad →
  seg_file seg = frames bodies ++ frameWith crc bad ++ tail →
  replaySegments callback (seg :: segs) st = replaySegments callback segs st'.
Proof.
  intros Hdec Hdel Hlen Hcrc Hfile. cbn [replaySegments].
  unfold NewSegmentReader. rewrite Hfile.
  destruct (fuel_split bodies (frameWith crc bad ++ tail)) as [fuel ->].
  destruct (readSegment_frames callback bodies records
    (frameWith crc bad ++ tail) (S fuel) 0 st st' Hdec Hdel) as [off ->].
  cbn [readSegment]. rewrite Read_corrupt by done.
  rewrite decide_False by done. rewrite decide_True by done. done.
Qed.

(** A segment in which the callback refuses a record: the replay stops
    with the error. *)
Lemma replaySegments_callback_error (seg : Segment) (segs : list Segment)
    (bodies : list (list byte)) (records : list Record_)
    (tail : list byte) (st st' : St) (err : error) :
  Forall2 decodes bodies records →
  deliver callback records st = Some (Some err, st') →
  seg_file seg = frames bodies ++ tail →
  replaySegments callback (seg :: segs) st
  = Some (Some (Errorf "callback failed" err), st').
Proof.
  intros Hdec Hdel Hfile. cbn [replaySegments].
  unfold NewSegmentReader. rewrite Hfile.
  rewrite (readSegment_callback_error callback bodies records tail _ 0 st st'
    err Hdec Hdel); [done|].
  pose proof (length_frames bodies). rewrite length_app. lia.
Qed.

(** A segment that ends in a frame cut short: the replay stops with a
    read error. *)
Lemma replaySegments_torn (seg : Segment) (segs : list Segment)
    (bodies : list (list byte)) (records : list Record_)
    (crc : Z) (data torn : list byte) (st st' : St) :
  Forall2 decodes bodies records →
  deliver callback records st = Some (None, st') →
  Z.of_nat (length data) < 4294967296 →
  torn `prefix_of` frameWith crc data → torn ≠ frameWith crc data →
  torn ≠ [] →
  seg_file seg = frames bodies ++ torn →
  ∃ msg err,
    replaySegments callback (seg :: segs) st
    = Some (Some (Errorf "failed to read from segment" (Errorf msg err)), st').
Proof.
  intros Hdec Hdel Hlen Hpre Hne Hnil Hfile. cbn [replaySegments].
  unfold NewSegmentReader. rewrite Hfile.
  destruct (fuel_split bodies torn) as [fuel ->].
  destruct (readSegment_frames callback bodies records torn (S fuel) 0
    st st' Hdec Hdel) as [off ->].
  destruct (Read_torn crc data torn off Hlen Hpre Hne Hnil)
    as (msg & err & u & Hread).
  exists msg, err. cbn [readSegment]. rewrite Hread.
  rewrite !decide_False by done. done.
Qed.

(** A segment with a whole frame, its checksum right, whose data does
    not parse: the replay stops with a read error. *)
Lemma replaySegments_unparsable (seg : Segment) (segs : list Segment)
    (bodies : list (list byte)) (records : list Record_)
    (bad tail : list byte) (e : error) (st st' : St) :
  Forall2 decodes bodies records →
  deliver callback records st = Some (None, st') →
  Z.of_nat (length bad) < 4294967296 → Unmarshal bad = inl e →
  seg_file seg = frames bodies ++ frame bad ++ tail →
  replaySegments callback (seg :: segs) st
  = Some (Some (Errorf "failed to read from segment"
                  (Errorf "failed to unmarshal record" e)), st').
Proof.
  intros Hdec Hdel Hlen Hbad Hfile. cbn [replaySegments].
  unfold NewSegmentReader. rewrite Hfile.
  destruct (fuel_split bodies (frame bad ++ tail)) as [fuel ->].
  destruct (readSegment_frames callback bodies records
    (frame bad ++ tail) (S fuel) 0 st st' Hdec Hdel) as [off ->].
  cbn [readSegment]. rewrite (Read_unparsable bad tail off e) by done.
  rewrite !decide_False by done. done.
Qed.

(** A segment of whole good frames is read to its end. *)
Lemma replaySegments_clean (seg : Segment) (segs : list Segment)
    (bodies : list (list byte)) (records : list Record_) (st st' : St) :
  Forall2 decodes bodies records →
  deliver callback records st = Some (None, st') →
  seg_file seg = frames bodies →
  replaySegments callback (seg :: segs) st = replaySegments callback segs st'.
Proof.
  intros Hdec Hdel Hfile. cbn [replaySegments].
  unfold NewSegmentReader. rewrite Hfile.
  rewrite <- (app_nil_r (frames bodies)).
  destruct (fuel_split bodies []) as [fuel ->].
  destruct (readSegment_frames callback bodies records [] (S fuel) 0 st st'
    Hdec Hdel) as [off ->].
  cbn [readSegment]. rewrite Read_eof. by rewrite decide_True.
Qed.

Lemma deliver_app (records1 records2 : list Record_) (st st' : St) :
  deliver callback (records1 ++ records2) st = Some (None, st') →
  ∃ st1, deliver callback records1 st = Some (None, st1)
    ∧ deliver callback records2 st1 = Some (None, st').
Proof.
  revert st. induction records1 as [|r records1 IH]; intros st; simpl.
  - eauto.
  - destruct (callback r st) as [[[err|] st1]|]; [done| |done]. apply IH.
Qed.

(** A log of segments of whole good frames: the replay is the delivery
    of its records in order. *)
Lemma replaySegments_whole (segs : list Segment)
    (bodies : list (list (list byte))) (records : list Record_)
    (st st' : St) :
  Forall2 (λ seg bs, seg_file seg = frames bs) segs bodies →
  Forall2 decodes (concat bodies) records →
  deliver callback records st = Some (None, st') →
  replaySegments callback segs st = Some (None, st').
Proof.
  intros Hsegs. revert records st.
  induction Hsegs as [|seg bs segs bodies Hfile _ IH]; intros records st.
  - simpl. intros ->%Forall2_nil_inv_l. simpl. done.
  - cbn [concat]. intros (rs1 & rs2 & Hd1 & Hd2 & ->)%Forall2_app_inv_l Hdel.
    apply deliver_app in Hdel as (st1 & Hdel1 & Hdel2).
    rewrite (replaySegments_clean seg segs bs rs1 st st1) by done.
    by apply (IH rs2).
Qed.

End ReplaySegments.

(** ** Reachable ready structures *)

Section Reachable.

Import queue.

Lemma Push_spec (pq : priorityQueue) (j : Job) :
  pq_inv pq →
  ∃ pq', PQ.Push pq j = Some pq' ∧ pq_inv pq'
    ∧ if decide (ID j ∈ ID <$> jobs pq) then pq' = pq
      else jobs pq' ≡ₚ j :: jobs pq.
Proof.
  intros Hinv. destruct (items pq !! ID j) as [l|] eqn:Hl.
  - exists pq. rewrite Push_present by eauto. split; [done|]. split; [done|].
    rewrite decide_True; [done|]. apply elem_of_ids; eauto.
  - destruct (Push_fresh pq j Hinv Hl) as (pq' & Hpush & Hinv' & Hperm).
    exists pq'. split; [done|]. split; [done|].
    rewrite decide_False; [done|].
    rewrite elem_of_ids by done. rewrite Hl. by intros [? ?].
Qed.

Lemma reachable_inv (pq : priorityQueue) : reachable pq → pq_inv pq.
Proof.
  induction 1 as [|pq j pq' _ IH Hop|pq r pq' _ IH Hop|pq now r pq' _ IH Hop
                  |pq id r pq' _ IH Hop].
  - apply pq_inv_new.
  - destruct (Push_spec pq j IH) as (pq1 & Hop1 & Hinv & _). congruence.
  - destruct (Pop_spec pq IH) as (r1 & pq1 & Hop1 & Hinv & _). congruence.
  - destruct (PopReady_spec pq now IH) as (r1 & pq1 & Hop1 & Hinv & _).
    congruence.
  - destruct (Remove_spec pq id IH) as (r1 & pq1 & Hop1 & Hinv & _).
    congruence.
Qed.

(** The top of the structure is a job that no job of the structure
    comes before. *)
Lemma top_most_preferred (pq : priorityQueue) (top : Job) (rest : list Job) :
  pq_inv pq → jobs pq = top :: rest →
  ∀ j, j ∈ jobs pq → jobLess j top = false.
Proof.
  intros (Hwf & Hord & _) Hjobs j Hj.
  apply list_elem_of_lookup in Hj as [k Hk].
  pose proof (heapJobs_length (heap pq) Hwf) as Hlen.
  unfold jobs in *.
  eapply (heapOrdered_root _ _ top j k Hord); [lia| |by rewrite Hjobs|done].
  apply lookup_lt_Some in Hk. lia.
Qed.

End Reachable.

(** ** Writing to the log *)

Section Writing.

Import wal.

Lemma Write_ok (w : WAL) (record : Record_) :
  seg_readOnly (activeSegment w) = false →
  ∃ w', Write true w record = (None, w')
    ∧ seg_readOnly (activeSegment w') = false.
Proof.
  intros Hro. unfold Write.
  destruct (IsFull (activeSegment w)); simpl.
  - unfold Segment_Write. simpl. eauto.
  - unfold Segment_Write. rewrite Hro. simpl. eauto.
Qed.

End Writing.

(** ** The manager *)

Section ManagerFacts.

Import queue.

Lemma readyJobs_withQueue (m : Manager) (key key' : string) (q : Queue) :
  readyJobs (withQueue m key q) key'
  = if decide (key = key') then jobs (ready q) else readyJobs m key'.
Proof.
  unfold readyJobs, withQueue. simpl. destruct (decide (key = key')) as [->|Hne].
  - by rewrite lookup_insert_eq.
  - by rewrite lookup_insert_ne.
Qed.

Lemma readyOK_withQueue (m : Manager) (key : string) (q : Queue) :
  readyOK m → pq_inv (ready q) → readyOK (withQueue m key q).
Proof.
  intros Hm Hq key' q'. unfold withQueue. simpl.
  destruct (decide (key = key')) as [->|Hne].
  - rewrite lookup_insert_eq. by intros [= <-].
  - rewrite lookup_insert_ne by done. apply Hm.
Qed.

Lemma readyOK_new (w : wal.WAL) : readyOK (NewManager w).
Proof. intros key q. unfold NewManager. simpl. by rewrite lookup_empty. Qed.

Lemma readyJobs_lookup (m : Manager) (key : string) (q : Queue) :
  queues m !! key = Some q → readyJobs m key = jobs (ready q).
Proof. intros Hq. unfold readyJobs. by rewrite Hq. Qed.

(** A queue put back with the ready structure it had. *)
Lemma readyJobs_same_ready (m : Manager) (key key' : string) (q q' : Queue) :
  queues m !! key = Some q → ready q' = ready q →
  readyJobs (withQueue m key q') key' = readyJobs m key'.
Proof.
  intros Hq Heq. rewrite readyJobs_withQueue.
  destruct (decide (key = key')) as [<-|]; [|done].
  by rewrite (readyJobs_lookup m key q), Heq.
Qed.

(** What [Push] does to the ids of a structure that meets the
    invariant. *)
Lemma Push_ids (pq : priorityQueue) (j : Job) :
  pq_inv pq →
  ∃ pq', PQ.Push pq j = Some pq' ∧ pq_inv pq'
    ∧ ID j ∈ ID <$> jobs pq'
    ∧ ∀ id, id ∈ ID <$> jobs pq → id ∈ ID <$> jobs pq'.
Proof.
  intros Hinv. destruct (Push_spec pq j Hinv) as (pq' & Hop & Hinv' & Hres).
  exists pq'. split; [done|]. split; [done|].
  destruct (decide (ID j ∈ ID <$> jobs pq)) as [Hin|Hout].
  - by subst.
  - assert (Hp : ID <$> jobs pq' ≡ₚ ID j :: (ID <$> jobs pq))
      by (by rewrite Hres).
    split; [rewrite Hp; by left|]. intros id Hid. rewrite Hp. by right.
Qed.

End ManagerFacts.

(** ** Replay into the manager *)

Section ReplayManager.

Import queue.

Variable env : Env.

(** One record of the replay.  The callback never fails; the ids in the
    ready structures stay, through ACK, NACK, REQUEUE and TOMBSTONE
    records too; and an ENQUEUE record leaves its job id in the ready
    structure of its queue. *)
Ltac unchanged :=
  eexists; split; [reflexivity|]; split; [assumption|];
  split; [tauto|congruence].

Lemma applyRecord_spec (record : wal.Record_) (m : Manager) :
  readyOK m →
  ∃ m', applyRecord env record m = Some (None, m') ∧ readyOK m'
    ∧ (∀ key id, id ∈ ID <$> readyJobs m key → id ∈ ID <$> readyJobs m' key)
    ∧ (wal.Type_ record = wal.RecordTypeEnqueue →
       wal.JobID record ∈ ID <$> readyJobs m' (wal.Queue record)).
Proof.
  intros Hm. unfold applyRecord.
  destruct (decide (wal.Type_ record = wal.RecordTypeEnqueue)) as [Henq|Henq].
  { set (j := mkJob _ _ _ _ _ _ _ _ _ _ _ _).
    assert (Hget : ∃ queue m1,
      getOrCreateQueue m (wal.Queue record) = (queue, m1)
      ∧ pq_inv (ready queue) ∧ readyOK m1
      ∧ (∀ key, readyJobs m1 key = readyJobs m key)
      ∧ readyJobs m (wal.Queue record) = jobs (ready queue)).
    { unfold getOrCreateQueue.
      destruct (queues m !! wal.Queue record) as [q|] eqn:Hq.
      - exists q, m. split; [done|]. split; [by apply (Hm _ _ Hq)|].
        split; [done|]. split; [done|]. by apply readyJobs_lookup.
      - eexists _, _. split; [done|]. simpl.
        split; [apply pq_inv_new|].
        split; [apply readyOK_withQueue; [done|apply pq_inv_new]|].
        split.
        + intros key. rewrite readyJobs_withQueue.
          destruct (decide _) as [<-|]; [|done].
          unfold readyJobs. by rewrite Hq.
        + unfold readyJobs. by rewrite Hq. }
    destruct Hget as (queue & m1 & -> & Hinv & Hm1 & Hsame & Hq).
    destruct (Push_ids (ready queue) j Hinv) as (pq' & -> & Hinv' & Hj & Hmono).
    simpl. eexists. split; [done|].
    split; [by apply readyOK_withQueue|]. split.
    - intros key id. rewrite readyJobs_withQueue.
      destruct (decide _) as [<-|]; [|by rewrite Hsame].
      rewrite Hq. apply Hmono.
    - intros _. rewrite readyJobs_withQueue, decide_True by done. exact Hj. }
  destruct (decide (wal.Type_ record = wal.RecordTypeAck)) as [Hack|Hack].
  { unfold getQueue. destruct (queues m !! wal.Queue record) as [q|] eqn:Hq.
    - eexists. split; [done|].
      split; [apply readyOK_withQueue; [done|by apply (Hm _ _ Hq)]|].
      split; [|congruence]. intros key id.
      by rewrite (readyJobs_same_ready m _ key q).
    - by unchanged. }
  destruct (decide (wal.Type_ record = wal.RecordTypeNack
                    ∨ wal.Type_ record = wal.RecordTypeRequeue)) as [Hn|Hn].
  { unfold getQueue. destruct (queues m !! wal.Queue record) as [q|] eqn:Hq;
      [|by unchanged].
    destruct (inflight q !! wal.JobID record) as [j|]; [|by unchanged].
    set (j' := mkJob _ _ _ _ _ _ _ _ _ _ _ _).
    destruct (ShouldRetry j').
    - destruct (Push_ids (ready q) j' (Hm _ _ Hq))
        as (pq' & -> & Hinv' & Hj & Hmono).
      simpl. eexists. split; [done|].
      split; [by apply readyOK_withQueue|]. split; [|congruence].
      intros key id. rewrite readyJobs_withQueue.
      destruct (decide _) as [<-|]; [|done].
      rewrite (readyJobs_lookup m _ q Hq). apply Hmono.
    - eexists. split; [done|].
      split; [apply readyOK_withQueue; [done|by apply (Hm _ _ Hq)]|].
      split; [|congruence]. intros key id.
      by rewrite (readyJobs_same_ready m _ key q). }
  destruct (decide (wal.Type_ record = wal.RecordTypeTombstone)) as [Ht|Ht].
  { unfold getQueue. destruct (queues m !! wal.Queue record) as [q|] eqn:Hq.
    - eexists. split; [done|].
      split; [apply readyOK_withQueue; [done|by apply (Hm _ _ Hq)]|].
      split; [|congruence]. intros key id.
      by rewrite (readyJobs_same_ready m _ key q).
    - by unchanged. }
  by unchanged.
Qed.

Lemma applyRecord_total (record : wal.Record_) (m : Manager) :
  readyOK m → is_Some (applyRecord env record m).
Proof.
  intros Hm. destruct (applyRecord_spec record m Hm) as (m' & -> & _). eauto.
Qed.

(** The records of a log in order. *)
Lemma deliver_applyRecord (records : list wal.Record_) (m : Manager) :
  readyOK m →
  ∃ m', wal.deliver (applyRecord env) records m = Some (None, m')
    ∧ readyOK m'
    ∧ (∀ key id, id ∈ ID <$> readyJobs m key → id ∈ ID <$> readyJobs m' key)
    ∧ ∀ record, record ∈ records →
        wal.Type_ record = wal.RecordTypeEnqueue →
        wal.JobID record ∈ ID <$> readyJobs m' (wal.Queue record).
Proof.
  revert m. induction records as [|r records IH]; intros m Hm.
  - exists m. split; [done|]. split; [done|]. split; [done|].
    intros record Hin. by apply elem_of_nil in Hin.
  - destruct (applyRecord_spec r m Hm) as (m1 & Hr & Hm1 & Hmono1 & Henq1).
    destruct (IH m1 Hm1) as (m' & Hrs & Hm' & Hmono & Henq).
    exists m'. simpl. rewrite Hr. split; [done|]. split; [done|].
    split; [by eauto|].
    intros record [->|Hin]%elem_of_cons Hty; [|by eauto].
    apply Hmono. by apply Henq1.
Qed.

End ReplayManager.

(** The replay of a log of whole good frames on a fresh manager ends
    without error, and the job of every ENQUEUE record of the log is in
    the ready structure of its queue, whatever records follow it. *)
Lemma replayWAL_keeps_enqueued (env : queue.Env) (w : wal.WAL)
    (bodies : list (list (list byte))) (records : list wal.Record_) :
  Forall2 (λ seg bs, wal.seg_file seg = wal.frames bs) (wal.segments w)
    bodies →
  Forall2 wal.decodes (concat bodies) records →
  ∃ m', queue.replayWAL env (queue.NewManager w) = Some (None, m')
    ∧ ∀ record, record ∈ records →
        wal.Type_ record = wal.RecordTypeEnqueue →
        wal.JobID record
          ∈ queue.ID <$> queue.readyJobs m' (wal.Queue record).
Proof.
  intros Hsegs Hdec.
  destruct (deliver_applyRecord env records (queue.NewManager w)
    (readyOK_new w)) as (m' & Hdel & _ & _ & Henq).
  exists m'. split; [|done]. unfold queue.replayWAL, wal.Replay.
  by apply (replaySegments_whole _ _ bodies records).
Qed.

(** ** Nack and the reclaimer *)

Section Retries.

Import queue.

(** What a nack that reaches the log does with the job: with the
    incremented attempt count below [MaxRetries] the job goes to the
    ready structure, and otherwise, the count equal to [MaxRetries]
    included, to the dead-letter map. *)
Lemma Nack_outcome (env : Env) (m : Manager) (jobID leaseID reason : string)
    (key : string) (queue : Queue) (j : Job) :
  findInflight m jobID = Some (key, queue, j) →
  LeaseID j = leaseID →
  disk_ok env = true →
  wal.seg_readOnly (wal.activeSegment (m_wal m)) = false →
  pq_inv (ready queue) →
  ∃ m' queue',
    Nack env m jobID leaseID reason = Some (None, m')
    ∧ queues m' !! key = Some queue'
    ∧ inflight queue' !! jobID = None
    ∧ if bool_decide (uint32 (Tries j + 1) < MaxRetries j)
      then ID j ∈ ID <$> jobs (ready queue') ∧ dlq queue' = dlq queue
      else dlq queue' !! jobID
           = Some (withStatus (retried env j) JobStatusDLQ)
           ∧ ready queue' = ready queue.
Proof.
  intros Hfind Hlease Hdisk Hro Hinv. unfold Nack. rewrite Hfind.
  rewrite decide_False by (by intros ?). rewrite Hdisk.
  unfold ShouldRetry. cbn [retried Tries MaxRetries].
  destruct (bool_decide (uint32 (Tries j + 1) < MaxRetries j)).
  - match goal with |- context [wal.Write true _ ?r] =>
      destruct (Write_ok (m_wal m) r Hro) as (w' & -> & _) end.
    match goal with |- context [PQ.Push ?pq ?j'] =>
      destruct (Push_ids pq j' Hinv) as (pq' & -> & _ & Hin & _) end.
    simpl. eexists _, _. split; [done|].
    split; [apply lookup_insert_eq|]. simpl.
    split; [apply lookup_delete_eq|]. done.
  - match goal with |- context [wal.Write true _ ?r] =>
      destruct (Write_ok (m_wal m) r Hro) as (w' & -> & _) end.
    eexists _, _. split; [done|].
    split; [apply lookup_insert_eq|]. simpl.
    split; [apply lookup_delete_eq|]. split; [|done].
    apply lookup_insert_eq.
Qed.

(** The reclaimer's move of a job does not depend on the disk: the
    queue it leaves is the same whether the log takes the record or
    not. *)
Lemma reclaim_ignores_disk (env : Env) (disk : bool)
    (acc acc' : option (Queue * wal.WAL)) (j : Job) :
  fst <$> acc = fst <$> acc' →
  fst <$> reclaim env acc j = fst <$> reclaim (withDisk env disk) acc' j.
Proof.
  intros Hacc. unfold reclaim.
  destruct acc as [[q w]|], acc' as [[q' w']|]; simplify_eq/=; [|done].
  change (retried (withDisk env disk) j) with (retried env j).
  destruct (ShouldRetry (retried env j)); [|done].
  by destruct (PQ.Push _ _).
Qed.

(** A job without attempts left is moved by the reclaimer without a
    write to the log. *)
Lemma reclaim_dead_unlogged (env : Env) (queue : Queue) (w : wal.WAL)
    (j : Job) :
  ShouldRetry (retried env j) = false →
  reclaim env (Some (queue, w)) j
  = Some (mkQueue (name queue) (ready queue)
            (delete (ID j) (inflight queue))
            (<[ID j := withStatus (retried env j) JobStatusDLQ]>
               (dlq queue)),
          w).
Proof. intros Hdead. unfold reclaim. simpl. by rewrite Hdead. Qed.

Lemma checkLeaseTimeouts_ignores_disk (env : Env) (disk : bool)
    (m : Manager) :
  queues <$> checkLeaseTimeouts env m
  = queues <$> checkLeaseTimeouts (withDisk env disk) m.
Proof.
  unfold checkLeaseTimeouts.
  generalize (map_to_list (queues m)).
  assert (Hacc : queues <$> Some m = queues <$> Some m) by done.
  revert Hacc. generalize (Some m) at 1 3. generalize (Some m).
  intros acc' acc Hacc l. revert acc acc' Hacc.
  induction l as [|kq l IH]; intros acc acc' Hacc; [done|].
  simpl. apply IH.
  destruct acc as [m1|], acc' as [m2|]; simplify_eq/=; [|done].
  change (expired (withDisk env disk)) with (expired env).
  generalize (filter (λ j, expired env j = true)
                ((map_to_list (inflight kq.2)).*2)).
  intros js.
  assert (Hin : fst <$> Some (kq.2, m_wal m1) = fst <$> Some (kq.2, m_wal m2))
    by done.
  revert Hin. generalize (Some (kq.2, m_wal m1)) (Some (kq.2, m_wal m2)).
  induction js as [|j js IHjs]; intros a a' Ha.
  - simpl. destruct a as [[q w]|], a' as [[q' w']|]; simplify_eq/=; [|done].
    by rewrite Hacc.
  - simpl. apply IHjs. by apply reclaim_ignores_disk.
Qed.

End Retries.

(** * The claims of the specification *)

Section Claims.

Import queue.

(** Bounds on closed terms, by evaluation. *)
Ltac by_evaluation :=
  vm_compute; repeat split; first [reflexivity | intro; discriminate].

(** ** C5: the preference order *)

(** C5, as the specification states it, fails: [twinA] and [twinB] are
    two distinct jobs, and the comparison of the heap that holds them
    decides neither way. *)
Lemma C5_no_id_tie_break :
  twinA ≠ twinB
  ∧ jobs twins = [twinA; twinB]
  ∧ JobHeap.Less (heap twins) 0 1 = Some false
  ∧ JobHeap.Less (heap twins) 1 0 = Some false.
Proof. repeat split; [discriminate | vm_compute; reflexivity..]. Qed.

(** C5, amended.  [jobHeap.Less] compares the jobs at two positions by
    priority (higher first), then by scheduled time (earlier first),
    then by enqueue time (earlier first), and by nothing else.  The
    comparison never decides both ways, and it leaves two jobs unordered
    exactly when they agree on the three keys: there is no tie-break on
    the job id. *)
Theorem C5_preference_order (h : jobHeap) (i j : nat) (x y : jobHeapItem) :
  let a := job x in
  let b := job y in
  (JobHeap.item h i = Some x ∧ JobHeap.item h j = Some y →
   JobHeap.Less h i j = Some (jobLess a b))
  ∧ (jobLess a b = true ↔
     Priority a > Priority b
     ∨ (Priority a = Priority b
        ∧ (ETA a < ETA b ∨ (ETA a = ETA b ∧ EnqueuedAt a < EnqueuedAt b))))
  ∧ (jobLess a b = true → jobLess b a = false)
  ∧ (jobLess a b = false ∧ jobLess b a = false ↔ sameKeys a b).
Proof.
  intros a b. split; [|split; [|split]].
  - intros [Hx Hy]. unfold JobHeap.Less. by rewrite Hx, Hy.
  - apply jobLess_spec.
  - apply jobLess_asym.
  - apply jobLess_undecided.
Qed.

(** ** C6: the round trip of the record codec *)

(** C6, as the specification states it, fails: the wire carries the
    scheduled time in whole milliseconds, so a record scheduled one
    nanosecond past a millisecond comes back changed. *)
Lemma C6_sub_millisecond_lost :
  wal.typed wal.subMilliRecord
  ∧ wal.Unmarshal (wal.Marshal wal.subMilliRecord) = inr wal.sampleRecord
  ∧ wal.sampleRecord ≠ wal.subMilliRecord.
Proof.
  split; [|split].
  - by_evaluation.
  - vm_compute. reflexivity.
  - discriminate.
Qed.

(** C6, amended.  For every record whose strings, headers and payload
    fit the length prefixes of the layout (two bytes for a string and for
    the number of headers, four bytes for the payload) and whose
    scheduled time is a whole number of milliseconds, deserializing the
    bytes produced by serializing it yields the record again, in
    whatever order the headers were written. *)
Theorem C6_round_trip (r : wal.Record_) (order : list (string * string)) :
  wal.typed r → wal.sized r → wal.wholeMillis (wal.ETA r) →
  order ≡ₚ map_to_list (wal.Headers r) →
  wal.Unmarshal (wal.MarshalIn order r) = inr r.
Proof.
  intros Ht Hs Hms Hperm. rewrite Unmarshal_MarshalIn by done.
  by rewrite wire_id.
Qed.

Lemma sized_sampleRecord : wal.sized wal.sampleRecord.
Proof.
  unfold wal.sized, wal.fits16.
  repeat split; try (vm_compute; reflexivity).
  match goal with |- ?P => apply (bool_decide_unpack P) end.
  vm_compute. exact I.
Qed.

Lemma C6_round_trip_witness :
  wal.Unmarshal
    (wal.MarshalIn (map_to_list (wal.Headers wal.sampleRecord))
       wal.sampleRecord)
  = inr wal.sampleRecord.
Proof.
  apply (C6_round_trip wal.sampleRecord
           (map_to_list (wal.Headers wal.sampleRecord))).
  - by_evaluation.
  - exact sized_sampleRecord.
  - by_evaluation.
  - reflexivity.
Defined.

(** ** C7: what the parser rejects *)

(** C7, as the specification states it, fails: the bytes of
    [unknownTypeRecord] start with the type byte 9, which names no
    record type, and they parse. *)
Lemma C7_unknown_type_accepted :
  at_ (wal.Marshal wal.unknownTypeRecord) 0 = 9
  ∧ wal.Unmarshal (wal.Marshal wal.unknownTypeRecord)
    = inr wal.unknownTypeRecord.
Proof. split; vm_compute; reflexivity. Qed.

(** C7, amended.  Parsing fails with [ErrInvalidRecord] on every
    truncated input, that is on every proper prefix of the bytes of a
    record that fits the layout, and [ErrInvalidRecord] is its only
    error.  The leading type byte is not examined: whenever an input
    parses, the same input with any other first byte parses too, to the
    same record but for its type. *)
Theorem C7_truncation_and_type_byte (r : wal.Record_)
    (order : list (string * string)) (data : list byte) :
  wal.sized r → order ≡ₚ map_to_list (wal.Headers r) →
  data `prefix_of` wal.MarshalIn order r → data ≠ wal.MarshalIn order r →
  wal.Unmarshal data = inl ErrInvalidRecord
  ∧ (∀ input e, wal.Unmarshal input = inl e → e = ErrInvalidRecord)
  ∧ (∀ t t' rest r',
       wal.Unmarshal (t :: rest) = inr r' →
       wal.Type_ r' = Z_of_byte t
       ∧ wal.Unmarshal (t' :: rest) = inr (wal.withType (Z_of_byte t') r')).
Proof.
  intros Hs Hperm Hpre Hne. split; [|split].
  - pose proof (parseRecord_MarshalIn order r Hs Hperm [] []) as Hfull.
    rewrite app_nil_l, app_nil_r in Hfull.
    change (length []) with 0%nat in Hfull. rewrite Nat.add_0_l in Hfull.
    by apply (parseRecord_truncated (wal.MarshalIn order r) data (wal.wire r)).
  - apply Unmarshal_error.
  - intros t t' rest r'. unfold wal.Unmarshal.
    destruct (wal.parseRecord (t :: rest) 0%nat) as [e|[r0 k]] eqn:Hrun;
      [done|].
    intros [= <-].
    destruct (parseRecord_type_byte t t' rest r0 k Hrun) as [Hty ->].
    done.
Qed.

Lemma C7_truncation_and_type_byte_witness :
  wal.Unmarshal
    (take 20 (wal.MarshalIn (map_to_list (wal.Headers wal.sampleRecord))
                wal.sampleRecord))
  = inl ErrInvalidRecord.
Proof.
  refine (proj1 (C7_truncation_and_type_byte wal.sampleRecord
           (map_to_list (wal.Headers wal.sampleRecord)) _ _ _ _ _)).
  - exact sized_sampleRecord.
  - reflexivity.
  - apply prefix_take.
  - vm_compute. discriminate.
Defined.

(** ** C8: what ends a segment and what ends a replay *)

(** C8, as the specification states it, fails on a torn tail: the first
    segment of [tornLog] ends in the first three bytes of a frame, and
    the replay stops there with an error; the record of the second
    segment is never delivered. *)
Lemma C8_torn_tail_aborts :
  wal.Replay wal.collect wal.tornLog []
  = Some (Some (Errorf "failed to read from segment"
                  (Errorf "failed to read length" io_ErrUnexpectedEOF)),
          [wal.sampleRecord]).
Proof. vm_compute. reflexivity. Qed.

(** C8, amended.  In a replay that has reached segment [seg] with state
    [st], where [seg] starts with good frames whose records the callback
    is handed: a whole frame whose checksum does not match ends the
    reading of [seg] only, the records before it are delivered, whatever
    follows it in the segment is dropped, and the replay goes on with
    the next segment; an error of the callback ends the whole replay
    with that error; and a frame cut short (a torn tail) is not treated
    as a checksum failure: it ends the whole replay with a read error,
    and so does a whole frame with the right checksum whose data does
    not parse. *)
Theorem C8_replay_failures {St : Type} (callback : wal.Callback St)
    (w : wal.WAL) (before after : list wal.Segment) (seg : wal.Segment)
    (bodies : list (list byte)) (records : list wal.Record_)
    (st0 st st' : St) (outcome : option error) :
  wal.segments w = before ++ seg :: after →
  wal.replaySegments callback before st0 = Some (None, st) →
  Forall2 wal.decodes bodies records →
  wal.deliver callback records st = Some (outcome, st') →
  (∀ crc bad tail,
     outcome = None →
     Z.of_nat (length bad) < 4294967296 → uint32 crc ≠ util.Checksum bad →
     wal.seg_file seg = wal.frames bodies ++ wal.frameWith crc bad ++ tail →
     wal.Replay callback w st0 = wal.replaySegments callback after st')
  ∧ (∀ err tail,
       outcome = Some err →
       wal.seg_file seg = wal.frames bodies ++ tail →
       wal.Replay callback w st0
       = Some (Some (Errorf "callback failed" err), st'))
  ∧ (∀ crc data torn,
       outcome = None →
       Z.of_nat (length data) < 4294967296 →
       torn `prefix_of` wal.frameWith crc data →
       torn ≠ wal.frameWith crc data → torn ≠ [] →
       wal.seg_file seg = wal.frames bodies ++ torn →
       ∃ msg err,
         wal.Replay callback w st0
         = Some (Some (Errorf "failed to read from segment"
                         (Errorf msg err)), st'))
  ∧ (∀ bad e tail,
       outcome = None →
       Z.of_nat (length bad) < 4294967296 → wal.Unmarshal bad = inl e →
       wal.seg_file seg = wal.frames bodies ++ wal.frame bad ++ tail →
       wal.Replay callback w st0
       = Some (Some (Errorf "failed to read from segment"
                       (Errorf "failed to unmarshal record" e)), st')).
Proof.
  intros Hsegs Hbefore Hdec Hdel. unfold wal.Replay.
  rewrite Hsegs, replaySegments_app, Hbefore.
  split; [|split; [|split]].
  - intros crc bad tail -> Hlen Hcrc Hfile.
    by eapply replaySegments_corrupt.
  - intros err tail -> Hfile. by eapply replaySegments_callback_error.
  - intros crc data torn -> Hlen Hpre Hne Hnil Hfile.
    by eapply replaySegments_torn.
  - intros bad e tail -> Hlen Hbad Hfile.
    by eapply replaySegments_unparsable.
Qed.

Lemma decodes_sampleRecord :
  Forall2 wal.decodes [wal.Marshal wal.sampleRecord] [wal.sampleRecord].
Proof.
  constructor; [|constructor]. split; vm_compute; reflexivity.
Qed.

Lemma C8_replay_failures_witness :
  wal.Replay wal.collect wal.corruptLog []
  = wal.replaySegments wal.collect [wal.activeSegment wal.corruptLog]
      [wal.sampleRecord].
Proof.
  refine (proj1 (C8_replay_failures wal.collect wal.corruptLog []
    [wal.activeSegment wal.corruptLog] (hd (wal.activeSegment wal.corruptLog)
       (wal.older wal.corruptLog))
    [wal.Marshal wal.sampleRecord] [wal.sampleRecord] [] []
    [wal.sampleRecord] None _ _ _ _) 0 (wal.Marshal wal.secondRecord)
    (wal.frame (wal.Marshal wal.secondRecord)) _ _ _ _).
  - reflexivity.
  - reflexivity.
  - exact decodes_sampleRecord.
  - reflexivity.
  - reflexivity.
  - vm_compute. reflexivity.
  - vm_compute. discriminate.
  - vm_compute. reflexivity.
Defined.

(** ** C4: what [PopReady] hands out *)

(** C4, as the specification states it, fails: [blockedQueue] holds a
    minor job whose scheduled time has come, behind an urgent job
    scheduled for later, and [PopReady] returns nothing. *)
Lemma C4_blocked_by_top :
  jobs blockedQueue = [urgentLater; minorDue]
  ∧ IsReady minorDue 10 = true
  ∧ PQ.PopReady blockedQueue 10 = Some (None, blockedQueue).
Proof. repeat split; vm_compute; reflexivity. Qed.

(** C4, amended.  On every state of the ready structure and for every
    time [now], [PopReady] looks at the top of the container only, which
    is a job that no job of the structure comes before.  If the top is
    ready and its scheduled time is zero or not after [now], it is
    removed and returned and the other jobs stay; otherwise nothing is
    returned and the structure is left as it was, also when other jobs
    are due.  It returns nothing exactly when the structure is empty or
    its top is not deliverable. *)
Theorem C4_pop_ready (pq : priorityQueue) (now : time.Time) :
  reachable pq →
  ∃ r pq',
    PQ.PopReady pq now = Some (r, pq') ∧ reachable pq'
    ∧ match jobs pq with
      | [] => r = None ∧ pq' = pq
      | top :: _ =>
          (∀ j, j ∈ jobs pq → jobLess j top = false)
          ∧ if IsReady top now
            then r = Some top ∧ jobs pq ≡ₚ top :: jobs pq'
            else r = None ∧ pq' = pq
      end.
Proof.
  intros Hreach. pose proof (reachable_inv pq Hreach) as Hinv.
  destruct (PopReady_spec pq now Hinv) as (r & pq' & Hop & Hinv' & Hres).
  exists r, pq'. split; [done|]. split; [by eapply reach_PopReady|].
  destruct (jobs pq) as [|top rest] eqn:Hjobs; [done|].
  split; [|done]. rewrite <- Hjobs. by eapply top_most_preferred.
Qed.

Lemma reachable_blockedQueue : reachable blockedQueue.
Proof.
  apply (reach_Push urgentOnly minorDue); [|vm_compute; reflexivity].
  apply (reach_Push newPriorityQueue urgentLater); [|vm_compute; reflexivity].
  apply reach_new.
Qed.

Lemma C4_pop_ready_witness :
  ∃ r pq',
    PQ.PopReady blockedQueue 100 = Some (r, pq') ∧ reachable pq'
    ∧ match jobs blockedQueue with
      | [] => r = None ∧ pq' = blockedQueue
      | top :: _ =>
          (∀ j, j ∈ jobs blockedQueue → jobLess j top = false)
          ∧ if IsReady top 100
            then r = Some top ∧ jobs blockedQueue ≡ₚ top :: jobs pq'
            else r = None ∧ pq' = blockedQueue
      end.
Proof. exact (C4_pop_ready blockedQueue 100 reachable_blockedQueue). Defined.

(** ** C10: one entry per job id *)

(** C10.  After any sequence of [Push], [Pop], [PopReady] and [Remove]
    the ready structure holds no two jobs with the same id, and [Push]
    of a job whose id is present returns the structure as it was, the
    jobs and their number unchanged; [Push] of a job whose id is not
    present adds that job and nothing else. *)
Theorem C10_one_entry_per_id (pq : priorityQueue) (j : Job) :
  reachable pq →
  NoDup (ID <$> jobs pq)
  ∧ (ID j ∈ ID <$> jobs pq → PQ.Push pq j = Some pq)
  ∧ (ID j ∉ ID <$> jobs pq →
     ∃ pq', PQ.Push pq j = Some pq' ∧ jobs pq' ≡ₚ j :: jobs pq).
Proof.
  intros Hreach. pose proof (reachable_inv pq Hreach) as Hinv.
  split; [by apply pq_inv_NoDup|].
  destruct (Push_spec pq j Hinv) as (pq' & Hop & _ & Hres).
  split; intros Hid.
  - rewrite decide_True in Hres by done. by subst.
  - rewrite decide_False in Hres by done. eauto.
Qed.

Lemma reachable_twins : reachable twins.
Proof.
  apply (reach_Push (default newPriorityQueue (pushAll [twinA])) twinB);
    [|vm_compute; reflexivity].
  apply (reach_Push newPriorityQueue twinA); [|vm_compute; reflexivity].
  apply reach_new.
Qed.

Lemma C10_one_entry_per_id_witness :
  NoDup (ID <$> jobs twins)
  ∧ (ID (sampleJob "a" 9 0 0) ∈ ID <$> jobs twins →
     PQ.Push twins (sampleJob "a" 9 0 0) = Some twins)
  ∧ (ID (sampleJob "a" 9 0 0) ∉ ID <$> jobs twins →
     ∃ pq', PQ.Push twins (sampleJob "a" 9 0 0) = Some pq'
       ∧ jobs pq' ≡ₚ sampleJob "a" 9 0 0 :: jobs twins).
Proof.
  exact (C10_one_entry_per_id twins (sampleJob "a" 9 0 0) reachable_twins).
Defined.

(** ** C9: the priority of an enqueue *)

(** C9, as the specification states it, fails: an enqueue with priority
    10 succeeds and the job is in the ready structure. *)
Lemma C9_priority_10_accepted :
  enqueued10 = Some (("job-1"%string, None), after enqueued10)
  ∧ Priority <$> readyJobs (after enqueued10) "Q" = [10].
Proof. split; vm_compute; reflexivity. Qed.

(** C9, amended.  [Enqueue] does not look at the priority: whatever its
    value, an enqueue without idempotency key that the rate limiter
    admits and whose record the log accepts succeeds, and the job it
    creates, with that priority, is in the ready structure of the
    queue. *)
Theorem C9_any_priority (env : Env) (m : Manager) (queueName : string)
    (payload : list byte) (headers : gmap string string) (priority : Z)
    (delayMs : Z) (retryPolicy : RetryPolicy) :
  (∀ queue, queues m !! queueName = Some queue → reachable (ready queue)) →
  Allow env m queueName = true →
  disk_ok env = true →
  wal.seg_readOnly (wal.activeSegment (m_wal m)) = false →
  uuid env 0 ∉ ID <$> readyJobs m queueName →
  ∃ m' j,
    Enqueue env m queueName payload headers priority delayMs retryPolicy ""
    = Some ((uuid env 0, None), m')
    ∧ j ∈ readyJobs m' queueName
    ∧ ID j = uuid env 0 ∧ Priority j = priority.
Proof.
  intros Hready Hallow Hdisk Hro Hfresh. unfold Enqueue.
  rewrite decide_False by (by intros ?).
  rewrite decide_False by (by intros ?).
  rewrite Hallow, Hdisk. simpl.
  set (eta := if decide (delayMs > 0) then _ else _).
  set (j := mkJob (uuid env 0) queueName payload headers priority 0
              (rp_MaxRetries retryPolicy) eta "" time.zero JobStatusReady
              (now env)).
  assert (Hpush : ∀ queue m1,
    getOrCreateQueue m queueName = (queue, m1) →
    m_wal m1 = m_wal m ∧ pq_inv (ready queue)
    ∧ ID j ∉ ID <$> jobs (ready queue)).
  { intros queue m1. unfold getOrCreateQueue, readyJobs in *.
    destruct (queues m !! queueName) as [q|] eqn:Hq.
    - intros [= <- <-]. split; [done|]. split; [|done].
      by apply reachable_inv, Hready.
    - intros [= <- <-]. split; [done|]. split; [apply pq_inv_new|].
      simpl. apply not_elem_of_nil. }
  destruct (getOrCreateQueue m queueName) as [queue m1] eqn:Hget.
  destruct (Hpush queue m1 eq_refl) as (Hwal & Hinv & Hnew).
  rewrite Hwal.
  destruct (Write_ok (m_wal m) (wal.mkRecord wal.RecordTypeEnqueue queueName
    (uuid env 0) payload headers priority 0 (rp_MaxRetries retryPolicy) eta
    "" "") Hro) as (w' & -> & _).
  destruct (Push_spec (ready queue) j Hinv) as (pq' & Hop & _ & Hres).
  fold j. rewrite Hop. simpl.
  rewrite decide_False in Hres by done.
  eexists _, j. split; [done|]. split; [|done].
  unfold readyJobs, withQueue. simpl. rewrite lookup_insert_eq. simpl.
  rewrite Hres. by left.
Qed.

Lemma C9_any_priority_witness :
  ∃ m' j,
    Enqueue (world t0 "job-1" true) freshManager "Q" [] ∅ 200 0
      DefaultRetryPolicy ""
    = Some ((uuid (world t0 "job-1" true) 0, None), m')
    ∧ j ∈ readyJobs m' "Q"
    ∧ ID j = uuid (world t0 "job-1" true) 0 ∧ Priority j = 200.
Proof.
  apply (C9_any_priority (world t0 "job-1" true) freshManager "Q" [] ∅ 200 0
           DefaultRetryPolicy).
  - intros queue Hq. vm_compute in Hq. discriminate.
  - reflexivity.
  - reflexivity.
  - reflexivity.
  - vm_compute. apply not_elem_of_nil.
Defined.

(** ** C1: an acknowledged job after a restart *)

(** C1 holds of the specification and fails on the code.  A job is
    enqueued, leased and acknowledged: the queue is empty and the log
    holds the job's ENQUEUE record followed by its ACK record.  The
    replay of that log on a fresh manager ends without error with the
    job in the ready structure: the ACK case of the replay deletes from
    the in-flight map, which a replay never fills. *)
Theorem C1_acked_job_returns :
  Stats acked "Q" = ((0, 0, 0)%nat, None)
  ∧ logOf acked = Some [(wal.RecordTypeEnqueue, "job-1"%string);
                        (wal.RecordTypeAck, "job-1"%string)]
  ∧ restarted = Some (None, after restarted)
  ∧ ID <$> readyJobs (after restarted) "Q" = ["job-1"%string]
  ∧ Stats (after restarted) "Q" = ((1, 0, 0)%nat, None).
Proof. repeat split; vm_compute; reflexivity. Qed.

(** ** C2: when a nack dead-letters *)

(** C2 holds of the specification and fails on the code.  With
    [MaxRetries = 2] the first nack puts the job back in the ready
    structure, and the second nack, which makes the attempt count 2,
    moves it to the dead-letter map with status DLQ although 2 does not
    exceed 2: [ShouldRetry] is [Tries < MaxRetries]. *)
Theorem C2_dead_at_max_attempts :
  Stats nackedOnce "test" = ((1, 0, 0)%nat, None)
  ∧ nackedTwice = Some (None, after nackedTwice)
  ∧ Stats (after nackedTwice) "test" = ((0, 0, 1)%nat, None)
  ∧ deadJob (after nackedTwice) "test" "job-1" = Some (2, 2, JobStatusDLQ).
Proof. repeat split; vm_compute; reflexivity. Qed.

(** ** C3: the reclaimer and the log *)

(** C3 holds of the specification and fails on the code.  With the disk
    down, the reclaimer moves the job whose lease has run out from the
    in-flight map to the ready structure although nothing reaches the
    log; and when the job has no attempt left the reclaimer moves it to
    the dead-letter map without writing a record at all. *)
Theorem C3_reclaimer_moves_without_log :
  Stats leased "Q" = ((0, 1, 0)%nat, None)
  ∧ reclaimedDiskDown = Some (default freshManager reclaimedDiskDown)
  ∧ Stats (default freshManager reclaimedDiskDown) "Q"
    = ((1, 0, 0)%nat, None)
  ∧ m_wal (default freshManager reclaimedDiskDown) = m_wal leased
  ∧ Stats leasedLast "Q" = ((0, 1, 0)%nat, None)
  ∧ reclaimedLast = Some (default freshManager reclaimedLast)
  ∧ Stats (default freshManager reclaimedLast) "Q" = ((0, 0, 1)%nat, None)
  ∧ m_wal (default freshManager reclaimedLast) = m_wal leasedLast
  ∧ logOf leasedLast = Some [(wal.RecordTypeEnqueue, "job-1"%string)].
Proof. repeat split; vm_compute; reflexivity. Qed.

End Claims.

(** * Further properties of the code *)

(** ** The ready structure *)

Section ReadyStructure.

Import queue.

Lemma reachable_urgentOnly : reachable urgentOnly.
Proof.
  apply (reach_Push newPriorityQueue urgentLater); [|vm_compute; reflexivity].
  apply reach_new.
Qed.

Lemma reachable_blocked : reachable blockedQueue.
Proof.
  apply (reach_Push urgentOnly minorDue); [|vm_compute; reflexivity].
  apply reachable_urgentOnly.
Qed.

(** The top of the heap is the head of the list of jobs. *)
Lemma jobs_head (pq : priorityQueue) :
  pq_inv pq → head (jobs pq) = job <$> JobHeap.item (heap pq) 0.
Proof.
  intros (Hwf & _). rewrite <- (heapJobs_lookup (heap pq) 0 Hwf).
  unfold jobs. by destruct (heapJobs (heap pq)).
Qed.

Lemma Len_jobs (pq : priorityQueue) :
  pq_inv pq → PQ.Len pq = length (jobs pq).
Proof. intros (Hwf & _). symmetry. by apply heapJobs_length. Qed.

(** X1.  [priorityQueue.Pop] on any state of the ready structure returns
    nil exactly when the structure is empty, and leaves it as it was;
    otherwise it returns a job of the structure that no job of the
    structure comes before in the order of [jobHeap.Less], and takes
    that job and no other out of the structure. *)
Theorem Pop_most_preferred (pq : priorityQueue) :
  reachable pq →
  ∃ r pq',
    PQ.Pop pq = Some (r, pq')
    ∧ match r with
      | None => jobs pq = [] ∧ pq' = pq
      | Some top =>
          top ∈ jobs pq
          ∧ (∀ j, j ∈ jobs pq → jobLess j top = false)
          ∧ jobs pq ≡ₚ top :: jobs pq'
      end.
Proof.
  intros Hreach. pose proof (reachable_inv pq Hreach) as Hinv.
  destruct (Pop_spec pq Hinv) as (r & pq' & Hop & _ & Hres).
  exists r, pq'. split; [done|].
  destruct (jobs pq) as [|top rest] eqn:Hjobs.
  - destruct Hres as [-> ->]. done.
  - destruct Hres as [-> Hperm]. split; [by left|]. split; [|done].
    rewrite <- Hjobs. by eapply top_most_preferred.
Qed.

Lemma Pop_most_preferred_witness :
  ∃ r pq',
    PQ.Pop blockedQueue = Some (r, pq')
    ∧ match r with
      | None => jobs blockedQueue = [] ∧ pq' = blockedQueue
      | Some top =>
          top ∈ jobs blockedQueue
          ∧ (∀ j, j ∈ jobs blockedQueue → jobLess j top = false)
          ∧ jobs blockedQueue ≡ₚ top :: jobs pq'
      end.
Proof. exact (Pop_most_preferred blockedQueue reachable_blocked). Defined.

(** X2.  [priorityQueue.Remove] on any state of the ready structure:
    for an id that is not there it returns nil and changes nothing; for
    an id that is there it returns the job with that id and takes that
    job and no other out, after which the id is not in the structure. *)
Theorem Remove_by_id (pq : priorityQueue) (id : string) :
  reachable pq →
  ∃ r pq',
    PQ.Remove pq id = Some (r, pq')
    ∧ match r with
      | None => (¬ id ∈ (ID <$> jobs pq)) ∧ pq' = pq
      | Some j =>
          ID j = id ∧ j ∈ jobs pq ∧ jobs pq ≡ₚ j :: jobs pq'
          ∧ ¬ id ∈ (ID <$> jobs pq')
      end.
Proof.
  intros Hreach. pose proof (reachable_inv pq Hreach) as Hinv.
  destruct (Remove_spec pq id Hinv) as (r & pq' & Hop & _ & Hres).
  exists r, pq'. split; [done|]. destruct r as [j|]; [|done].
  destruct Hres as [Hid Hperm]. split; [done|].
  split; [rewrite Hperm; by left|]. split; [done|].
  pose proof (pq_inv_NoDup pq Hinv) as Hnd.
  rewrite Hperm, fmap_cons, Hid in Hnd. by apply NoDup_cons in Hnd as [? _].
Qed.

Lemma Remove_by_id_witness :
  ∃ r pq',
    PQ.Remove blockedQueue "minor" = Some (r, pq')
    ∧ match r with
      | None => (¬ "minor"%string ∈ (ID <$> jobs blockedQueue))
                ∧ pq' = blockedQueue
      | Some j =>
          ID j = "minor"%string ∧ j ∈ jobs blockedQueue
          ∧ jobs blockedQueue ≡ₚ j :: jobs pq'
          ∧ ¬ "minor"%string ∈ (ID <$> jobs pq')
      end.
Proof. exact (Remove_by_id blockedQueue "minor" reachable_blocked). Defined.

(** X3.  [Peek] returns the job that [Pop] would return, and
    [PeekReady] the job that [PopReady] would return at the same time,
    nil for nil, on every state of the ready structure. *)
Theorem Peek_shows_what_Pop_takes (pq : priorityQueue) (now : time.Time) :
  reachable pq →
  ∃ r pq1 r' pq2,
    PQ.Peek pq = Some r ∧ PQ.Pop pq = Some (r, pq1)
    ∧ PQ.PeekReady pq now = Some r' ∧ PQ.PopReady pq now = Some (r', pq2).
Proof.
  intros Hreach. pose proof (reachable_inv pq Hreach) as Hinv.
  destruct (Pop_spec pq Hinv) as (r & pq1 & Hpop & _ & Hr).
  destruct (PopReady_spec pq now Hinv) as (r' & pq2 & Hpopr & _ & Hr').
  exists r, pq1, r', pq2.
  pose proof (jobs_head pq Hinv) as Hhead.
  pose proof (Len_jobs pq Hinv) as Hlen. unfold PQ.Len in Hlen.
  unfold PQ.Peek, PQ.PeekReady. rewrite Hlen.
  destruct (jobs pq) as [|top rest]; simpl in *.
  - destruct Hr as [-> _], Hr' as [-> _]. done.
  - destruct (JobHeap.item (heap pq) 0) as [it|]; [|done].
    injection Hhead as ->. simpl. destruct Hr as [-> _].
    split; [done|]. split; [done|]. split; [|done].
    by destruct (IsReady (job it) now); destruct Hr' as [-> _].
Qed.

Lemma Peek_shows_what_Pop_takes_witness :
  ∃ r pq1 r' pq2,
    PQ.Peek blockedQueue = Some r ∧ PQ.Pop blockedQueue = Some (r, pq1)
    ∧ PQ.PeekReady blockedQueue 10 = Some r'
    ∧ PQ.PopReady blockedQueue 10 = Some (r', pq2).
Proof.
  exact (Peek_shows_what_Pop_takes blockedQueue 10 reachable_blocked).
Defined.

Lemma size_items (pq : priorityQueue) :
  pq_inv pq → size (items pq) = length (jobs pq).
Proof.
  intros Hinv. rewrite <- (size_dom (D := gset string)).
  rewrite <- (length_fmap ID (jobs pq)).
  rewrite <- (size_list_to_set (C := gset string) (ID <$> jobs pq))
    by by apply pq_inv_NoDup.
  f_equal. apply set_eq. intros id.
  rewrite elem_of_dom, elem_of_list_to_set. symmetry. by apply elem_of_ids.
Qed.

(** X4.  On every state of the ready structure the heap and the index
    [items] agree: [Len], the length of the heap, is the number of
    entries of [items], and an id is a key of [items] exactly when a job
    with that id is in the heap. *)
Theorem Len_counts_ids (pq : priorityQueue) :
  reachable pq →
  PQ.Len pq = size (items pq)
  ∧ PQ.Len pq = length (jobs pq)
  ∧ ∀ id, is_Some (items pq !! id) ↔ id ∈ ID <$> jobs pq.
Proof.
  intros Hreach. pose proof (reachable_inv pq Hreach) as Hinv.
  rewrite size_items, Len_jobs by done. split; [done|]. split; [done|].
  intros id. symmetry. by apply elem_of_ids.
Qed.

Lemma Len_counts_ids_witness :
  PQ.Len blockedQueue = size (items blockedQueue)
  ∧ PQ.Len blockedQueue = length (jobs blockedQueue)
  ∧ ∀ id, is_Some (items blockedQueue !! id) ↔ id ∈ ID <$> jobs blockedQueue.
Proof. exact (Len_counts_ids blockedQueue reachable_blocked). Defined.

(** X5.  On every state of the ready structure each item of the heap
    carries its own position in its [index] field, as [Swap], [Push] and
    [Pop] of [jobHeap] maintain it, and [items] maps the id of its job
    to that very item: this is what lets [Remove] find the job of an id
    in the heap. *)
Theorem items_know_their_position (pq : priorityQueue) (i : nat)
    (it : jobHeapItem) :
  reachable pq →
  JobHeap.item (heap pq) i = Some it →
  index it = Z.of_nat i
  ∧ ∃ l, items pq !! ID (job it) = Some l
      ∧ slice (heap pq) !! i = Some l ∧ cells (heap pq) !! l = Some it.
Proof.
  intros Hreach Hit. pose proof (reachable_inv pq Hreach) as Hinv.
  destruct Hinv as (Hwf & _ & Hitems & _). unfold JobHeap.item in Hit.
  destruct (slice (heap pq) !! i) as [l|] eqn:Hl; [|done]. simpl in Hit.
  destruct (Hwf i l Hl) as (it' & Hit' & Hidx).
  rewrite Hit in Hit'. injection Hit' as <-. split; [done|].
  exists l. split; [|done]. apply Hitems.
  split; [apply list_elem_of_lookup; eauto|].
  unfold idAt. by rewrite Hit.
Qed.

Lemma items_know_their_position_witness :
  index (mkItem minorDue 1) = Z.of_nat 1
  ∧ ∃ l, items blockedQueue !! ID (job (mkItem minorDue 1)) = Some l
      ∧ slice (heap blockedQueue) !! 1%nat = Some l
      ∧ cells (heap blockedQueue) !! l = Some (mkItem minorDue 1).
Proof.
  apply (items_know_their_position blockedQueue 1 (mkItem minorDue 1)).
  - exact reachable_blocked.
  - vm_compute. reflexivity.
Defined.

(** X6.  The comparison of [jobHeap.Less] is a strict weak order on
    jobs: no job comes before itself, "comes before" is transitive, and
    so is "neither comes before the other"; two jobs that the
    comparison leaves unordered compare alike with every third job. *)
Theorem Less_strict_weak_order (a b c : Job) :
  jobLess a a = false
  ∧ (jobLess a b = true → jobLess b c = true → jobLess a c = true)
  ∧ (jobLess a b = false → jobLess b a = false →
     jobLess b c = false → jobLess c b = false →
     jobLess a c = false ∧ jobLess c a = false)
  ∧ (jobLess a b = false → jobLess b a = false →
     jobLess a c = jobLess b c ∧ jobLess c a = jobLess c b).
Proof.
  split; [apply jobLess_irrefl|]. split; [apply jobLess_trans|].
  split.
  - intros Hab Hba Hbc Hcb. split; eapply jobLess_false_trans; eauto.
  - intros Hab Hba.
    pose proof (proj1 (jobLess_undecided a b) (conj Hab Hba)) as (Hp & He & Hq).
    unfold jobLess, time.Equal, time.Before. by rewrite Hp, He, Hq.
Qed.

End ReadyStructure.

(** ** The record codec *)

Section CodecMore.

Import wal.

Lemma lor_bound (a b n : Z) :
  0 ≤ n → 0 ≤ a < 2 ^ n → 0 ≤ b < 2 ^ n → 0 ≤ Z.lor a b < 2 ^ n.
Proof.
  intros Hn Ha Hb.
  assert (Hmod : Z.lor a b = Z.lor a b `mod` 2 ^ n).
  { apply Z.bits_inj'. intros m Hm.
    rewrite Z.testbit_mod_pow2, Z.lor_spec by lia.
    destruct (decide (m < n)).
    - rewrite (proj2 (Z.ltb_lt m n)) by lia. reflexivity.
    - rewrite (proj2 (Z.ltb_ge m n)) by lia. simpl.
      rewrite <- (Z.mod_small a (2 ^ n)), <- (Z.mod_small b (2 ^ n)) by lia.
      rewrite !Z.testbit_mod_pow2 by lia.
      rewrite (proj2 (Z.ltb_ge m n)) by lia. reflexivity. }
  rewrite Hmod. apply Z.mod_pos_bound. lia.
Qed.

Lemma at_shiftl_bound (b : list byte) (i : nat) (k n : Z) :
  0 ≤ k → n = k + 8 → 0 ≤ at_ b i ≪ k < 2 ^ n.
Proof.
  intros Hk ->. unfold at_. pose proof (Z_of_byte_range (nth i b Byte.x00)).
  rewrite Z.shiftl_mul_pow2, Z.pow_add_r by lia.
  change (2 ^ 8) with 256. pose proof (Z.pow_pos_nonneg 2 k). nia.
Qed.

Lemma at_bound (b : list byte) (i : nat) (n : Z) :
  8 ≤ n → 0 ≤ at_ b i < 2 ^ n.
Proof.
  intros Hn. unfold at_. pose proof (Z_of_byte_range (nth i b Byte.x00)).
  assert (2 ^ 8 ≤ 2 ^ n) by (apply Z.pow_le_mono_r; lia).
  change (2 ^ 8) with 256 in *. lia.
Qed.

Lemma shiftl_bound_le (x k n m : Z) :
  0 ≤ x ≪ k < 2 ^ n → 0 ≤ n ≤ m → 0 ≤ x ≪ k < 2 ^ m.
Proof.
  intros Hx Hn. assert (2 ^ n ≤ 2 ^ m) by (apply Z.pow_le_mono_r; lia). lia.
Qed.

Lemma Uint16_bound (b : list byte) : 0 ≤ LittleEndian.Uint16 b < 65536.
Proof.
  unfold LittleEndian.Uint16. change 65536 with (2 ^ 16).
  apply lor_bound; [lia|apply at_bound; lia|].
  apply (at_shiftl_bound b 1 8 16); lia.
Qed.

Lemma Uint32_bound (b : list byte) : 0 ≤ LittleEndian.Uint32 b < 4294967296.
Proof.
  unfold LittleEndian.Uint32. change 4294967296 with (2 ^ 32).
  repeat (apply lor_bound; [lia| |]);
    first [ apply at_bound; lia
          | eapply shiftl_bound_le;
            [eapply at_shiftl_bound; [|reflexivity]; lia|lia] ].
Qed.

(** *** What a parsed record looks like *)

Lemma yields_ret {A} (a : A) (P : A → Prop) : P a → yields (pret a) P.
Proof. intros HP data offset a' offset' [= <- _]. done. Qed.

Lemma yields_bind {A B} (p : Parser A) (f : A → Parser B)
    (P : A → Prop) (Q : B → Prop) :
  yields p P → (∀ a, P a → yields (f a) Q) → yields (pbind p f) Q.
Proof.
  intros Hp Hf data offset b offset2. unfold pbind.
  destruct (p data offset) as [e|[a offset1]] eqn:Hrun; [done|].
  intros Hrun2. eapply Hf; [|exact Hrun2]. by eapply Hp.
Qed.

Lemma yields_getByte : yields getByte (λ x, 0 ≤ x < 256).
Proof.
  intros data offset a offset'. unfold getByte.
  destruct (decide _); [done|]. intros [= <- _]. apply Z_of_byte_range.
Qed.

Lemma yields_getUint16 : yields getUint16 (λ x, 0 ≤ x < 65536).
Proof.
  intros data offset a offset'. unfold getUint16.
  destruct (decide _); [done|]. intros [= <- _]. apply Uint16_bound.
Qed.

Lemma yields_getUint32 : yields getUint32 (λ x, 0 ≤ x < 4294967296).
Proof.
  intros data offset a offset'. unfold getUint32.
  destruct (decide _); [done|]. intros [= <- _]. apply Uint32_bound.
Qed.

Lemma yields_getUint64 : yields getUint64 (λ _, True).
Proof. done. Qed.

Lemma yields_getBytes (n : nat) : yields (getBytes n) (λ l, length l = n).
Proof.
  intros data offset a offset'. unfold getBytes.
  destruct (decide _) as [|Hlen]; [done|]. intros [= <- _].
  rewrite length_take, length_drop. lia.
Qed.

Lemma length_string_of_list_byte (b : list byte) :
  String.length (string_of_list_byte b) = length b.
Proof.
  rewrite <- length_list_byte_of_string.
  by rewrite list_byte_of_string_of_list_byte.
Qed.

Lemma yields_getString : yields getString fits16.
Proof.
  unfold getString.
  eapply yields_bind; [apply yields_getUint16|]. intros n Hn.
  eapply yields_bind; [apply yields_getBytes|]. intros b Hb.
  apply yields_ret. unfold fits16. cbv beta in *.
  rewrite length_string_of_list_byte, Hb. lia.
Qed.

Lemma yields_getHeaders (count : nat) (m : gmap string string) :
  map_Forall (λ k v, fits16 k ∧ fits16 v) m →
  yields (getHeaders count m)
    (λ m', (size m' ≤ size m + count)%nat
           ∧ map_Forall (λ k v, fits16 k ∧ fits16 v) m').
Proof.
  revert m. induction count as [|count IH]; intros m Hm; simpl.
  - apply yields_ret. split; [lia|done].
  - eapply yields_bind; [apply yields_getString|]. intros key Hkey.
    eapply yields_bind; [apply yields_getString|]. intros val Hval.
    intros data offset m' offset' Hrun.
    destruct (IH (<[key := val]> m)
      ltac:(by apply map_Forall_insert_2) data offset m' offset' Hrun)
      as [Hsize Hall].
    split; [|done].
    assert (size (<[key := val]> m) ≤ S (size m))%nat; [|lia].
    destruct (m !! key) eqn:Hk.
    + rewrite <- (insert_delete_id m key s) at 1 by done.
      rewrite insert_insert_eq.
      rewrite map_size_insert_None by apply lookup_delete_eq.
      rewrite <- (insert_delete_id m key s) at 2 by done.
      rewrite map_size_insert_None by apply lookup_delete_eq. lia.
    + by rewrite map_size_insert_None.
Qed.

Lemma wholeMillis_ofUnixMilli (u : Z) :
  wholeMillis (time.ofUnixMilli (int64 u)).
Proof.
  unfold wholeMillis, time.ofUnixMilli. pose proof (int64_range u).
  rewrite Z.mod_mul, Z.div_mul by lia. lia.
Qed.

Lemma yields_parseRecord :
  yields parseRecord (λ r, typed r ∧ sized r ∧ wholeMillis (ETA r)).
Proof.
  unfold parseRecord.
  eapply yields_bind; [apply yields_getByte|]. intros ty Hty.
  eapply yields_bind; [apply yields_getString|]. intros queue Hqueue.
  eapply yields_bind; [apply yields_getString|]. intros jobID HjobID.
  eapply yields_bind; [apply yields_getByte|]. intros priority Hpriority.
  eapply yields_bind; [apply yields_getUint32|]. intros tries Htries.
  eapply yields_bind; [apply yields_getUint32|]. intros maxRetries Hmax.
  eapply yields_bind; [apply yields_getUint64|]. intros etaMs _.
  eapply yields_bind; [apply yields_getUint32|]. intros payloadLen Hplen.
  eapply yields_bind; [apply yields_getBytes|]. intros payload Hpayload.
  eapply yields_bind; [apply yields_getUint16|]. intros headersCount Hcount.
  eapply yields_bind; [apply (yields_getHeaders _ ∅), map_Forall_empty|].
  intros headers [Hsize Hheaders].
  eapply yields_bind; [apply yields_getString|]. intros leaseID HleaseID.
  eapply yields_bind; [apply yields_getString|]. intros reason Hreason.
  cbv beta in *.
  apply yields_ret. split; [done|]. split; [|apply wholeMillis_ofUnixMilli].
  unfold sized. simpl. rewrite map_size_empty in Hsize.
  repeat split; [done..|lia|lia|].
  apply Forall_forall. intros [k v] Hkv. apply elem_of_map_to_list in Hkv.
  by apply (Hheaders k v).
Qed.

(** X7.  Whatever bytes [Record.Unmarshal] accepts, the record it
    returns has all its fields within what the layout can carry (type
    and priority in a byte, the counters in four bytes, strings and the
    number of headers below 2^16, the scheduled time a whole number of
    milliseconds), so that serializing it with [Marshal] and parsing the
    result gives the same record again, in whatever order the headers
    are written. *)
Theorem parsed_record_round_trips (data : list byte) (r : Record_)
    (order : list (string * string)) :
  Unmarshal data = inr r →
  order ≡ₚ map_to_list (Headers r) →
  typed r ∧ sized r ∧ wholeMillis (ETA r)
  ∧ Unmarshal (MarshalIn order r) = inr r.
Proof.
  intros Hparse Hperm. unfold Unmarshal in Hparse.
  destruct (parseRecord data 0%nat) as [e|[r0 k]] eqn:Hrun; [done|].
  injection Hparse as ->.
  destruct (yields_parseRecord data 0%nat r k Hrun) as (Ht & Hs & Hms).
  split; [done|]. split; [done|]. split; [done|].
  rewrite Unmarshal_MarshalIn by done. by rewrite wire_id.
Qed.

Lemma parsed_record_round_trips_witness :
  typed sampleRecord ∧ sized sampleRecord ∧ wholeMillis (ETA sampleRecord)
  ∧ Unmarshal (MarshalIn (map_to_list (Headers sampleRecord)) sampleRecord)
    = inr sampleRecord.
Proof.
  refine (parsed_record_round_trips (Marshal subMilliRecord) sampleRecord
            (map_to_list (Headers sampleRecord)) _ _).
  - vm_compute. reflexivity.
  - reflexivity.
Defined.



Lemma sized_subMilliRecord : sized subMilliRecord.
Proof.
  unfold sized, fits16.
  repeat split; try (vm_compute; reflexivity).
  match goal with |- ?P => apply (bool_decide_unpack P) end.
  vm_compute. exact I.
Qed.


(** X9.  [util.AppendChecksum] returns the data followed by four bytes,
    and those four bytes, read as a little-endian word, are a checksum
    that [VerifyChecksum] accepts for the data. *)
Theorem AppendChecksum_verifies (data : list byte) :
  let result := util.AppendChecksum data in
  length result = (length data + 4)%nat
  ∧ take (length data) result = data
  ∧ util.VerifyChecksum (take (length data) result)
      (LittleEndian.Uint32 (drop (length data) result)) = true.
Proof.
  unfold util.AppendChecksum. cbv zeta.
  rewrite length_app, take_app_length, drop_app_length.
  split; [done|]. split; [done|].
  rewrite Uint32_PutUint32_nil, uint32_Checksum.
  unfold util.VerifyChecksum. by rewrite bool_decide_true.
Qed.

(** *** How far a parse moves *)

Lemma advances_ret {A} (a : A) : advances (pret a) 0.
Proof. intros data offset a' offset' [= _ <-]. lia. Qed.

Lemma advances_bind {A B} (p : Parser A) (f : A → Parser B) (k1 k2 : nat) :
  advances p k1 → (∀ a, advances (f a) k2) → advances (pbind p f) (k1 + k2).
Proof.
  intros Hp Hf data offset b offset2. unfold pbind.
  destruct (p data offset) as [e|[a offset1]] eqn:Hrun; [done|].
  intros Hrun2. apply Hp in Hrun. apply Hf in Hrun2. lia.
Qed.

Lemma advances_le {A} (p : Parser A) (k k' : nat) :
  advances p k → (k' ≤ k)%nat → advances p k'.
Proof. intros Hp Hle data offset a offset' Hrun. apply Hp in Hrun. lia. Qed.

Lemma advances_getByte : advances getByte 1.
Proof.
  intros data offset a offset'. unfold getByte.
  destruct (decide _); [done|]. intros [= _ <-]. lia.
Qed.

Lemma advances_getUint16 : advances getUint16 2.
Proof.
  intros data offset a offset'. unfold getUint16.
  destruct (decide _); [done|]. intros [= _ <-]. lia.
Qed.

Lemma advances_getUint32 : advances getUint32 4.
Proof.
  intros data offset a offset'. unfold getUint32.
  destruct (decide _); [done|]. intros [= _ <-]. lia.
Qed.

Lemma advances_getUint64 : advances getUint64 8.
Proof.
  intros data offset a offset'. unfold getUint64.
  destruct (decide _); [done|]. intros [= _ <-]. lia.
Qed.

Lemma advances_getBytes (n : nat) : advances (getBytes n) 0.
Proof.
  intros data offset a offset'. unfold getBytes.
  destruct (decide _); [done|]. intros [= _ <-]. lia.
Qed.

Lemma advances_getString : advances getString 2.
Proof.
  unfold getString.
  apply (advances_bind _ _ 2 0); [apply advances_getUint16|]. intros n.
  apply (advances_bind _ _ 0 0); [apply advances_getBytes|]. intros b.
  apply advances_ret.
Qed.

Lemma advances_getHeaders (count : nat) (m : gmap string string) :
  advances (getHeaders count m) 0.
Proof.
  revert m. induction count as [|count IH]; intros m; simpl.
  - apply advances_ret.
  - apply (advances_bind _ _ 0 0);
      [eapply advances_le; [apply advances_getString|lia]|]. intros key.
    apply (advances_bind _ _ 0 0);
      [eapply advances_le; [apply advances_getString|lia]|]. intros val.
    apply IH.
Qed.

Lemma advances_parseRecord : advances parseRecord 32.
Proof.
  unfold parseRecord.
  apply (advances_bind _ _ 1 31); [apply advances_getByte|]. intros ty.
  apply (advances_bind _ _ 2 29); [apply advances_getString|]. intros queue.
  apply (advances_bind _ _ 2 27); [apply advances_getString|]. intros jobID.
  apply (advances_bind _ _ 1 26); [apply advances_getByte|]. intros priority.
  apply (advances_bind _ _ 4 22); [apply advances_getUint32|]. intros tries.
  apply (advances_bind _ _ 4 18); [apply advances_getUint32|]. intros maxr.
  apply (advances_bind _ _ 8 10); [apply advances_getUint64|]. intros etaMs.
  apply (advances_bind _ _ 4 6); [apply advances_getUint32|]. intros plen.
  apply (advances_bind _ _ 0 6); [apply advances_getBytes|]. intros payload.
  apply (advances_bind _ _ 2 4); [apply advances_getUint16|]. intros count.
  apply (advances_bind _ _ 0 4); [apply advances_getHeaders|]. intros headers.
  apply (advances_bind _ _ 2 2); [apply advances_getString|]. intros leaseID.
  apply (advances_bind _ _ 2 0); [apply advances_getString|]. intros reason.
  apply advances_ret.
Qed.

(** X10.  [Record.Unmarshal] fails with [ErrInvalidRecord] on every
    input of fewer than 32 bytes, the empty input included: 32 bytes is
    the fixed part of the layout, and the parser never reads past the
    end of its input. *)
Theorem Unmarshal_short_input (data : list byte) :
  (length data < 32)%nat → Unmarshal data = inl ErrInvalidRecord.
Proof.
  intros Hshort. unfold Unmarshal.
  destruct (parseRecord data 0%nat) as [e|[r k]] eqn:Hrun.
  - f_equal. by eapply onlyInvalid_parseRecord.
  - pose proof (advances_parseRecord data 0%nat r k Hrun).
    destruct (local_parseRecord data 0%nat r k ltac:(lia) Hrun) as [Hle _].
    lia.
Qed.

Lemma Unmarshal_short_input_witness :
  Unmarshal (take 31 (Marshal sampleRecord)) = inl ErrInvalidRecord.
Proof.
  apply (Unmarshal_short_input (take 31 (Marshal sampleRecord))).
  rewrite length_take. lia.
Defined.

End CodecMore.

(** ** Writing to the log and reading it back *)

Section WriteReplay.

Import wal.

Lemma frames_app (bs1 bs2 : list (list byte)) :
  frames (bs1 ++ bs2) = frames bs1 ++ frames bs2.
Proof. unfold frames. apply flat_map_app. Qed.

Lemma frames_singleton (data : list byte) : frames [data] = frame data.
Proof. unfold frames. cbn [flat_map]. apply app_nil_r. Qed.

Lemma decodes_Marshal (r : Record_) : framable r → decodes (Marshal r) (wire r).
Proof.
  intros [Hs Hlen]. split; [exact Hlen|]. unfold Marshal.
  apply Unmarshal_MarshalIn; [exact Hs|reflexivity].
Qed.

(** What a successful [Write] does: maybe a new segment, and then one
    frame at the end of the active segment. *)
Lemma Write_true (w : WAL) (r : Record_) :
  seg_readOnly (activeSegment w) = false →
  let w1 := if IsFull (activeSegment w) then (createSegment true w).2 else w in
  Write true w r
  = (None,
     withActive w1
       (mkSegment (seg_id (activeSegment w1))
          (seg_file (activeSegment w1) ++ frame (Marshal r))
          (seg_size (activeSegment w1) + (8 + Z.of_nat (length (Marshal r))))
          (seg_maxSize (activeSegment w1)) (seg_fsync (activeSegment w1))
          false)).
Proof.
  intros Hro. unfold Write. destruct (IsFull (activeSegment w)); simpl.
  - reflexivity.
  - unfold Segment_Write. rewrite Hro. reflexivity.
Qed.

(** With the disk down every [Write] fails and leaves the log as it
    was. *)
Lemma Write_disk_down (w : WAL) (record : Record_) :
  ∃ err, Write false w record = (Some err, w).
Proof.
  unfold Write. destruct (IsFull (activeSegment w)); simpl.
  - eauto.
  - unfold Segment_Write.
    destruct (seg_readOnly (activeSegment w)); simpl;
      destruct w; eauto.
Qed.

Lemma Write_logged (w : WAL) (records : list Record_) (r : Record_) :
  logged w records → framable r →
  seg_readOnly (activeSegment w) = false →
  ∃ w', Write true w r = (None, w')
    ∧ logged w' (records ++ [wire r])
    ∧ seg_readOnly (activeSegment w') = false.
Proof.
  intros (bodies & Hsegs & Hdec) Hr Hro.
  rewrite (Write_true w r Hro). eexists. split; [reflexivity|].
  split; [|by destruct (IsFull (activeSegment w))].
  unfold segments in Hsegs.
  apply Forall2_app_inv_l in Hsegs as (bs0 & bsl & Hold & Hact & ->).
  apply Forall2_cons_inv_l in Hact as (bl & nil_ & Hfile & Hnil & ->).
  apply Forall2_nil_inv_l in Hnil as ->.
  rewrite concat_app in Hdec. simpl in Hdec. rewrite app_nil_r in Hdec.
  pose proof (decodes_Marshal r Hr) as Hd.
  destruct (IsFull (activeSegment w)).
  - exists (bs0 ++ [bl] ++ [[Marshal r]]). unfold segments. simpl. split.
    + rewrite <- app_assoc. apply Forall2_app; [done|].
      constructor; [done|]. constructor; [|constructor].
      by rewrite frames_singleton.
    + rewrite !concat_app. simpl. rewrite ?app_nil_r, app_assoc.
      apply Forall2_app; [done|]. by constructor.
  - exists (bs0 ++ [bl ++ [Marshal r]]). unfold segments. simpl. split.
    + apply Forall2_app; [done|]. constructor; [|constructor].
      rewrite frames_app, frames_singleton. cbn [seg_file]. by rewrite Hfile.
    + rewrite concat_app. simpl. rewrite ?app_nil_r, !app_assoc.
      apply Forall2_app; [done|]. by constructor.
Qed.

Lemma logged_New (cfgSegmentSize : Z) (cfgFsync : bool) :
  logged (New cfgSegmentSize cfgFsync) [].
Proof.
  exists [[]]. split; [|constructor].
  unfold segments, New. simpl. constructor; [done|constructor].
Qed.

Lemma appended_logged (w0 w : WAL) (records0 records : list Record_) :
  appended w0 w records →
  logged w0 records0 → seg_readOnly (activeSegment w0) = false →
  Forall framable records →
  logged w (records0 ++ (wire <$> records))
  ∧ seg_readOnly (activeSegment w) = false.
Proof.
  induction 1 as [|w records r w' _ IH Hw]; intros Hlog Hro Hall.
  - simpl. by rewrite app_nil_r.
  - apply Forall_app in Hall as [Hall Hr]. apply Forall_inv in Hr.
    destruct (IH Hlog Hro Hall) as [Hlog' Hro'].
    destruct (Write_logged w _ r Hlog' Hr Hro') as (w2 & Hw2 & Hlog2 & Hro2).
    rewrite Hw in Hw2. injection Hw2 as <-.
    rewrite fmap_app, app_assoc. done.
Qed.

(** X11.  On a log that started empty and has taken the records
    [records] through successful calls of [WAL.Write], each one framable
    (its fields fit their length prefixes and its bytes the four-byte
    length of a frame): a further [Write] succeeds as long as the disk
    does, and [Replay] hands the callback the records written, all of
    them, once each and in the order written, as they come off the wire;
    if the callback accepts them all, the replay ends without error in
    the state they lead to. *)
Theorem written_records_replay (cfgSegmentSize : Z) (cfgFsync : bool)
    (w : WAL) (records : list Record_) :
  appended (New cfgSegmentSize cfgFsync) w records →
  Forall framable records →
  (∀ record, ∃ w', Write true w record = (None, w'))
  ∧ Replay collect w [] = Some (None, wire <$> records)
  ∧ ∀ (St : Type) (callback : Callback St) (st st' : St),
      deliver callback (wire <$> records) st = Some (None, st') →
      Replay callback w st = Some (None, st').
Proof.
  intros Happ Hall.
  destruct (appended_logged _ w [] records Happ
    (logged_New cfgSegmentSize cfgFsync) eq_refl Hall)
    as [(bodies & Hsegs & Hdec) Hro].
  simpl in Hdec.
  assert (Hreplay : ∀ (St : Type) (callback : Callback St) (st st' : St),
    deliver callback (wire <$> records) st = Some (None, st') →
    Replay callback w st = Some (None, st')).
  { intros St callback st st' Hdel. unfold Replay.
    by apply (replaySegments_whole callback _ bodies (wire <$> records)). }
  split; [|split; [|done]].
  - intros record. destruct (Write_ok w record Hro) as (w' & Hw & _). eauto.
  - apply Hreplay.
    assert (Hgen : ∀ rs acc, deliver collect rs acc = Some (None, acc ++ rs)).
    { induction rs as [|r rs IH]; intros acc; simpl.
      - by rewrite app_nil_r.
      - rewrite IH. by rewrite <- app_assoc. }
    apply Hgen.
Qed.

Lemma framable_subMilliRecord : framable subMilliRecord.
Proof. split; [exact sized_subMilliRecord|]. vm_compute. reflexivity. Qed.

Lemma framable_secondRecord : framable secondRecord.
Proof.
  split; [|vm_compute; reflexivity]. unfold sized, fits16.
  repeat split; try (vm_compute; reflexivity).
  match goal with |- ?P => apply (bool_decide_unpack P) end.
  vm_compute. exact I.
Qed.

Lemma appended_afterTwo :
  appended smallLog afterTwo (([] ++ [subMilliRecord]) ++ [secondRecord]).
Proof.
  apply (appended_Write _ afterOne); [|vm_compute; reflexivity].
  apply (appended_Write _ smallLog); [|vm_compute; reflexivity].
  constructor.
Qed.

Lemma written_records_replay_witness :
  (∀ record, ∃ w', Write true afterTwo record = (None, w'))
  ∧ Replay collect afterTwo []
    = Some (None, wire <$> ([] ++ [subMilliRecord]) ++ [secondRecord])
  ∧ ∀ (St : Type) (callback : Callback St) (st st' : St),
      deliver callback (wire <$> ([] ++ [subMilliRecord]) ++ [secondRecord])
        st = Some (None, st') →
      Replay callback afterTwo st = Some (None, st').
Proof.
  refine (written_records_replay 64 false afterTwo
            (([] ++ [subMilliRecord]) ++ [secondRecord]) _ _).
  - exact appended_afterTwo.
  - apply Forall_cons. split; [exact framable_subMilliRecord|].
    apply Forall_cons. split; [exact framable_secondRecord|].
    apply Forall_nil_2.
Defined.

(** *** Sizes, rotation and segment ids *)

Lemma TotalSize_sum (segs : list Segment) (acc : Z) :
  (∀ seg, seg ∈ segs → seg_size seg = Z.of_nat (length (seg_file seg))) →
  0 ≤ acc →
  acc + Z.of_nat (length (concat (seg_file <$> segs))) < 2 ^ 63 →
  foldl (λ total seg, int64 (total + Size seg)) acc segs
  = acc + Z.of_nat (length (concat (seg_file <$> segs))).
Proof.
  revert acc. induction segs as [|seg segs IH]; intros acc Hsize Hacc Hlt.
  - simpl. lia.
  - rewrite fmap_cons in *. cbn [concat foldl] in *.
    rewrite length_app in *. unfold Size at 2.
    rewrite (Hsize seg) by by left.
    rewrite int64_small by lia.
    rewrite IH; [lia| |lia|lia]. intros s Hs. apply Hsize. by right.
Qed.

Lemma length_frame (data : list byte) :
  length (frame data) = (8 + length data)%nat.
Proof. reflexivity. Qed.

Ltac wal_fields :=
  cbn [createSegment snd withActive older activeSegment nextSegmentID
       segmentSize fsync NewSegment seg_id seg_file seg_size seg_readOnly
       seg_maxSize seg_fsync New] in *.

Lemma appended_invariants (cfgSegmentSize : Z) (cfgFsync : bool)
    (w : WAL) (records : list Record_) :
  appended (New cfgSegmentSize cfgFsync) w records →
  (∀ seg, seg ∈ segments w →
     seg_size seg = Z.of_nat (length (seg_file seg))
     ∧ seg_readOnly seg = false ∧ seg_maxSize seg = segmentSize w)
  ∧ (∀ seg, seg ∈ older w → IsFull seg = true)
  ∧ (∀ i seg, segments w !! i = Some seg → seg_id seg = uint64 (Z.of_nat i))
  ∧ nextSegmentID w = uint64 (Z.of_nat (length (segments w)))
  ∧ concat (seg_file <$> segments w) = frames (Marshal <$> records)
  ∧ (length (segments w) ≤ 1 + length records)%nat.
Proof.
  induction 1 as [|w records r w' _ IH Hw].
  - unfold segments. wal_fields. split; [|split; [|split; [|split]]].
    + intros seg ->%list_elem_of_singleton. done.
    + intros seg Hin. by apply elem_of_nil in Hin.
    + intros [|i] seg; [|done]. by intros [= <-].
    + done.
    + done.
  - destruct IH as (Hsegs & Hold & Hids & Hnext & Hcat & Hcount).
    assert (Hro : seg_readOnly (activeSegment w) = false).
    { apply Hsegs. unfold segments. apply elem_of_app. right. by left. }
    rewrite (Write_true w r Hro) in Hw.
    destruct (Hsegs (activeSegment w)) as (Hasize & _ & Hamax).
    { unfold segments. apply elem_of_app. right. by left. }
    assert (Hfr : frames (Marshal <$> records ++ [r])
                  = frames (Marshal <$> records) ++ frame (Marshal r)).
    { rewrite fmap_app, frames_app. f_equal. apply frames_singleton. }
    rewrite Hfr, (length_app records). clear Hfr.
    revert Hw. generalize (Marshal r). intros M [= <-].
    destruct (IsFull (activeSegment w)) eqn:Hfull; unfold segments in *;
      wal_fields.
    + split; [|split; [|split; [|split; [|split]]]].
      * intros seg [Hin| ->%list_elem_of_singleton]%elem_of_app;
          [by apply Hsegs|].
        wal_fields. rewrite app_nil_l, length_frame. split; [lia|done].
      * intros seg [Hin| ->%list_elem_of_singleton]%elem_of_app;
          [by apply Hold; done|done].
      * intros i seg Hi. apply lookup_app_Some in Hi as [Hi|[Hge Hi]];
          [by apply Hids|].
        apply list_lookup_singleton_Some in Hi as [Hi <-]. wal_fields.
        rewrite Hnext. f_equal. lia.
      * rewrite Hnext, !length_app. unfold uint64.
        rewrite Zplus_mod_idemp_l. f_equal. cbn [length]. lia.
      * rewrite fmap_app, concat_app, Hcat. cbn [fmap list_fmap concat].
        wal_fields. by rewrite app_nil_l, app_nil_r.
      * rewrite !length_app in *. cbn [length] in *. lia.
    + split; [|split; [|split; [|split; [|split]]]].
      * intros seg [Hin| ->%list_elem_of_singleton]%elem_of_app.
        -- apply Hsegs. apply elem_of_app. by left.
        -- wal_fields. rewrite length_app, length_frame. split; [lia|done].
      * done.
      * intros i seg Hi. apply lookup_app_Some in Hi as [Hi|[Hge Hi]].
        -- apply Hids. by apply lookup_app_l_Some.
        -- apply list_lookup_singleton_Some in Hi as [Hi <-]. wal_fields.
           apply Hids. rewrite lookup_app_r by done.
           by apply list_lookup_singleton_Some.
      * rewrite Hnext, !length_app. done.
      * rewrite fmap_app, concat_app in *. cbn [fmap list_fmap concat] in *.
        wal_fields. rewrite app_nil_r in *. by rewrite app_assoc, Hcat.
      * rewrite !length_app in *. cbn [length] in *. lia.
Qed.

(** X12.  On a log that started empty and has taken [records] through
    successful calls of [WAL.Write]: the files of the segments, one
    after the other, hold the frames of the records in the order
    written and nothing else; the size every segment keeps is the
    length of its file; a segment is left for a new one only when it is
    full, so every segment but the last is full; the segments carry the
    ids 0, 1, 2, ... in order; there are at most as many segments as
    records, plus one; and [TotalSize] is the number of bytes in the
    files (while that is less than 2^63). *)
Theorem segments_account (cfgSegmentSize : Z) (cfgFsync : bool)
    (w : WAL) (records : list Record_) :
  appended (New cfgSegmentSize cfgFsync) w records →
  concat (seg_file <$> segments w) = frames (Marshal <$> records)
  ∧ (∀ seg, seg ∈ segments w → Size seg = Z.of_nat (length (seg_file seg)))
  ∧ (∀ seg, seg ∈ older w → IsFull seg = true)
  ∧ (∀ i seg, segments w !! i = Some seg → seg_id seg = uint64 (Z.of_nat i))
  ∧ 1 ≤ SegmentCount w ≤ 1 + Z.of_nat (length records)
  ∧ (Z.of_nat (length (frames (Marshal <$> records))) < 2 ^ 63 →
     TotalSize w = Z.of_nat (length (frames (Marshal <$> records)))).
Proof.
  intros Happ.
  destruct (appended_invariants _ _ w records Happ)
    as (Hsegs & Hold & Hids & _ & Hcat & Hcount).
  split; [done|]. split; [intros seg Hin; by apply Hsegs|].
  split; [done|]. split; [done|]. split.
  - unfold SegmentCount. split; [|lia].
    unfold segments. rewrite length_app. simpl. lia.
  - intros Hlt. unfold TotalSize. rewrite <- Hcat in *.
    rewrite TotalSize_sum; [lia| |lia|lia].
    intros seg Hin. by apply Hsegs.
Qed.

Lemma segments_account_witness :
  concat (seg_file <$> segments afterTwo)
  = frames (Marshal <$> ([] ++ [subMilliRecord]) ++ [secondRecord])
  ∧ (∀ seg, seg ∈ segments afterTwo →
       Size seg = Z.of_nat (length (seg_file seg)))
  ∧ (∀ seg, seg ∈ older afterTwo → IsFull seg = true)
  ∧ (∀ i seg, segments afterTwo !! i = Some seg →
       seg_id seg = uint64 (Z.of_nat i))
  ∧ 1 ≤ SegmentCount afterTwo
      ≤ 1 + Z.of_nat (length (([] ++ [subMilliRecord]) ++ [secondRecord]))
  ∧ (Z.of_nat
       (length (frames (Marshal <$> ([] ++ [subMilliRecord])
                                     ++ [secondRecord]))) < 2 ^ 63 →
     TotalSize afterTwo
     = Z.of_nat
         (length (frames (Marshal <$> ([] ++ [subMilliRecord])
                                       ++ [secondRecord])))).
Proof.
  exact (segments_account 64 false afterTwo
           (([] ++ [subMilliRecord]) ++ [secondRecord]) appended_afterTwo).
Defined.

(** *** Opening the directory again *)

Lemma appended_config (cfgSegmentSize : Z) (cfgFsync : bool)
    (w : WAL) (records : list Record_) :
  appended (New cfgSegmentSize cfgFsync) w records →
  segmentSize w = segmentSize (New cfgSegmentSize cfgFsync)
  ∧ fsync w = cfgFsync
  ∧ ∀ seg, seg ∈ segments w → seg_fsync seg = cfgFsync.
Proof.
  induction 1 as [|w records r w' Happ IH Hw].
  - unfold segments. wal_fields. split; [done|]. split; [done|].
    intros seg ->%list_elem_of_singleton. done.
  - destruct IH as (Hsize & Hfs & Hsegs).
    destruct (appended_invariants _ _ _ _ Happ) as (Hinv & _).
    assert (Hro : seg_readOnly (activeSegment w) = false).
    { apply Hinv. unfold segments. apply elem_of_app. right. by left. }
    rewrite (Write_true w r Hro) in Hw. revert Hw.
    generalize (Marshal r). intros M [= <-].
    destruct (IsFull (activeSegment w)); unfold segments in *; wal_fields.
    + split; [done|]. split; [done|].
      intros seg [Hin| ->%list_elem_of_singleton]%elem_of_app;
        [by apply Hsegs|done].
    + split; [done|]. split; [done|].
      intros seg [Hin| ->%list_elem_of_singleton]%elem_of_app.
      * apply Hsegs. apply elem_of_app. by left.
      * wal_fields. apply Hsegs. apply elem_of_app. right. by left.
Qed.

Lemma omap_fmap_id {A B} (f : B → option A) (g : A → B) (l : list A) :
  (∀ x, x ∈ l → f (g x) = Some x) → omap f (g <$> l) = l.
Proof.
  induction l as [|x l IH]; intros Hf; [done|].
  rewrite fmap_cons. cbn [omap list_omap]. rewrite Hf by by left.
  f_equal. apply IH. intros y Hy. apply Hf. by right.
Qed.

Lemma Sorted_Z_of_nat_seq (start len : nat) :
  Sorted Z.le (Z.of_nat <$> seq start len).
Proof.
  revert start. induction len as [|len IH]; intros start; [constructor|].
  simpl. constructor; [apply IH|].
  destruct len; simpl; constructor. lia.
Qed.

Lemma segment_ids (cfgSegmentSize : Z) (cfgFsync : bool)
    (w : WAL) (records : list Record_) :
  appended (New cfgSegmentSize cfgFsync) w records →
  Z.of_nat (length records) < 2 ^ 64 - 1 →
  seg_id <$> segments w = Z.of_nat <$> seq 0 (length (segments w)).
Proof.
  intros Happ Hlen.
  destruct (appended_invariants _ _ _ _ Happ)
    as (_ & _ & Hids & _ & _ & Hcount).
  apply list_eq. intros i. rewrite !list_lookup_fmap.
  destruct (segments w !! i) as [seg|] eqn:Hseg; simpl.
  - pose proof (lookup_lt_Some _ _ _ Hseg) as Hi.
    rewrite lookup_seq_lt by done. simpl. f_equal.
    rewrite (Hids i seg Hseg). unfold uint64. apply Z.mod_small. lia.
  - apply lookup_ge_None in Hseg. by rewrite lookup_seq_ge.
Qed.

(** X13.  A restart sees the log as the running process left it: for a
    log that started empty and has taken records through successful
    calls of [Write], [New] with the same configuration on the
    directory that holds the files of its segments gives the same
    segments in the same order, with the same ids and sizes, the same
    active segment and the same next segment id. *)
Theorem reopened_log_is_the_same (cfgSegmentSize : Z) (cfgFsync : bool)
    (w : WAL) (records : list Record_) :
  appended (New cfgSegmentSize cfgFsync) w records →
  Z.of_nat (length records) < 2 ^ 64 - 1 →
  NewIn (dirOf w) cfgSegmentSize cfgFsync = w.
Proof.
  intros Happ Hlen.
  destruct (appended_invariants _ _ _ _ Happ)
    as (Hsegs & _ & Hids & Hnext & _ & Hcount).
  destruct (appended_config _ _ _ _ Happ) as (Hsize & Hfs & Hfsync).
  pose proof (segment_ids _ _ _ _ Happ Hlen) as Hseq.
  set (L := (λ s, (seg_id s, seg_file s)) <$> segments w).
  assert (HL1 : L.*1 = seg_id <$> segments w).
  { unfold L. rewrite <- list_fmap_compose. done. }
  assert (Hnd : NoDup L.*1).
  { rewrite HL1, Hseq. apply NoDup_fmap; [apply _|]. apply NoDup_seq. }
  assert (Hsorted : sortedIDs (dirOf w) = seg_id <$> segments w).
  { unfold sortedIDs, dirOf. fold L.
    apply (Sorted_unique Z.le).
    - apply Sorted_merge_sort. apply _.
    - rewrite Hseq. apply Sorted_Z_of_nat_seq.
    - rewrite merge_sort_Permutation, <- HL1.
      apply fmap_Permutation. by apply map_to_list_to_map. }
  unfold NewIn. rewrite Hsorted.
  rewrite (omap_fmap_id _ seg_id (segments w)).
  2:{ intros seg Hin.
      assert (Hlook : dirOf w !! seg_id seg = Some (seg_file seg)).
      { unfold dirOf. fold L. apply elem_of_list_to_map_1; [done|].
        unfold L. apply list_elem_of_fmap. by exists seg. }
      rewrite Hlook. simpl. f_equal. destruct (Hsegs seg Hin) as (Hs & Hro & Hmax).
      pose proof (Hfsync seg Hin) as Hf. unfold openSegment.
      destruct seg as [id file size max fsy ro]. simpl in Hs, Hro, Hmax, Hf.
      simpl. rewrite <- Hs, Hf, Hro. f_equal. rewrite Hmax, Hsize. done. }
  unfold segments at 1 2. rewrite last_snoc, removelast_last.
  assert (Hid : seg_id (activeSegment w)
                = uint64 (Z.of_nat (length (older w)))).
  { apply Hids. unfold segments. rewrite lookup_app_r by done.
    by rewrite Nat.sub_diag. }
  destruct w as [old act next size fs]. simpl in *. f_equal.
  - rewrite Hnext, Hid. unfold segments. simpl. rewrite length_app. simpl.
    unfold uint64. rewrite Zplus_mod_idemp_l. f_equal. lia.
  - by rewrite Hsize.
  - done.
Qed.

Lemma reopened_log_is_the_same_witness :
  NewIn (dirOf afterTwo) 64 false = afterTwo.
Proof.
  refine (reopened_log_is_the_same 64 false afterTwo
            (([] ++ [subMilliRecord]) ++ [secondRecord]) _ _).
  - exact appended_afterTwo.
  - vm_compute. reflexivity.
Defined.

End WriteReplay.

(** ** Restart *)

Section Restart.

Import queue.

(** A replay whose callback keeps an invariant of the state never runs
    out of fuel and ends in a state with the invariant. *)
Lemma readSegment_keeps {St : Type} (callback : wal.Callback St)
    (P : St → Prop) (fuel : nat) (reader : wal.SegmentReader) (st : St) :
  (∀ record st, P st → ∃ e st', callback record st = Some (e, st') ∧ P st') →
  P st → (length (wal.rd_unread reader) < fuel)%nat →
  ∃ e st', wal.readSegment fuel callback reader st = Some (e, st') ∧ P st'.
Proof.
  intros Hcb. revert reader st.
  induction fuel as [|fuel IH]; intros reader st HP Hlt; [lia|].
  simpl. destruct (wal.Read reader) as [[err|record] reader'] eqn:Hread.
  - repeat (destruct (decide _)); eauto.
  - destruct (Hcb record st HP) as ([err|] & st' & -> & HP'); [eauto|].
    apply IH; [done|]. apply Read_consumes in Hread. lia.
Qed.

Lemma replaySegments_keeps {St : Type} (callback : wal.Callback St)
    (P : St → Prop) (segs : list wal.Segment) (st : St) :
  (∀ record st, P st → ∃ e st', callback record st = Some (e, st') ∧ P st') →
  P st →
  ∃ e st', wal.replaySegments callback segs st = Some (e, st') ∧ P st'.
Proof.
  intros Hcb. revert st. induction segs as [|s segs IH]; intros st HP;
    cbn [wal.replaySegments]; [eauto|].
  destruct (readSegment_keeps callback P (S (length (wal.seg_file s)))
    (wal.NewSegmentReader s) st Hcb HP) as ([err|] & st' & -> & HP');
    [simpl; lia|eauto|].
  by apply IH.
Qed.

Lemma allReady_withQueue (m : Manager) (key : string) (q : Queue) :
  allReady m →
  inflight q = ∅ → dlq q = ∅ → (∀ j, j ∈ jobs (ready q) → unleased j) →
  allReady (withQueue m key q).
Proof.
  intros Hm Hi Hd Hj key' q'. unfold withQueue. simpl.
  destruct (decide (key = key')) as [->|Hne].
  - rewrite lookup_insert_eq. by intros [= <-].
  - rewrite lookup_insert_ne by done. apply Hm.
Qed.

Lemma applyRecord_allReady (env : Env) (record : wal.Record_) (m : Manager) :
  readyOK m ∧ allReady m →
  ∃ e m', applyRecord env record m = Some (e, m') ∧ readyOK m' ∧ allReady m'.
Proof.
  intros [Hok Hall]. exists None.
  destruct (applyRecord_spec env record m Hok) as (m' & Hrun & Hok' & _).
  exists m'. split; [done|]. split; [done|].
  revert Hrun. unfold applyRecord.
  destruct (decide (wal.Type_ record = wal.RecordTypeEnqueue)) as [Henq|Henq].
  { set (j := mkJob _ _ _ _ _ _ _ _ _ _ _ _).
    assert (Hget : ∃ queue m1,
      getOrCreateQueue m (wal.Queue record) = (queue, m1)
      ∧ pq_inv (ready queue) ∧ allReady m1
      ∧ inflight queue = ∅ ∧ dlq queue = ∅
      ∧ ∀ j, j ∈ jobs (ready queue) → unleased j).
    { unfold getOrCreateQueue.
      destruct (queues m !! wal.Queue record) as [q|] eqn:Hq.
      - exists q, m. split; [done|]. split; [by apply (Hok _ _ Hq)|].
        split; [done|]. apply (Hall _ _ Hq).
      - eexists _, _. split; [done|]. simpl.
        split; [apply pq_inv_new|].
        assert (Hnone : ∀ j, j ∈ jobs newPriorityQueue → unleased j).
        { intros j0 Hin. by apply elem_of_nil in Hin. }
        split; [by apply allReady_withQueue|]. done. }
    destruct Hget as (queue & m1 & -> & Hinv & Hm1 & Hi & Hd & Hjs).
    destruct (Push_spec (ready queue) j Hinv) as (pq' & -> & _ & Hres).
    simpl. intros [= <-]. apply allReady_withQueue; [done..|].
    intros j0 Hj0. simpl in Hj0.
    destruct (decide (ID j ∈ ID <$> jobs (ready queue))).
    - subst pq'. by apply Hjs.
    - rewrite Hres in Hj0. apply elem_of_cons in Hj0 as [->|Hj0];
        [done|by apply Hjs]. }
  destruct (decide (wal.Type_ record = wal.RecordTypeAck)) as [Hack|Hack].
  { unfold getQueue. destruct (queues m !! wal.Queue record) as [q|] eqn:Hq;
      [|by intros [= <-]].
    intros [= <-]. destruct (Hall _ _ Hq) as (Hi & Hd & Hjs).
    apply allReady_withQueue; [done| |done..]. simpl.
    rewrite Hi. apply delete_empty. }
  destruct (decide (wal.Type_ record = wal.RecordTypeNack
                    ∨ wal.Type_ record = wal.RecordTypeRequeue)) as [Hn|Hn].
  { unfold getQueue. destruct (queues m !! wal.Queue record) as [q|] eqn:Hq;
      [|by intros [= <-]].
    destruct (Hall _ _ Hq) as (Hi & Hd & Hjs).
    rewrite Hi, lookup_empty. by intros [= <-]. }
  destruct (decide (wal.Type_ record = wal.RecordTypeTombstone)) as [Ht|Ht].
  { unfold getQueue. destruct (queues m !! wal.Queue record) as [q|] eqn:Hq;
      [|by intros [= <-]].
    intros [= <-]. destruct (Hall _ _ Hq) as (Hi & Hd & Hjs).
    apply allReady_withQueue; [done| | |done]; simpl.
    - rewrite Hi. apply delete_empty.
    - rewrite Hd. apply delete_empty. }
  by intros [= <-].
Qed.

(** X14.  Whatever the files of the log hold, [replayWAL] on a new
    manager comes to an end, with an error or without one, and it
    restores jobs to the ready structures only: in every queue it leaves
    the in-flight map and the dead-letter map are empty, and every job
    is READY, with no lease id and no lease deadline.  The leases and
    the dead letters of the run before are not brought back. *)
Theorem replay_restores_ready_only (env : Env) (w : wal.WAL) :
  ∃ err m',
    replayWAL env (NewManager w) = Some (err, m')
    ∧ ∀ key queue, queues m' !! key = Some queue →
        inflight queue = ∅ ∧ dlq queue = ∅
        ∧ ∀ j, j ∈ jobs (ready queue) →
            Status j = JobStatusReady ∧ LeaseID j = ""%string
            ∧ LeaseDeadline j = time.zero.
Proof.
  unfold replayWAL, wal.Replay.
  destruct (replaySegments_keeps (applyRecord env)
    (λ m, readyOK m ∧ allReady m) (wal.segments w) (NewManager w)
    (applyRecord_allReady env)) as (err & m' & Hrun & _ & Hall).
  - split; [apply readyOK_new|]. intros key q. unfold NewManager. simpl.
    by rewrite lookup_empty.
  - exists err, m'. split; [done|]. exact Hall.
Qed.

(** *** Which jobs a replay brings back *)

Lemma enqueuedIn_app (rs1 rs2 : list wal.Record_) (q id : string) :
  enqueuedIn (rs1 ++ rs2) q id ↔ enqueuedIn rs1 q id ∨ enqueuedIn rs2 q id.
Proof.
  unfold enqueuedIn. split.
  - intros (r & [Hin|Hin]%elem_of_app & H); [left|right]; eauto.
  - intros [(r & Hin & H)|(r & Hin & H)]; exists r;
      (split; [apply elem_of_app; eauto|done]).
Qed.

Lemma enqueuedIn_singleton (r : wal.Record_) (q id : string) :
  enqueuedIn [r] q id ↔
  wal.Type_ r = wal.RecordTypeEnqueue ∧ wal.Queue r = q ∧ wal.JobID r = id.
Proof.
  unfold enqueuedIn. split.
  - by intros (r0 & ->%list_elem_of_singleton & H).
  - intros H. exists r. split; [by left|done].
Qed.

Lemma enqueuedIn_nil (q id : string) : ¬ enqueuedIn [] q id.
Proof. intros (r & Hin & _). by apply elem_of_nil in Hin. Qed.

(** The ids of the ready structure after a [Push]. *)
Lemma Push_ids_iff (pq : priorityQueue) (j : Job) :
  pq_inv pq →
  ∃ pq', PQ.Push pq j = Some pq' ∧ pq_inv pq'
    ∧ ∀ id, id ∈ ID <$> jobs pq' ↔ id ∈ ID <$> jobs pq ∨ id = ID j.
Proof.
  intros Hinv. destruct (Push_spec pq j Hinv) as (pq' & Hop & Hinv' & Hres).
  exists pq'. split; [done|]. split; [done|]. intros id.
  destruct (decide (ID j ∈ ID <$> jobs pq)) as [Hin|Hout].
  - subst pq'. split; [by left|]. by intros [?| ->].
  - assert (Hp : ID <$> jobs pq' ≡ₚ ID j :: (ID <$> jobs pq))
      by (by rewrite Hres).
    rewrite Hp, elem_of_cons. tauto.
Qed.

Lemma applyRecord_ids (env : Env) (record : wal.Record_) (m : Manager) :
  readyOK m → allReady m →
  ∃ m', applyRecord env record m = Some (None, m')
    ∧ readyOK m' ∧ allReady m'
    ∧ ∀ q id, id ∈ ID <$> readyJobs m' q ↔
        id ∈ ID <$> readyJobs m q ∨ enqueuedIn [record] q id.
Proof.
  intros Hok Hall.
  destruct (applyRecord_allReady env record m (conj Hok Hall))
    as (e & m' & Hrun & Hok' & Hall').
  destruct (applyRecord_spec env record m Hok) as (m0 & Hrun0 & _).
  assert (e = None ∧ m0 = m') as [-> ->] by (split; congruence).
  exists m'. split; [done|]. split; [done|]. split; [done|].
  intros q id. rewrite enqueuedIn_singleton.
  revert Hrun. clear Hrun0. unfold applyRecord.
  destruct (decide (wal.Type_ record = wal.RecordTypeEnqueue)) as [Henq|Henq].
  { set (j := mkJob _ _ _ _ _ _ _ _ _ _ _ _).
    assert (Hget : ∃ queue m1,
      getOrCreateQueue m (wal.Queue record) = (queue, m1)
      ∧ pq_inv (ready queue)
      ∧ (∀ key, readyJobs m1 key = readyJobs m key)
      ∧ readyJobs m (wal.Queue record) = jobs (ready queue)).
    { unfold getOrCreateQueue.
      destruct (queues m !! wal.Queue record) as [q0|] eqn:Hq.
      - exists q0, m. split; [done|]. split; [by apply (Hok _ _ Hq)|].
        split; [done|]. by apply readyJobs_lookup.
      - eexists _, _. split; [done|]. simpl.
        split; [apply pq_inv_new|]. split.
        + intros key. rewrite readyJobs_withQueue.
          destruct (decide _) as [<-|]; [|done].
          unfold readyJobs. by rewrite Hq.
        + unfold readyJobs. by rewrite Hq. }
    destruct Hget as (queue & m1 & -> & Hinv & Hsame & Hq).
    destruct (Push_ids_iff (ready queue) j Hinv) as (pq' & -> & _ & Hids).
    simpl. intros [= <-]. rewrite readyJobs_withQueue.
    destruct (decide (wal.Queue record = q)) as [<-|Hne].
    - simpl. rewrite Hids, Hq. subst j. simpl.
      split; (intros [?|H]; [by left|right]).
      + by subst id.
      + by destruct H as (_ & _ & <-).
    - rewrite Hsame. split; [by left|]. intros [?|(_ & ? & _)]; done. }
  assert (Hsame : Some (@None error, m) = Some (None, m') →
    id ∈ ID <$> readyJobs m' q ↔
    id ∈ ID <$> readyJobs m q
    ∨ wal.Type_ record = wal.RecordTypeEnqueue ∧ wal.Queue record = q
      ∧ wal.JobID record = id).
  { intros [= <-]. split; [by left|]. by intros [?|[? _]]. }
  assert (Hkeep : ∀ q0 q1, queues m !! wal.Queue record = Some q0 →
    ready q1 = ready q0 →
    Some (@None error, withQueue m (wal.Queue record) q1) = Some (None, m') →
    id ∈ ID <$> readyJobs m' q ↔
    id ∈ ID <$> readyJobs m q
    ∨ wal.Type_ record = wal.RecordTypeEnqueue ∧ wal.Queue record = q
      ∧ wal.JobID record = id).
  { intros q0 q1 Hq0 Hready [= <-].
    rewrite (readyJobs_same_ready m _ q q0 q1 Hq0 Hready).
    split; [by left|]. by intros [?|[? _]]. }
  destruct (decide (wal.Type_ record = wal.RecordTypeAck)) as [Hack|Hack].
  { unfold getQueue. destruct (queues m !! wal.Queue record) as [q0|] eqn:Hq;
      [|done]. by apply (Hkeep q0). }
  destruct (decide (wal.Type_ record = wal.RecordTypeNack
                    ∨ wal.Type_ record = wal.RecordTypeRequeue)) as [Hn|Hn].
  { unfold getQueue. destruct (queues m !! wal.Queue record) as [q0|] eqn:Hq;
      [|done].
    destruct (Hall _ _ Hq) as (Hi & _). by rewrite Hi, lookup_empty. }
  destruct (decide (wal.Type_ record = wal.RecordTypeTombstone)) as [Ht|Ht].
  { unfold getQueue. destruct (queues m !! wal.Queue record) as [q0|] eqn:Hq;
      [|done]. by apply (Hkeep q0). }
  done.
Qed.

Lemma deliver_ids (env : Env) (records : list wal.Record_) (m : Manager) :
  readyOK m → allReady m →
  ∃ m', wal.deliver (applyRecord env) records m = Some (None, m')
    ∧ readyOK m' ∧ allReady m'
    ∧ ∀ q id, id ∈ ID <$> readyJobs m' q ↔
        id ∈ ID <$> readyJobs m q ∨ enqueuedIn records q id.
Proof.
  revert m. induction records as [|r records IH]; intros m Hok Hall.
  - exists m. split; [done|]. split; [done|]. split; [done|].
    intros q id. split; [by left|]. intros [?|H]; [done|].
    by apply enqueuedIn_nil in H.
  - destruct (applyRecord_ids env r m Hok Hall)
      as (m1 & Hr & Hok1 & Hall1 & Hids1).
    destruct (IH m1 Hok1 Hall1) as (m' & Hrs & Hok' & Hall' & Hids).
    exists m'. simpl. rewrite Hr. split; [done|]. split; [done|].
    split; [done|]. intros q id.
    rewrite Hids, Hids1, (enqueuedIn_app [r] records). tauto.
Qed.

Lemma allReady_new (w : wal.WAL) : allReady (NewManager w).
Proof. intros key q. unfold NewManager. simpl. by rewrite lookup_empty. Qed.

Lemma readyJobs_NoDup (m : Manager) (q : string) :
  readyOK m → NoDup (ID <$> readyJobs m q).
Proof.
  intros Hok. unfold readyJobs.
  destruct (queues m !! q) as [queue|] eqn:Hq; [|constructor].
  by apply pq_inv_NoDup, (Hok q).
Qed.

Lemma replay_logged (env : Env) (w : wal.WAL) (records : list wal.Record_) :
  wal.logged w records →
  ∃ m', replayWAL env (NewManager w) = Some (None, m')
    ∧ readyOK m'
    ∧ ∀ q id, id ∈ ID <$> readyJobs m' q ↔ enqueuedIn records q id.
Proof.
  intros (bodies & Hsegs & Hdec).
  destruct (deliver_ids env records (NewManager w) (readyOK_new w)
    (allReady_new w)) as (m' & Hdel & Hok & _ & Hids).
  exists m'. split; [|split; [done|]].
  - unfold replayWAL, wal.Replay.
    by apply (replaySegments_whole _ _ bodies records).
  - intros q id. rewrite Hids. unfold readyJobs, NewManager. simpl.
    rewrite lookup_empty. simpl. split; [|by right].
    intros [Hin|?]; [|done]. by apply elem_of_nil in Hin.
Qed.

(** X15.  On a log whose segments are sequences of whole frames,
    [replayWAL] on a new manager ends without error and brings back, in
    the ready structure of each queue, exactly the job ids that have an
    ENQUEUE record for that queue in the log, each once: the ACK, NACK,
    REQUEUE and TOMBSTONE records of the log take no job away and
    bring none back. *)
Theorem replay_restores_enqueued (env : Env) (w : wal.WAL)
    (records : list wal.Record_) :
  wal.logged w records →
  ∃ m',
    replayWAL env (NewManager w) = Some (None, m')
    ∧ ∀ q, NoDup (ID <$> readyJobs m' q)
        ∧ ∀ id, id ∈ ID <$> readyJobs m' q ↔
            ∃ r, r ∈ records ∧ wal.Type_ r = wal.RecordTypeEnqueue
                 ∧ wal.Queue r = q ∧ wal.JobID r = id.
Proof.
  intros Hlog. destruct (replay_logged env w records Hlog)
    as (m' & Hrun & Hok & Hids).
  exists m'. split; [done|]. intros q.
  split; [by apply readyJobs_NoDup|]. intros id. apply Hids.
Qed.

Lemma logged_acked : wal.logged (m_wal acked) ackedRecords.
Proof.
  exists [wal.Marshal <$> ackedRecords]. split.
  - constructor; [|constructor]. vm_compute. reflexivity.
  - constructor; [|constructor; [|constructor]];
      (split; vm_compute; reflexivity).
Qed.

Lemma replay_restores_enqueued_witness :
  ∃ m',
    replayWAL (world (t0 + 1000000000) "" true) (NewManager (m_wal acked))
    = Some (None, m')
    ∧ ∀ q, NoDup (ID <$> readyJobs m' q)
        ∧ ∀ id, id ∈ ID <$> readyJobs m' q ↔
            ∃ r, r ∈ ackedRecords ∧ wal.Type_ r = wal.RecordTypeEnqueue
                 ∧ wal.Queue r = q ∧ wal.JobID r = id.
Proof.
  exact (replay_restores_enqueued (world (t0 + 1000000000) "" true)
           (m_wal acked) ackedRecords logged_acked).
Defined.

(** *** Enqueued jobs and a restart *)

Lemma Enqueue_step (env : Env) (m m' : Manager) (queueName : string)
    (payload : list byte) (headers : gmap string string)
    (priority delayMs : Z) (retryPolicy : RetryPolicy)
    (idempotencyKey id : string) (records : list wal.Record_) :
  Enqueue env m queueName payload headers priority delayMs retryPolicy
    idempotencyKey = Some ((id, None), m') →
  wal.framable
    (enqueueRecord env queueName payload headers priority delayMs
       retryPolicy) →
  wal.logged (m_wal m) records →
  wal.seg_readOnly (wal.activeSegment (m_wal m)) = false →
  readyOK m →
  (∀ q i, i ∈ ID <$> readyJobs m q ↔ enqueuedIn records q i) →
  ∃ records',
    wal.logged (m_wal m') records'
    ∧ wal.seg_readOnly (wal.activeSegment (m_wal m')) = false
    ∧ readyOK m'
    ∧ ∀ q i, i ∈ ID <$> readyJobs m' q ↔ enqueuedIn records' q i.
Proof.
  intros Hrun Hfr Hlog Hro Hok Hids. revert Hrun. unfold Enqueue.
  set (existing := if decide (idempotencyKey ≠ ""%string) then _ else _).
  destruct existing as [e|existingJobID]; [done|].
  destruct (decide (existingJobID ≠ ""%string)).
  { intros [= _ <-]. by exists records. }
  destruct (negb (Allow env m queueName)); [done|].
  assert (Hget : ∃ queue m1,
    getOrCreateQueue m queueName = (queue, m1)
    ∧ m_wal m1 = m_wal m ∧ pq_inv (ready queue) ∧ readyOK m1
    ∧ (∀ key, readyJobs m1 key = readyJobs m key)
    ∧ readyJobs m queueName = jobs (ready queue)).
  { unfold getOrCreateQueue.
    destruct (queues m !! queueName) as [q0|] eqn:Hq.
    - exists q0, m. split_and!; try done; [by apply (Hok _ _ Hq)|].
      by apply readyJobs_lookup.
    - eexists _, _. split; [done|]. simpl. split; [done|].
      split; [apply pq_inv_new|].
      split; [apply readyOK_withQueue; [done|apply pq_inv_new]|]. split.
      + intros key. rewrite readyJobs_withQueue.
        destruct (decide _) as [<-|]; [|done].
        unfold readyJobs. by rewrite Hq.
      + unfold readyJobs. by rewrite Hq. }
  destruct Hget as (queue & m1 & -> & Hwal & Hinv & Hok1 & Hsame & Hq).
  rewrite Hwal.
  change (wal.mkRecord wal.RecordTypeEnqueue queueName (uuid env 0) payload
            headers priority 0 (rp_MaxRetries retryPolicy) _ "" "")
    with (enqueueRecord env queueName payload headers priority delayMs
            retryPolicy).
  set (record := enqueueRecord _ _ _ _ _ _ _) in *.
  destruct (disk_ok env).
  2:{ destruct (Write_disk_down (m_wal m) record) as [err ->]. done. }
  destruct (Write_logged (m_wal m) records record Hlog Hfr Hro)
    as (w' & -> & Hlog' & Hro').
  set (j := mkJob _ _ _ _ _ _ _ _ _ _ _ _).
  destruct (Push_ids_iff (ready queue) j Hinv) as (pq' & -> & Hinv' & Hpush).
  simpl. intros [= _ <-].
  exists (records ++ [wal.wire record]).
  assert (Hm : ∀ mk : Manager, m_wal mk = w' → queues mk = queues m1 →
    wal.logged (m_wal (withQueue mk queueName (withReady queue pq')))
      (records ++ [wal.wire record])
    ∧ wal.seg_readOnly
        (wal.activeSegment
           (m_wal (withQueue mk queueName (withReady queue pq')))) = false
    ∧ readyOK (withQueue mk queueName (withReady queue pq'))
    ∧ ∀ q i,
        i ∈ ID <$> readyJobs (withQueue mk queueName (withReady queue pq')) q
        ↔ enqueuedIn (records ++ [wal.wire record]) q i).
  { intros mk Hmkw Hmkq. simpl. rewrite Hmkw. split; [done|]. split; [done|].
    split.
    - apply readyOK_withQueue; [|done]. intros key q0. rewrite Hmkq.
      apply Hok1.
    - intros q i. rewrite readyJobs_withQueue, enqueuedIn_app,
        enqueuedIn_singleton.
      destruct (decide (queueName = q)) as [<-|Hne].
      + simpl. rewrite Hpush, <- Hq, Hids. subst j. simpl.
        split; (intros [?|H]; [by left|right]).
        * by subst i.
        * by destruct H as (_ & _ & <-).
      + assert (Hrj : readyJobs mk q = readyJobs m1 q)
          by (unfold readyJobs; by rewrite Hmkq).
        rewrite Hrj, Hsame, Hids.
        split; [by left|]. by intros [?|(_ & ? & _)]. }
  destruct (decide (idempotencyKey ≠ ""%string));
    [destruct (store_ok env)|]; by apply Hm.
Qed.

Lemma enqueuedOnly_inv (m : Manager) :
  enqueuedOnly m →
  ∃ records,
    wal.logged (m_wal m) records
    ∧ wal.seg_readOnly (wal.activeSegment (m_wal m)) = false
    ∧ readyOK m
    ∧ ∀ q id, id ∈ ID <$> readyJobs m q ↔ enqueuedIn records q id.
Proof.
  induction 1 as [sz fs|m env queueName payload headers priority delayMs
                  retryPolicy key id m' _ IH Hrun Hfr].
  - exists []. split; [apply logged_New|]. split; [done|].
    split; [apply readyOK_new|]. intros q id.
    unfold readyJobs, NewManager. simpl. rewrite lookup_empty. simpl.
    split; [intros Hin; by apply elem_of_nil in Hin|].
    intros H. by apply enqueuedIn_nil in H.
  - destruct IH as (records & Hlog & Hro & Hok & Hids).
    by eapply Enqueue_step.
Qed.

(** X16.  Jobs that have been enqueued survive a restart: for a manager
    that started on an empty log and has served successful [Enqueue]
    calls (each with a record that fits a frame), [replayWAL] on a new
    manager over the same log ends without error, and the ready
    structure of every queue holds the same job ids as before the
    restart, each once. *)
Theorem enqueued_jobs_survive_restart (env : Env) (m : Manager) :
  enqueuedOnly m →
  ∃ m',
    replayWAL env (NewManager (m_wal m)) = Some (None, m')
    ∧ ∀ q, ID <$> readyJobs m' q ≡ₚ ID <$> readyJobs m q.
Proof.
  intros Hm. destruct (enqueuedOnly_inv m Hm)
    as (records & Hlog & _ & Hok & Hids).
  destruct (replay_logged env (m_wal m) records Hlog)
    as (m' & Hrun & Hok' & Hids').
  exists m'. split; [done|]. intros q.
  apply NoDup_Permutation; [by apply readyJobs_NoDup..|].
  intros id. by rewrite Hids, Hids'.
Qed.

Lemma enqueuedOnly_enqueued : enqueuedOnly enqueued.
Proof.
  apply (enqueuedOnly_Enqueue freshManager (world t0 "job-1" true) "Q"
           (list_byte_of_string "A") ∅ 5 0 DefaultRetryPolicy "" "job-1").
  - apply (enqueuedOnly_new 1024 false).
  - vm_compute. reflexivity.
  - split; [|vm_compute; reflexivity]. unfold wal.sized, wal.fits16.
    repeat split; try (vm_compute; reflexivity).
    match goal with |- ?P => apply (bool_decide_unpack P) end.
    vm_compute. exact I.
Qed.

Lemma enqueued_jobs_survive_restart_witness :
  ∃ m',
    replayWAL (world (t0 + 1000000000) "" true) (NewManager (m_wal enqueued))
    = Some (None, m')
    ∧ ∀ q, ID <$> readyJobs m' q ≡ₚ ID <$> readyJobs enqueued q.
Proof.
  exact (enqueued_jobs_survive_restart (world (t0 + 1000000000) "" true)
           enqueued enqueuedOnly_enqueued).
Defined.

End Restart.

(** ** Enqueue *)

Section EnqueueMore.

Import queue.

(** X17.  Once an [Enqueue] with a non-empty idempotency key has
    returned a job id without error, the store working, every later
    [Enqueue] with that key returns the same id and changes nothing: no
    job, no record in the log, no queue, whatever queue, payload,
    priority or delay the later request names.  The key is looked up
    before the rate limiter and is not tied to a queue. *)
Theorem Enqueue_idempotent (env env' : Env) (m m1 : Manager)
    (queueName queueName' : string) (payload payload' : list byte)
    (headers headers' : gmap string string) (priority priority' : Z)
    (delayMs delayMs' : Z) (retryPolicy retryPolicy' : RetryPolicy)
    (idempotencyKey id : string) :
  Enqueue env m queueName payload headers priority delayMs retryPolicy
    idempotencyKey = Some ((id, None), m1) →
  idempotencyKey ≠ ""%string → id ≠ ""%string →
  store_ok env = true → store_ok env' = true →
  Enqueue env' m1 queueName' payload' headers' priority' delayMs'
    retryPolicy' idempotencyKey = Some ((id, None), m1).
Proof.
  intros Hfirst Hkey Hid Hstore Hstore'.
  assert (Hget : GetIdempotencyKey m1 idempotencyKey = id).
  { revert Hfirst. unfold Enqueue.
    rewrite !(decide_True (P := idempotencyKey ≠ ""%string)) by done.
    rewrite Hstore.
    destruct (decide (GetIdempotencyKey m idempotencyKey ≠ ""%string)).
    { by intros [= <- <-]. }
    destruct (negb (Allow env m queueName)); [done|].
    destruct (getOrCreateQueue m queueName) as [queue m0].
    destruct (wal.Write _ _ _) as [[err|] w']; [done|].
    destruct (PQ.Push _ _) as [pq|]; [|done]. simpl.
    intros [= <- <-]. unfold GetIdempotencyKey, withQueue. simpl.
    rewrite decide_True by done. simpl. by rewrite lookup_insert_eq. }
  unfold Enqueue. rewrite decide_True by done. rewrite Hstore', Hget.
  by rewrite decide_True.
Qed.

Lemma Enqueue_idempotent_witness :
  Enqueue (world (t0 + 1) "job-2" true) (after enqueuedKeyed) "other" [] ∅
    0 0 DefaultRetryPolicy "order-42"
  = Some (("job-1"%string, None), after enqueuedKeyed).
Proof.
  refine (Enqueue_idempotent (world t0 "job-1" true)
            (world (t0 + 1) "job-2" true) freshManager (after enqueuedKeyed)
            "Q" "other" (list_byte_of_string "A") [] ∅ ∅ 5 0 0 0
            DefaultRetryPolicy DefaultRetryPolicy "order-42" "job-1"
            _ _ _ _ _).
  - vm_compute. reflexivity.
  - discriminate.
  - discriminate.
  - reflexivity.
  - reflexivity.
Defined.

(** X18.  An [Enqueue] that returns an error returns no job id and
    creates no job: the ready structure of every queue holds the jobs it
    held, the queues that existed are as they were, and the store of
    idempotency keys is unchanged.  (When the error comes from the log,
    the queue named by the request has been created, empty, if it did
    not exist.) *)
Theorem Enqueue_failure_creates_no_job (env : Env) (m m' : Manager)
    (queueName : string) (payload : list byte)
    (headers : gmap string string) (priority delayMs : Z)
    (retryPolicy : RetryPolicy) (idempotencyKey id : string) (err : error) :
  Enqueue env m queueName payload headers priority delayMs retryPolicy
    idempotencyKey = Some ((id, Some err), m') →
  id = ""%string
  ∧ store m' = store m
  ∧ (∀ key, readyJobs m' key = readyJobs m key)
  ∧ (∀ key queue, queues m !! key = Some queue →
       queues m' !! key = Some queue)
  ∧ (∀ key queue, queues m' !! key = Some queue →
       queues m !! key = Some queue
       ∨ (key = queueName
          ∧ queue = mkQueue queueName newPriorityQueue ∅ ∅)).
Proof.
  unfold Enqueue.
  assert (Hsame : ∀ e, Some (""%string, Some e, m) = Some (id, Some err, m') →
    id = ""%string ∧ store m' = store m
    ∧ (∀ key, readyJobs m' key = readyJobs m key)
    ∧ (∀ key queue, queues m !! key = Some queue →
         queues m' !! key = Some queue)
    ∧ (∀ key queue, queues m' !! key = Some queue →
         queues m !! key = Some queue
         ∨ (key = queueName
            ∧ queue = mkQueue queueName newPriorityQueue ∅ ∅))).
  { intros e [= <- _ <-]. repeat split; eauto. }
  destruct (decide (idempotencyKey ≠ ""%string)) as [Hkey|Hkey].
  - destruct (store_ok env); [|by apply Hsame].
    destruct (decide (GetIdempotencyKey m idempotencyKey ≠ ""%string));
      [done|].
    destruct (negb (Allow env m queueName)); [by apply Hsame|].
    unfold getOrCreateQueue.
    destruct (queues m !! queueName) as [q|] eqn:Hq.
    + destruct (wal.Write _ _ _) as [[e|] w']; [|by destruct (PQ.Push _ _)].
      intros [= <- _ <-]. repeat split; eauto.
    + destruct (wal.Write _ _ _) as [[e|] w']; [|by destruct (PQ.Push _ _)].
      intros [= <- _ <-]. split; [done|]. split; [done|].
      split; [|split].
      * intros key. unfold withWAL, readyJobs. simpl.
        destruct (decide (queueName = key)) as [<-|Hne].
        -- by rewrite lookup_insert_eq, Hq.
        -- by rewrite lookup_insert_ne.
      * intros key queue Hk. simpl.
        rewrite lookup_insert_ne; [done|]. congruence.
      * intros key queue. simpl.
        destruct (decide (queueName = key)) as [<-|Hne].
        -- rewrite lookup_insert_eq. intros [= <-]. by right.
        -- rewrite lookup_insert_ne by done. by left.
  - destruct (decide (""%string ≠ ""%string)); [done|].
    destruct (negb (Allow env m queueName)); [by apply Hsame|].
    unfold getOrCreateQueue.
    destruct (queues m !! queueName) as [q|] eqn:Hq.
    + destruct (wal.Write _ _ _) as [[e|] w']; [|by destruct (PQ.Push _ _)].
      intros [= <- _ <-]. repeat split; eauto.
    + destruct (wal.Write _ _ _) as [[e|] w']; [|by destruct (PQ.Push _ _)].
      intros [= <- _ <-]. split; [done|]. split; [done|].
      split; [|split].
      * intros key. unfold withWAL, readyJobs. simpl.
        destruct (decide (queueName = key)) as [<-|Hne].
        -- by rewrite lookup_insert_eq, Hq.
        -- by rewrite lookup_insert_ne.
      * intros key queue Hk. simpl.
        rewrite lookup_insert_ne; [done|]. congruence.
      * intros key queue. simpl.
        destruct (decide (queueName = key)) as [<-|Hne].
        -- rewrite lookup_insert_eq. intros [= <-]. by right.
        -- rewrite lookup_insert_ne by done. by left.
Qed.

Lemma Enqueue_failure_creates_no_job_witness :
  ""%string = ""%string
  ∧ store (after enqueueDiskDown) = store freshManager
  ∧ (∀ key, readyJobs (after enqueueDiskDown) key = readyJobs freshManager key)
  ∧ (∀ key queue, queues freshManager !! key = Some queue →
       queues (after enqueueDiskDown) !! key = Some queue)
  ∧ (∀ key queue, queues (after enqueueDiskDown) !! key = Some queue →
       queues freshManager !! key = Some queue
       ∨ (key = "Q"%string
          ∧ queue = mkQueue "Q" newPriorityQueue ∅ ∅)).
Proof.
  refine (Enqueue_failure_creates_no_job (world t0 "job-1" false)
            freshManager (after enqueueDiskDown) "Q"
            (list_byte_of_string "A") ∅ 5 0 DefaultRetryPolicy "" ""
            (Errorf "failed to write to WAL"
               (Errorf "failed to write to segment"
                  (Errorf "failed to flush" (errors_New "write error"))))
            _).
  vm_compute. reflexivity.
Defined.

End EnqueueMore.

(** ** Lease *)

Section LeaseMore.

Import queue.

Lemma ID_leaseAll (env : Env) (dl : time.Time) (i : nat) (origs : list Job) :
  ID <$> leaseAll env dl i origs = ID <$> origs.
Proof.
  revert i. induction origs as [|j origs IH]; intros i; [done|].
  simpl. by rewrite IH.
Qed.

Lemma length_leaseAll (env : Env) (dl : time.Time) (i : nat)
    (origs : list Job) :
  length (leaseAll env dl i origs) = length origs.
Proof.
  revert i. induction origs as [|j origs IH]; intros i; [done|].
  simpl. by rewrite IH.
Qed.

Lemma lookup_leaseAll (env : Env) (dl : time.Time) (i k : nat)
    (origs : list Job) :
  leaseAll env dl i origs !! k
  = withLease (uuid env (i + k)) dl <$> origs !! k.
Proof.
  revert i k. induction origs as [|j origs IH]; intros i [|k]; simpl; try done.
  - by rewrite Nat.add_0_r.
  - rewrite IH. by replace (S i + k)%nat with (i + S k)%nat by lia.
Qed.

(** The loop of [Lease]. *)
Lemma leaseLoop_spec (env : Env) (dl : time.Time) (rounds i : nat)
    (queue : Queue) (leased0 : list Job) :
  pq_inv (ready queue) →
  ∃ origs queue',
    leaseLoop rounds i env dl queue leased0
    = Some (leased0 ++ leaseAll env dl i origs, queue')
    ∧ pq_inv (ready queue') ∧ (length origs ≤ rounds)%nat
    ∧ name queue' = name queue ∧ dlq queue' = dlq queue
    ∧ inflight queue'
      = foldl (λ acc j, <[ID j := j]> acc) (inflight queue)
          (leaseAll env dl i origs)
    ∧ jobs (ready queue) ≡ₚ origs ++ jobs (ready queue')
    ∧ Forall (λ j, IsReady j (now env) = true) origs
    ∧ popOrder origs (jobs (ready queue'))
    ∧ ((length origs < rounds)%nat →
       match jobs (ready queue') with
       | [] => True
       | top :: _ => IsReady top (now env) = false
       end).
Proof.
  revert i queue leased0.
  induction rounds as [|rounds IH]; intros i queue leased0 Hinv.
  { exists [], queue. simpl. rewrite app_nil_r.
    split_and!; try done. lia. }
  simpl.
  destruct (PopReady_spec (ready queue) (now env) Hinv)
    as (r & pq' & -> & Hinv' & Hres). simpl.
  assert (Hstop : r = None → pq' = ready queue ∧
    match jobs (ready queue) with
    | [] => True
    | top :: _ => IsReady top (now env) = false
    end).
  { intros ->. destruct (jobs (ready queue)) as [|top rest];
      [by destruct Hres|].
    destruct (IsReady top (now env)); [by destruct Hres|].
    by destruct Hres. }
  destruct r as [top|].
  2:{ destruct (Hstop eq_refl) as [-> Hnone].
      exists [], queue. simpl. rewrite app_nil_r.
      split_and!; try done. lia. }
  clear Hstop.
  assert (Htop : IsReady top (now env) = true
                 ∧ jobs (ready queue) ≡ₚ top :: jobs pq'
                 ∧ ∀ b, b ∈ jobs (ready queue) → jobLess b top = false).
  { destruct (jobs (ready queue)) as [|top' rest] eqn:Hjobs;
      [by destruct Hres|].
    destruct (IsReady top' (now env)) eqn:Hready; [|by destruct Hres].
    destruct Hres as [[= <-] Hperm]. split; [done|]. split; [done|].
    rewrite <- Hjobs. by eapply top_most_preferred. }
  destruct Htop as (Hready & Hperm & Hbest).
  set (j' := mkJob _ _ _ _ _ _ _ _ _ _ _ _).
  set (queue1 := mkQueue _ _ _ _).
  destruct (IH (S i) queue1 (leased0 ++ [j']) Hinv')
    as (origs & queue' & -> & Hinv2 & Hlen & Hname & Hdlq & Hinfl & Hperm2
        & Hall & Hord & Hstop).
  change (jobs (ready queue1)) with (jobs pq') in Hperm2.
  exists (top :: origs), queue'. simpl.
  split; [by rewrite <- app_assoc|]. split; [done|]. split; [lia|].
  split; [done|]. split; [done|]. split; [done|].
  split; [by rewrite Hperm, Hperm2|]. split; [by constructor|].
  split.
  - split; [|done]. intros b Hb. apply Hbest. rewrite Hperm, Hperm2.
    by right.
  - intros Hlt. apply Hstop. lia.
Qed.

Lemma foldl_insert_other (l : list Job) (m : gmap string Job) (id : string) :
  id ∉ ID <$> l →
  foldl (λ acc j, <[ID j := j]> acc) m l !! id = m !! id.
Proof.
  revert m. induction l as [|a l IH]; intros m Hid; [done|].
  rewrite fmap_cons in Hid. apply not_elem_of_cons in Hid as [Hne Hid].
  simpl. rewrite IH by done. by rewrite lookup_insert_ne.
Qed.

Lemma foldl_insert_lookup (l : list Job) (m : gmap string Job) (j : Job) :
  NoDup (ID <$> l) → j ∈ l →
  foldl (λ acc j, <[ID j := j]> acc) m l !! ID j = Some j.
Proof.
  revert m. induction l as [|a l IH]; intros m Hnd Hj.
  { by apply elem_of_nil in Hj. }
  rewrite fmap_cons in Hnd. apply NoDup_cons in Hnd as [Ha Hnd].
  simpl. apply elem_of_cons in Hj as [->|Hj].
  - rewrite foldl_insert_other by done. apply lookup_insert_eq.
  - by apply IH.
Qed.

Lemma Lease_run (env : Env) (m : Manager) (queueName : string)
    (maxJobs visibilityMs : Z) (queue : Queue) :
  queues m !! queueName = Some queue → pq_inv (ready queue) →
  ∃ origs queue',
    Lease env m queueName maxJobs visibilityMs
    = Some ((leaseAll env
               (time.Add (now env) (int64 (visibilityMs * time.Millisecond)))
               0 origs, None),
            withQueue m queueName queue')
    ∧ Z.of_nat (length origs) ≤ Z.max 1 maxJobs
    ∧ name queue' = name queue ∧ dlq queue' = dlq queue
    ∧ inflight queue'
      = foldl (λ acc j, <[ID j := j]> acc) (inflight queue)
          (leaseAll env
             (time.Add (now env) (int64 (visibilityMs * time.Millisecond)))
             0 origs)
    ∧ jobs (ready queue) ≡ₚ origs ++ jobs (ready queue')
    ∧ Forall (λ j, IsReady j (now env) = true) origs
    ∧ popOrder origs (jobs (ready queue'))
    ∧ (Z.of_nat (length origs) < Z.max 1 maxJobs →
       match jobs (ready queue') with
       | [] => True
       | top :: _ => IsReady top (now env) = false
       end).
Proof.
  intros Hq Hinv. unfold Lease, getQueue. rewrite Hq.
  set (rounds := Z.to_nat (if decide (maxJobs ≤ 0) then 1 else maxJobs)).
  assert (Hrounds : Z.of_nat rounds = Z.max 1 maxJobs).
  { unfold rounds. destruct (decide (maxJobs ≤ 0)); lia. }
  destruct (leaseLoop_spec env
    (time.Add (now env) (int64 (visibilityMs * time.Millisecond)))
    rounds 0 queue [] Hinv)
    as (origs & queue' & -> & _ & Hlen & Hname & Hdlq & Hinfl & Hperm
        & Hall & Hord & Hstop).
  exists origs, queue'. simpl.
  split_and!; try done; [lia|]. intros Hlt. apply Hstop. lia.
Qed.

(** X19.  [Lease] on a queue takes jobs out of the ready structure, at
    most [maxJobs] of them (one when [maxJobs] is zero or negative),
    each deliverable at the time of the call, and puts each in the
    in-flight map under its id with status INFLIGHT, a lease id of its
    own and the deadline of the call; the other jobs stay in the ready
    structure, the other entries of the in-flight map and the
    dead-letter map are untouched, and nothing is written to the log:
    the manager is as it was but for this queue. *)
Theorem Lease_moves_jobs_in_flight (env : Env) (m : Manager)
    (queueName : string) (maxJobs visibilityMs : Z) (queue : Queue) :
  queues m !! queueName = Some queue → reachable (ready queue) →
  ∃ origs queue',
    Lease env m queueName maxJobs visibilityMs
    = Some ((leaseAll env
               (time.Add (now env) (int64 (visibilityMs * time.Millisecond)))
               0 origs, None),
            withQueue m queueName queue')
    ∧ Z.of_nat (length origs) ≤ Z.max 1 maxJobs
    ∧ jobs (ready queue) ≡ₚ origs ++ jobs (ready queue')
    ∧ Forall (λ j, IsReady j (now env) = true) origs
    ∧ (∀ j, j ∈ leaseAll env
                  (time.Add (now env)
                     (int64 (visibilityMs * time.Millisecond))) 0 origs →
         inflight queue' !! ID j = Some j)
    ∧ (∀ id, id ∉ ID <$> origs → inflight queue' !! id = inflight queue !! id)
    ∧ dlq queue' = dlq queue ∧ name queue' = name queue.
Proof.
  intros Hq Hreach. pose proof (reachable_inv _ Hreach) as Hinv.
  destruct (Lease_run env m queueName maxJobs visibilityMs queue Hq Hinv)
    as (origs & queue' & Hrun & Hlen & Hname & Hdlq & Hinfl & Hperm & Hall
        & _).
  exists origs, queue'. split; [done|]. split; [done|]. split; [done|].
  split; [done|].
  assert (Hnd : NoDup (ID <$> origs)).
  { pose proof (pq_inv_NoDup _ Hinv) as Hnd.
    rewrite Hperm, fmap_app in Hnd. by apply NoDup_app in Hnd as [? _]. }
  split; [|split; [|done]].
  - intros j Hj. rewrite Hinfl. apply foldl_insert_lookup; [|done].
    by rewrite ID_leaseAll.
  - intros id Hid. rewrite Hinfl. apply foldl_insert_other.
    by rewrite ID_leaseAll.
Qed.

Lemma blockedManager_Q : queues blockedManager !! "Q"%string = Some blockedQ.
Proof. vm_compute. reflexivity. Qed.

Lemma Lease_moves_jobs_in_flight_witness :
  ∃ origs queue',
    Lease (world 200 "lease-1" true) blockedManager "Q" 5 30000
    = Some ((leaseAll (world 200 "lease-1" true)
               (time.Add (now (world 200 "lease-1" true))
                  (int64 (30000 * time.Millisecond)))
               0 origs, None),
            withQueue blockedManager "Q" queue')
    ∧ Z.of_nat (length origs) ≤ Z.max 1 5
    ∧ jobs (ready blockedQ) ≡ₚ origs ++ jobs (ready queue')
    ∧ Forall (λ j, IsReady j (now (world 200 "lease-1" true)) = true) origs
    ∧ (∀ j, j ∈ leaseAll (world 200 "lease-1" true)
                  (time.Add (now (world 200 "lease-1" true))
                     (int64 (30000 * time.Millisecond))) 0 origs →
         inflight queue' !! ID j = Some j)
    ∧ (∀ id, id ∉ ID <$> origs →
         inflight queue' !! id = inflight blockedQ !! id)
    ∧ dlq queue' = dlq blockedQ ∧ name queue' = name blockedQ.
Proof.
  exact (Lease_moves_jobs_in_flight (world 200 "lease-1" true) blockedManager
           "Q" 5 30000 blockedQ blockedManager_Q reachable_blocked).
Defined.

(** X20.  [Lease] hands jobs out in the order of preference of
    [jobHeap.Less]: in the list it returns no job comes before a job
    that precedes it in the list, and no job that stays in the ready
    structure comes before a job of the list.  It returns fewer jobs
    than asked for only when the ready structure is empty or the job at
    its top is not deliverable yet. *)
Theorem Lease_in_preference_order (env : Env) (m : Manager)
    (queueName : string) (maxJobs visibilityMs : Z) (queue : Queue) :
  queues m !! queueName = Some queue → reachable (ready queue) →
  ∃ leased queue',
    Lease env m queueName maxJobs visibilityMs
    = Some ((leased, None), withQueue m queueName queue')
    ∧ (∀ k l a b, (k < l)%nat →
         leased !! k = Some a → leased !! l = Some b → jobLess b a = false)
    ∧ (∀ a b, a ∈ leased → b ∈ jobs (ready queue') → jobLess b a = false)
    ∧ (Z.of_nat (length leased) < Z.max 1 maxJobs →
       match jobs (ready queue') with
       | [] => True
       | top :: _ => IsReady top (now env) = false
       end).
Proof.
  intros Hq Hreach. pose proof (reachable_inv _ Hreach) as Hinv.
  destruct (Lease_run env m queueName maxJobs visibilityMs queue Hq Hinv)
    as (origs & queue' & Hrun & _ & _ & _ & _ & _ & _ & Hord & Hstop).
  eexists _, queue'. split; [exact Hrun|].
  set (dl := time.Add _ _). rewrite length_leaseAll. split; [|split; [|done]].
  - clear Hrun Hstop. generalize 0%nat.
    induction origs as [|o origs IH]; intros i k l a b Hkl Ha Hb; [done|].
    destruct Hord as [Hbest Hord]. destruct l as [|l]; [lia|].
    simpl in Hb. destruct k as [|k].
    + injection Ha as <-. rewrite lookup_leaseAll in Hb.
      destruct (origs !! l) as [ob|] eqn:Hob; [|done]. injection Hb as <-.
      change (jobLess ob o = false). apply Hbest.
      apply elem_of_app. left. by eapply list_elem_of_lookup_2.
    + simpl in Ha. apply (IH Hord (S i) k l a b); [lia|done..].
  - clear Hrun Hstop. generalize 0%nat.
    induction origs as [|o origs IH]; intros i a b Ha Hb.
    { by apply elem_of_nil in Ha. }
    destruct Hord as [Hbest Hord]. simpl in Ha.
    apply elem_of_cons in Ha as [->|Ha].
    + change (jobLess b o = false). apply Hbest.
      apply elem_of_app. by right.
    + by apply (IH Hord (S i)).
Qed.

Lemma Lease_in_preference_order_witness :
  ∃ leased queue',
    Lease (world 200 "lease-1" true) blockedManager "Q" 5 30000
    = Some ((leased, None), withQueue blockedManager "Q" queue')
    ∧ (∀ k l a b, (k < l)%nat →
         leased !! k = Some a → leased !! l = Some b → jobLess b a = false)
    ∧ (∀ a b, a ∈ leased → b ∈ jobs (ready queue') → jobLess b a = false)
    ∧ (Z.of_nat (length leased) < Z.max 1 5 →
       match jobs (ready queue') with
       | [] => True
       | top :: _ => IsReady top (now (world 200 "lease-1" true)) = false
       end).
Proof.
  exact (Lease_in_preference_order (world 200 "lease-1" true) blockedManager
           "Q" 5 30000 blockedQ blockedManager_Q reachable_blocked).
Defined.

End LeaseMore.

(** ** Nack, Ack and the reclaimer *)

Section Settling.

Import queue.

(** X21.  [Nack] changes the job before it writes to the log: when the
    write fails, [Nack] returns the error and the job is still in the
    in-flight map, but with its attempts counted up, its lease id
    cleared and its lease deadline zero, so that no tick of the
    reclaimer will ever find its lease expired. *)
Theorem Nack_write_failure (env : Env) (m : Manager)
    (jobID leaseID reason key : string) (queue : Queue) (j : Job) :
  findInflight m jobID = Some (key, queue, j) →
  LeaseID j = leaseID →
  disk_ok env = false →
  ∃ err j',
    Nack env m jobID leaseID reason
    = Some (Some (Errorf "failed to write to WAL" err),
            withQueue m key
              (withInflight queue (<[jobID := j']> (inflight queue))))
    ∧ Tries j' = uint32 (Tries j + 1)
    ∧ LeaseID j' = ""%string ∧ LeaseDeadline j' = time.zero
    ∧ ∀ env', expired env' j' = false.
Proof.
  intros Hfind Hlease Hdisk. unfold Nack. rewrite Hfind.
  rewrite decide_False by (by intros ?). rewrite Hdisk.
  destruct (ShouldRetry (retried env j)).
  - match goal with |- context [wal.Write false _ ?r] =>
      destruct (Write_disk_down (m_wal m) r) as [err ->] end.
    eexists err, _. split; [by destruct m|]. by split_and!.
  - match goal with |- context [wal.Write false _ ?r] =>
      destruct (Write_disk_down (m_wal m) r) as [err ->] end.
    eexists err, _. split; [by destruct m|]. by split_and!.
Qed.

Lemma findInflight_leased :
  findInflight leased "job-1" = Some ("Q"%string, leasedQueue, leasedJob).
Proof. vm_compute. reflexivity. Qed.

Lemma Nack_write_failure_witness :
  ∃ err j',
    Nack (world (t0 + 2) "" false) leased "job-1" "lease-1" "boom"
    = Some (Some (Errorf "failed to write to WAL" err),
            withQueue leased "Q"
              (withInflight leasedQueue
                 (<["job-1"%string := j']> (inflight leasedQueue))))
    ∧ Tries j' = uint32 (Tries leasedJob + 1)
    ∧ LeaseID j' = ""%string ∧ LeaseDeadline j' = time.zero
    ∧ ∀ env', expired env' j' = false.
Proof.
  refine (Nack_write_failure (world (t0 + 2) "" false) leased "job-1"
            "lease-1" "boom" "Q" leasedQueue leasedJob _ _ _).
  - exact findInflight_leased.
  - vm_compute. reflexivity.
  - reflexivity.
Defined.




(** *** Finding a job in flight *)

Lemma findInflight_Some (m : Manager) (id key : string) (q : Queue) (j : Job) :
  findInflight m id = Some (key, q, j) →
  queues m !! key = Some q ∧ inflight q !! id = Some j.
Proof.
  unfold findInflight. intros Hhead. apply head_Some_elem_of in Hhead.
  apply list_elem_of_omap in Hhead as ([k q0] & Hin & Hf). simpl in Hf.
  destruct (inflight q0 !! id) as [j0|] eqn:Hj; [|done].
  injection Hf as <- <- <-. split; [|done]. by apply elem_of_map_to_list.
Qed.

Lemma findInflight_None (m : Manager) (id : string) :
  findInflight m id = None ↔
  ∀ key q, queues m !! key = Some q → inflight q !! id = None.
Proof.
  unfold findInflight. rewrite head_None. split.
  - intros Hnil key q Hq.
    destruct (inflight q !! id) as [j|] eqn:Hj; [|done].
    assert (Hin : (key, q, j) ∈ omap
      (λ kq : string * Queue, (λ j, (kq.1, kq.2, j)) <$> inflight kq.2 !! id)
      (map_to_list (queues m))).
    { apply list_elem_of_omap. exists (key, q).
      split; [by apply elem_of_map_to_list|]. simpl. by rewrite Hj. }
    rewrite Hnil in Hin. by apply elem_of_nil in Hin.
  - intros Hall. apply elem_of_nil_inv. intros [[k q] j] Hin.
    apply list_elem_of_omap in Hin as ([k0 q0] & Hin & Hf). simpl in Hf.
    apply elem_of_map_to_list in Hin.
    by rewrite (Hall k0 q0 Hin) in Hf.
Qed.

(** A job in flight in one queue only is the one the search finds. *)
Lemma findInflight_unique (m : Manager) (id key : string) (q : Queue)
    (j : Job) :
  queues m !! key = Some q → inflight q !! id = Some j →
  (∀ key' q', queues m !! key' = Some q' → key' ≠ key →
     inflight q' !! id = None) →
  findInflight m id = Some (key, q, j).
Proof.
  intros Hq Hj Huniq.
  destruct (findInflight m id) as [[[k0 q0] j0]|] eqn:Hfind.
  - apply findInflight_Some in Hfind as [Hq0 Hj0].
    destruct (decide (k0 = key)) as [->|Hne].
    + congruence.
    + by rewrite (Huniq k0 q0 Hq0 Hne) in Hj0.
  - rewrite findInflight_None in Hfind. by rewrite (Hfind key q Hq) in Hj.
Qed.

(** X23.  [Ack] of a job in flight, with the lease id the job carries
    and the disk working, appends one ACK record to the log and deletes
    the job from the in-flight map of its queue; nothing else in the
    manager changes.  After it the job is in flight nowhere, so [Ack]
    of the same job again, with any lease id, fails with "job not found
    or not inflight" and changes nothing. *)
Theorem Ack_is_final (env : Env) (m : Manager) (jobID leaseID key : string)
    (queue : Queue) (j : Job) :
  queues m !! key = Some queue → inflight queue !! jobID = Some j →
  (∀ key' q', queues m !! key' = Some q' → key' ≠ key →
     inflight q' !! jobID = None) →
  LeaseID j = leaseID →
  disk_ok env = true →
  wal.seg_readOnly (wal.activeSegment (m_wal m)) = false →
  ∃ m',
    Ack env m jobID leaseID = (None, m')
    ∧ queues m'
      = <[key := withInflight queue (delete jobID (inflight queue))]>
          (queues m)
    ∧ store m' = store m
    ∧ m_wal m'
      = (wal.Write true (m_wal m)
           (wal.mkRecord wal.RecordTypeAck (Job_Queue j) jobID [] ∅ 0 0 0
              time.zero leaseID "")).2
    ∧ ∀ env' leaseID',
        Ack env' m' jobID leaseID'
        = (Some (errors_New "job not found or not inflight"), m').
Proof.
  intros Hq Hj Huniq Hlease Hdisk Hro.
  pose proof (findInflight_unique m jobID key queue j Hq Hj Huniq) as Hfind.
  unfold Ack at 1. rewrite Hfind. rewrite decide_False by (by intros ?).
  rewrite Hdisk.
  match goal with |- context [wal.Write true _ ?r] =>
    destruct (Write_ok (m_wal m) r Hro) as (w' & Hw & _) end.
  rewrite Hw. eexists. split; [reflexivity|]. simpl.
  split; [done|]. split; [done|]. split; [done|].
  intros env' leaseID'. unfold Ack.
  match goal with |- context [findInflight ?m1 jobID] =>
    assert (Hnone : findInflight m1 jobID = None) end.
  { apply findInflight_None. intros key' q'. simpl.
    destruct (decide (key = key')) as [<-|Hne].
    - rewrite lookup_insert_eq. intros [= <-]. simpl.
      apply lookup_delete_eq.
    - rewrite lookup_insert_ne by done. intros Hq'.
      by apply (Huniq key' q' Hq'). }
  by rewrite Hnone.
Qed.

Lemma Ack_is_final_witness :
  ∃ m',
    Ack (world (t0 + 2) "" true) leased "job-1" "lease-1" = (None, m')
    ∧ queues m'
      = <["Q"%string :=
            withInflight leasedQueue
              (delete "job-1"%string (inflight leasedQueue))]>
          (queues leased)
    ∧ store m' = store leased
    ∧ m_wal m'
      = (wal.Write true (m_wal leased)
           (wal.mkRecord wal.RecordTypeAck (Job_Queue leasedJob) "job-1" [] ∅
              0 0 0 time.zero "lease-1" "")).2
    ∧ ∀ env' leaseID',
        Ack env' m' "job-1" leaseID'
        = (Some (errors_New "job not found or not inflight"), m').
Proof.
  refine (Ack_is_final (world (t0 + 2) "" true) leased "job-1" "lease-1" "Q"
            leasedQueue leasedJob _ _ _ _ _ _).
  - vm_compute. reflexivity.
  - vm_compute. reflexivity.
  - intros key' q' Hq' Hne.
    destruct (findInflight_Some leased "job-1" "Q" leasedQueue leasedJob
      findInflight_leased) as [Hq _].
    destruct (inflight q' !! "job-1"%string) as [j0|] eqn:Hj0; [|done].
    exfalso. apply Hne.
    assert (Hdom : dom (queues leased) = {["Q"%string]}).
    { match goal with |- ?P => apply (bool_decide_unpack P) end.
      vm_compute. exact I. }
    assert (Hin : key' ∈ dom (queues leased)) by (apply elem_of_dom; eauto).
    rewrite Hdom in Hin. by apply elem_of_singleton in Hin.
  - vm_compute. reflexivity.
  - reflexivity.
  - vm_compute. reflexivity.
Defined.

(** *** One tick of the reclaimer *)








End Settling.

(** ** The bound of a prefix scan *)

Section PrefixScan.

Import store.

Lemma Compare_refl (a : list byte) : Compare a a = 0.
Proof.
  induction a as [|x a IH]; [done|]. simpl.
  rewrite !decide_False by lia. done.
Qed.

(** A key that has the prefix [p], against a bound that agrees with [p]
    up to a position where it is larger. *)
Lemma Compare_bump (pre : list byte) (x y : byte) (suf suf' rest : list byte) :
  Z_of_byte x < Z_of_byte y →
  Compare (pre ++ x :: suf ++ rest) (pre ++ y :: suf') = -1.
Proof.
  intros Hlt. induction pre as [|b pre IH]; simpl.
  - by rewrite decide_True.
  - rewrite !decide_False by lia. done.
Qed.

Lemma upperLoop_spec (n : nat) (end_ : list byte) :
  (n ≤ length end_)%nat →
  match upperLoop n end_ with
  | None => Forall (λ b, Z_of_byte b = 255) (take n end_)
  | Some e =>
      ∃ pre x y suf,
        take n end_ = pre ++ x :: suf
        ∧ Forall (λ b, Z_of_byte b = 255) suf
        ∧ Z_of_byte y = Z_of_byte x + 1
        ∧ e = pre ++ y :: replicate (length suf) (byte_of_Z 0) ++ drop n end_
  end.
Proof.
  revert end_. induction n as [|i IH]; intros end_ Hn; simpl.
  { constructor. }
  assert (Hi : (i < length end_)%nat) by lia.
  destruct (lookup_lt_is_Some_2 end_ i Hi) as [x Hx].
  assert (Hat : at_ end_ i = Z_of_byte x).
  { unfold at_. f_equal. by apply nth_lookup_Some. }
  rewrite Hat. pose proof (Z_of_byte_range x) as Hr.
  rewrite (take_S_r _ _ x) by done.
  destruct (decide (Z_of_byte (byte_of_Z (Z_of_byte x + 1)) ≠ 0)) as [Hnz|Hz].
  - exists (take i end_), x, (byte_of_Z (Z_of_byte x + 1)), [].
    rewrite Z_of_byte_of_Z in *. unfold uint8 in *.
    assert (Z_of_byte x + 1 < 256).
    { destruct (decide (Z_of_byte x + 1 = 256)) as [Heq|]; [|lia].
      rewrite Heq in Hnz. by vm_compute in Hnz. }
    rewrite Z.mod_small by (change (2 ^ 8) with 256; lia).
    split; [done|]. split; [constructor|]. split; [done|]. simpl.
    rewrite <- (take_drop i end_) at 1.
    rewrite insert_app_r_alt by (rewrite length_take; lia).
    rewrite length_take, Nat.min_l, Nat.sub_diag by lia.
    rewrite (drop_S _ x) by done. done.
  - apply dec_stable in Hz.
    rewrite Z_of_byte_of_Z in Hz. unfold uint8 in Hz.
    assert (Hff : Z_of_byte x = 255).
    { change (2 ^ 8) with 256 in Hz.
      destruct (decide (Z_of_byte x + 1 = 256)) as [|Hne]; [lia|].
      rewrite Z.mod_small in Hz by lia. lia. }
    rewrite Hff. change (byte_of_Z (255 + 1)) with (byte_of_Z 0).
    specialize (IH (<[i := byte_of_Z 0]> end_)).
    rewrite length_insert in IH. specialize (IH ltac:(lia)).
    rewrite take_insert_ge in IH by lia.
    destruct (upperLoop i (<[i := byte_of_Z 0]> end_)) as [e|].
    + destruct IH as (pre & x0 & y & suf & Htake & Hsuf & Hy & ->).
      exists pre, x0, y, (suf ++ [x]). rewrite Htake.
      split; [by rewrite <- app_assoc|].
      split; [apply Forall_app; split; [done|by constructor]|].
      split; [done|]. f_equal. f_equal.
      rewrite <- (take_drop i end_) at 1.
      rewrite insert_app_r_alt by (rewrite length_take; lia).
      rewrite length_take, Nat.min_l, Nat.sub_diag by lia.
      rewrite drop_app_length' by (rewrite length_take; lia).
      rewrite (drop_S _ x) by done.
      rewrite length_app, replicate_add, <- app_assoc. done.
    + apply Forall_app. split; [done|]. by constructor.
Qed.

(** X25.  [prefixUpperBound] returns nil exactly when every byte of the
    prefix is 0xFF (the empty prefix included).  Otherwise it returns a
    slice of the length of the prefix that is above, in the order of
    [bytes.Compare], the prefix itself and every key that starts with
    the prefix: a scan bounded by it misses no key with the prefix. *)
Theorem prefixUpperBound_sound (prefix : list byte) :
  match prefixUpperBound prefix with
  | None => Forall (λ b, Z_of_byte b = 255) prefix
  | Some bound =>
      ¬ Forall (λ b, Z_of_byte b = 255) prefix
      ∧ length bound = length prefix
      ∧ ∀ rest, Compare (prefix ++ rest) bound = -1
  end.
Proof.
  unfold prefixUpperBound.
  pose proof (upperLoop_spec (length prefix) prefix (le_n _)) as Hspec.
  rewrite firstn_all, drop_all in Hspec.
  destruct (upperLoop (length prefix) prefix) as [e|]; [|done].
  destruct Hspec as (pre & x & y & suf & -> & Hsuf & Hy & ->).
  rewrite app_nil_r. split; [|split].
  - intros Hall. apply Forall_app in Hall as [_ Hall].
    apply Forall_cons in Hall as [Hx _].
    pose proof (Z_of_byte_range y). lia.
  - rewrite !length_app. simpl. by rewrite length_replicate.
  - intros rest. rewrite <- app_assoc. simpl.
    apply Compare_bump. lia.
Qed.

Lemma Z_of_byte_inj (x y : byte) : Z_of_byte x = Z_of_byte y → x = y.
Proof.
  intros Heq. rewrite <- (byte_of_Z_of_byte x), <- (byte_of_Z_of_byte y).
  by rewrite Heq.
Qed.

Lemma Compare_between (pre : list byte) (x y : byte) (key : list byte) :
  Z_of_byte y = Z_of_byte x + 1 →
  Compare (pre ++ [x]) key ≠ 1 → Compare key (pre ++ [y]) = -1 →
  (pre ++ [x]) `prefix_of` key.
Proof.
  intros Hy. revert key. induction pre as [|b pre IH]; intros key Hlow Hup.
  - destruct key as [|c key]; [done|]. simpl in *.
    destruct (decide (Z_of_byte x < Z_of_byte c)) as [Hxc|Hxc].
    + destruct (decide (Z_of_byte c < Z_of_byte y)); [lia|].
      destruct (decide (Z_of_byte y < Z_of_byte c)); [done|].
      by destruct key.
    + destruct (decide (Z_of_byte c < Z_of_byte x)); [done|].
      assert (c = x) as -> by (apply Z_of_byte_inj; lia).
      by exists key.
  - destruct key as [|c key]; [done|]. simpl in *.
    destruct (decide (Z_of_byte b < Z_of_byte c)) as [Hbc|Hbc].
    + destruct (decide (Z_of_byte c < Z_of_byte b)); [lia|done].
    + destruct (decide (Z_of_byte c < Z_of_byte b)); [done|].
      assert (c = b) as -> by (apply Z_of_byte_inj; lia).
      apply prefix_cons. by apply IH.
Qed.

(** X26.  When the last byte of the prefix is not 0xFF, the bound of
    [prefixUpperBound] is the prefix with its last byte one higher, and
    it is tight: every key that is not below the prefix and is below the
    bound, in the order of [bytes.Compare], starts with the prefix. *)
Theorem prefixUpperBound_tight (prefix bound key : list byte) (x : byte) :
  last prefix = Some x → Z_of_byte x ≠ 255 →
  prefixUpperBound prefix = Some bound →
  bound = removelast prefix ++ [byte_of_Z (Z_of_byte x + 1)]
  ∧ (Compare prefix key ≠ 1 → Compare key bound = -1 →
     prefix `prefix_of` key).
Proof.
  intros Hlast Hx Hsome. unfold prefixUpperBound in Hsome.
  pose proof (upperLoop_spec (length prefix) prefix (le_n _)) as Hspec.
  rewrite Hsome, firstn_all, drop_all in Hspec.
  destruct Hspec as (pre & x0 & y & suf & -> & Hsuf & Hy & ->).
  assert (suf = []) as ->.
  { destruct suf as [|s suf _] using rev_ind; [done|].
    rewrite app_comm_cons, app_assoc, last_snoc in Hlast.
    injection Hlast as ->. apply Forall_app in Hsuf as [_ Hs].
    by apply Forall_inv in Hs. }
  rewrite last_snoc in Hlast. injection Hlast as ->.
  simpl. rewrite ?app_nil_r.
  assert (y = byte_of_Z (Z_of_byte x + 1)) as Hyb.
  { rewrite <- Hy. by rewrite byte_of_Z_of_byte. }
  split.
  - rewrite removelast_last. by rewrite Hyb.
  - by apply Compare_between.
Qed.

Lemma prefixUpperBound_tight_witness :
  [Byte.x6a; Byte.x3b]
  = removelast [Byte.x6a; Byte.x3a] ++ [byte_of_Z (Z_of_byte Byte.x3a + 1)]
  ∧ (Compare [Byte.x6a; Byte.x3a] [Byte.x6a; Byte.x3a; Byte.x31] ≠ 1 →
     Compare [Byte.x6a; Byte.x3a; Byte.x31] [Byte.x6a; Byte.x3b] = -1 →
     [Byte.x6a; Byte.x3a] `prefix_of` [Byte.x6a; Byte.x3a; Byte.x31]).
Proof.
  refine (prefixUpperBound_tight [Byte.x6a; Byte.x3a] [Byte.x6a; Byte.x3b]
            [Byte.x6a; Byte.x3a; Byte.x31] Byte.x3a _ _ _).
  - reflexivity.
  - vm_compute. discriminate.
  - vm_compute. reflexivity.
Defined.

End PrefixScan.

(** ** Compaction *)

Section Compaction.

Import wal.

Lemma kept_app (active : gmap string bool) (rs1 rs2 : list Record_) :
  kept active (rs1 ++ rs2) = kept active rs1 ++ kept active rs2.
Proof. unfold kept. apply filter_app. Qed.

Lemma compactSegment_frames (active : gmap string bool)
    (bodies : list (list byte)) (records : list Record_) (fuel : nat)
    (offset : Z) (temp : Segment) :
  Forall2 decodes bodies records →
  seg_readOnly temp = false →
  ∃ temp',
    compactSegment (length bodies + S fuel) true active
      (mkSegmentReader (frames bodies) offset) temp
    = Some (None, temp')
    ∧ seg_file temp'
      = seg_file temp ++ frames (Marshal <$> kept active records)
    ∧ seg_size temp'
      = seg_size temp
        + Z.of_nat (length (frames (Marshal <$> kept active records)))
    ∧ seg_readOnly temp' = false.
Proof.
  intros Hdec. revert offset temp.
  induction Hdec as [|d r bodies records Hd _ IH]; intros offset temp Hro.
  - exists temp. simpl. rewrite app_nil_r. split; [done|].
    split; [done|]. split; [lia|done].
  - change (frames (d :: bodies)) with (frame d ++ frames bodies).
    cbn [length Nat.add compactSegment]. rewrite (Read_frame d _ r) by done.
    unfold kept. rewrite filter_cons. fold (kept active records).
    destruct (decide (Type_ r = RecordTypeEnqueue
                      ∧ active !! JobID r = Some true)) as [Hkeep|Hdrop].
    + unfold Segment_Write. rewrite Hro.
      match goal with |- context [compactSegment _ _ _ _ ?t] =>
        destruct (IH (offset + (8 + Z.of_nat (length d))) t eq_refl)
          as (temp' & -> & Hfile & Hsize & Hro') end.
      exists temp'. split; [done|]. cbn [seg_file seg_size] in Hfile, Hsize.
      rewrite fmap_cons.
      change (frames (Marshal r :: (Marshal <$> kept active records)))
        with (frame (Marshal r) ++ frames (Marshal <$> kept active records)).
      rewrite Hfile, Hsize, length_app, length_frame, <- app_assoc.
      split; [done|]. split; [lia|done].
    + destruct (IH (offset + (8 + Z.of_nat (length d))) temp Hro)
        as (temp' & -> & Hfile & Hsize & Hro').
      exists temp'. done.
Qed.

Lemma compactSegments_whole (active : gmap string bool)
    (segs : list Segment) (bodies : list (list (list byte)))
    (records : list Record_) (temp : Segment) :
  Forall2 (λ seg bs, seg_file seg = frames bs) segs bodies →
  Forall2 decodes (concat bodies) records →
  seg_readOnly temp = false →
  ∃ temp',
    compactSegments true active segs temp = Some (None, temp')
    ∧ seg_file temp'
      = seg_file temp ++ frames (Marshal <$> kept active records)
    ∧ seg_size temp'
      = seg_size temp
        + Z.of_nat (length (frames (Marshal <$> kept active records)))
    ∧ seg_readOnly temp' = false.
Proof.
  intros Hsegs. revert records temp.
  induction Hsegs as [|seg bs segs bodies Hfile _ IH];
    intros records temp Hdec Hro.
  - apply Forall2_nil_inv_l in Hdec as ->. exists temp. simpl.
    rewrite app_nil_r. split; [done|]. split; [done|]. split; [lia|done].
  - cbn [concat] in Hdec.
    apply Forall2_app_inv_l in Hdec as (rs1 & rs2 & Hd1 & Hd2 & ->).
    cbn [compactSegments]. unfold NewSegmentReader. rewrite Hfile.
    pose proof (fuel_split bs []) as [fuel Hfuel].
    rewrite app_nil_r in Hfuel. rewrite Hfuel.
    destruct (compactSegment_frames active bs rs1 fuel 0 temp Hd1 Hro)
      as (temp1 & -> & Hfile1 & Hsize1 & Hro1).
    destruct (IH rs2 temp1 Hd2 Hro1) as (temp' & -> & Hfile' & Hsize' & Hro').
    exists temp'. split; [done|].
    rewrite kept_app, fmap_app, frames_app, length_app.
    rewrite Hfile', Hfile1, Hsize', Hsize1, <- app_assoc.
    split; [done|]. split; [lia|done].
Qed.

(** X27.  [WAL.Compact] on a log with more than one segment, whose
    older segments are sequences of whole frames, with a working disk:
    it returns no error and leaves the active segment untouched; the
    older segments are replaced by one segment, with the next segment
    id, that holds the frames of exactly the ENQUEUE records of the
    older segments whose job id [activeJobIDs] maps to true, in their
    order, re-serialized; every other record of the older segments is
    dropped.  When no record is kept, no segment is added and the next
    segment id stays. *)
Theorem Compact_keeps_active_enqueues (w : WAL) (active : gmap string bool)
    (bodies : list (list (list byte))) (records : list Record_) :
  older w ≠ [] →
  Forall2 (λ seg bs, seg_file seg = frames bs) (older w) bodies →
  Forall2 decodes (concat bodies) records →
  Compact true w active
  = Some (None,
          if decide (kept active records = [])
          then mkWAL [] (activeSegment w) (nextSegmentID w) (segmentSize w)
                 (fsync w)
          else mkWAL
                 [openSegment (nextSegmentID w)
                    (frames (Marshal <$> kept active records))
                    (segmentSize w) (fsync w)]
                 (activeSegment w) (uint64 (nextSegmentID w + 1))
                 (segmentSize w) (fsync w)).
Proof.
  intros Hold Hsegs Hdec. unfold Compact.
  rewrite decide_False.
  2:{ unfold segments. rewrite length_app. simpl.
      destruct (older w); [done|]. simpl. lia. }
  cbn [negb].
  destruct (compactSegments_whole active (older w) bodies records
    (NewSegment (nextSegmentID w) (segmentSize w) (fsync w)) Hsegs Hdec
    eq_refl) as (temp & -> & Hfile & Hsize & _).
  cbn [NewSegment seg_file seg_size] in Hfile, Hsize.
  rewrite app_nil_l in Hfile. unfold Size. rewrite Hsize, Hfile.
  destruct (kept active records) as [|r rs] eqn:Hkept.
  - rewrite decide_False by (simpl; lia). by rewrite decide_True.
  - rewrite (decide_False (P := r :: rs = [])) by done.
    rewrite decide_True; [done|].
    rewrite fmap_cons.
    change (frames (Marshal r :: (Marshal <$> rs)))
      with (frame (Marshal r) ++ frames (Marshal <$> rs)).
    rewrite length_app, length_frame. lia.
Qed.

Lemma Compact_keeps_active_enqueues_witness :
  Compact true afterTwo {[ "job-1"%string := true ]}
  = Some (None,
          if decide (kept {[ "job-1"%string := true ]} [wire subMilliRecord]
                     = [])
          then mkWAL [] (activeSegment afterTwo) (nextSegmentID afterTwo)
                 (segmentSize afterTwo) (fsync afterTwo)
          else mkWAL
                 [openSegment (nextSegmentID afterTwo)
                    (frames (Marshal
                               <$> kept {[ "job-1"%string := true ]}
                                     [wire subMilliRecord]))
                    (segmentSize afterTwo) (fsync afterTwo)]
                 (activeSegment afterTwo)
                 (uint64 (nextSegmentID afterTwo + 1))
                 (segmentSize afterTwo) (fsync afterTwo)).
Proof.
  refine (Compact_keeps_active_enqueues afterTwo {[ "job-1"%string := true ]}
            [[Marshal subMilliRecord]] [wire subMilliRecord] _ _ _).
  - vm_compute. discriminate.
  - assert (Ho : older afterTwo
                 = [mkSegment 0 (frame (Marshal subMilliRecord)) 91 64 false
                      false]) by (vm_compute; reflexivity).
    rewrite Ho. apply Forall2_cons. split; [|constructor].
    cbn [seg_file frames flat_map]. by rewrite app_nil_r.
  - change (concat [[Marshal subMilliRecord]]) with [Marshal subMilliRecord].
    apply Forall2_cons. split; [|constructor].
    exact (decodes_Marshal subMilliRecord framable_subMilliRecord).
Defined.

End Compaction.
